(** * Binary morphology of ImagePlay (IPL/src/processes/IPLMorphologyBinary.cpp)

    A shallow embedding of [applyMorphology], [dilate], [erode], [open],
    [close] and [IPLMorphologyBinary::processInputData], and the properties
    of the morphology engine proved about it.

    Image planes live in a store indexed by locations, because the C++ code
    passes them by reference, copies them into locals and exchanges them
    with [std::swap].  Reading a [std::vector] or a pixel buffer outside its
    range is undefined behaviour in C++; every operation of the embedding
    returns [None] there. *)

From Stdlib Require Import ZArith QArith Lia SpecFloat.
From stdpp Require Import strings gmap list numbers.

Local Open Scope Z_scope.

(** ** Image planes *)

(** Modelled from the spec: the class IPLImagePlane (IPLImagePlane.h is not
    among the sources).  A plane is a raster of fixed width and height, read
    and written by absolute coordinate.  Pixels are stored row by row (the
    code reads and writes through [p(x,y)] only, so the layout does not
    show in what it computes); a
    pixel of a binary plane holds 0.0 (background) or 1.0 (foreground), and
    the embedding keeps the integer the float holds, so that the test
    [p == (float)T] of line 83 is equality of integers. *)
Record IPLImagePlane := Plane {
  width : Z;
  height : Z;
  pixels : list Z
}.

(** Position of pixel (x, y) in the buffer of the plane. *)
Definition pixel_index (P : IPLImagePlane) (x y : Z) : option nat :=
  let k := y * width P + x in
  if bool_decide (0 ≤ k) then Some (Z.to_nat k) else None.

(** [P.p(x,y)] read as a value. *)
Definition p (P : IPLImagePlane) (x y : Z) : option Z :=
  k ← pixel_index P x y; pixels P !! k.

(** [P.p(x,y) = v]. *)
Definition set_p (P : IPLImagePlane) (x y v : Z) : option IPLImagePlane :=
  k ← pixel_index P x y;
  _ ← pixels P !! k;
  Some (Plane (width P) (height P) (<[k:=v]> (pixels P))).

(** A raster: the buffer has exactly width * height pixels. *)
Definition raster (P : IPLImagePlane) : Prop :=
  0 ≤ width P ∧ 0 ≤ height P ∧ length (pixels P) = Z.to_nat (width P * height P).

(** Two planes are compatible when their dimensions match. *)
Definition compatible (P Q : IPLImagePlane) : Prop :=
  width P = width Q ∧ height P = height Q.

(** A binary plane holds only the two sentinel values. *)
Definition binary (P : IPLImagePlane) : Prop :=
  Forall (λ v, v = 0 ∨ v = 1) (pixels P).

(** Pixel-wise negation of a binary plane. *)
Definition negate (P : IPLImagePlane) : IPLImagePlane :=
  Plane (width P) (height P) ((λ v, 1 - v) <$> pixels P).

(** ** Loops *)

(** [for (a : l) body] where the body may fault. *)
Fixpoint for_each {A St : Type} (body : A → St → option St) (l : list A) (s : St)
  : option St :=
  match l with
  | [] => Some s
  | a :: l' => s' ← body a s; for_each body l' s'
  end.

(** [for (a : l; !stop; ) body]: the condition is tested before every
    round. *)
Fixpoint for_until {A St : Type} (stop : St → bool) (body : A → St → option St)
  (l : list A) (s : St) : option St :=
  match l with
  | [] => Some s
  | a :: l' =>
      if stop s then Some s
      else s' ← body a s; for_until stop body l' s'
  end.

(** ** The scan of one neighbourhood (lines 70 to 86) *)

(** [cancel] and the kernel index [i] of the scan. *)
Record scan_state := ScanState {
  cancel : bool;
  kernel_i : nat
}.

(** The body of the inner loop, at kernel cell (kx, ky) of pixel (x, y). *)
Definition scan_cell (T : Z) (src : IPLImagePlane) (kernel : list bool)
  (x y ky kx : Z) (s : scan_state) : option scan_state :=
  if bool_decide (x + kx < 0 ∨ width src ≤ x + kx
                  ∨ y + ky < 0 ∨ height src ≤ y + ky)
  then Some s
  else
    v ← p src (x + kx) (y + ky);
    mask ← kernel !! kernel_i s;
    Some (ScanState (mask && bool_decide (v = T)) (S (kernel_i s))).

(** Line 61: [(int)sqrt((float)kernel.size()) / 2].  The float square root
    truncated to [int] is the integer square root for every kernel of fewer
    than 2^22 cells. *)
Definition kernel_offset (kernel : list bool) : Z :=
  Z.sqrt (Z.of_nat (length kernel)) / 2.

(** The values kx (and ky) takes: -kernelOffset, ..., kernelOffset. *)
Definition kernel_range (kernelOffset : Z) : list Z :=
  seqZ (- kernelOffset) (2 * kernelOffset + 1).

(** Both loops over the kernel; the result is the final [cancel]. *)
Definition scan_pixel (T : Z) (src : IPLImagePlane) (kernel : list bool)
  (kernelOffset x y : Z) : option bool :=
  s ← for_until cancel
        (λ ky, for_until cancel (scan_cell T src kernel x y ky)
                 (kernel_range kernelOffset))
        (kernel_range kernelOffset) (ScanState false 0);
  Some (cancel s).

(** ** The store *)

Definition loc := positive.

(** The planes in memory, and the state [St] the progress callback acts
    on. *)
Record state (St : Type) := State {
  heap : gmap loc IPLImagePlane;
  sink : St
}.
Arguments State {St} _ _.
Arguments heap {St} _.
Arguments sink {St} _.

Section Morphology.
Context {St : Type}.

(** [std::swap(a, b)] on two planes. *)
Definition swap (a b : loc) (σ : state St) : option (state St) :=
  A ← heap σ !! a;
  B ← heap σ !! b;
  Some (State (<[a:=B]> (<[b:=A]> (heap σ))) (sink σ)).

(** ** applyMorphology (lines 58 to 95) *)

(** Lines 70 to 88: one pixel of the destination. *)
Definition pixel_body (T F : Z) (kernel : list bool) (kernelOffset : Z)
  (src dst : loc) (y x : Z) (σ : state St) : option (state St) :=
  X ← heap σ !! src;
  D ← heap σ !! dst;
  c ← scan_pixel T X kernel kernelOffset x y;
  D' ← set_p D x y (if c : bool then T else F);
  Some (State (<[dst:=D']> (heap σ)) (sink σ)).

(** Lines 68 to 90: one row, then the progress callback. *)
Definition row_body (T F : Z) (progressCallback : St → St) (kernel : list bool)
  (kernelOffset : Z) (src dst : loc) (y : Z) (σ : state St) : option (state St) :=
  X ← heap σ !! src;
  σ' ← for_each (pixel_body T F kernel kernelOffset src dst y)
         (seqZ 0 (width X)) σ;
  Some (State (heap σ') (progressCallback (sink σ'))).

(** Lines 66 to 92: one iteration and the exchange.  The rows are taken in
    the order of the loop; under [#pragma omp parallel for] they may run in
    any order, which changes no pixel, since a row reads [src] and writes
    its own pixels of [dst] only.  It does change the order of the progress
    reports: these are modelled with [worker_step] below. *)
Definition iteration_body (T F : Z) (progressCallback : St → St)
  (kernel : list bool) (kernelOffset : Z) (src dst : loc) (i : Z)
  (σ : state St) : option (state St) :=
  X ← heap σ !! src;
  σ' ← for_each (row_body T F progressCallback kernel kernelOffset src dst)
         (seqZ 0 (height X)) σ;
  swap src dst σ'.

Definition applyMorphology (T F : Z) (src dst : loc) (iterations : Z)
  (kernel : list bool) (progressCallback : St → St) (σ : state St)
  : option (state St) :=
  let kernelOffset := kernel_offset kernel in
  σ' ← for_each
         (iteration_body T F progressCallback kernel kernelOffset src dst)
         (seqZ 0 iterations) σ;
  swap src dst σ'.

(** ** dilate, erode, open, close (lines 97 to 127) *)

(** [IPLImagePlane input(src)]: a local plane, a copy of [src]. *)
Definition copy_plane (src : loc) (σ : state St) : option (loc * state St) :=
  X ← heap σ !! src;
  let input := fresh (dom (heap σ)) in
  Some (input, State (<[input:=X]> (heap σ)) (sink σ)).

(** The end of the scope of a local plane. *)
Definition drop_plane (l : loc) (σ : state St) : state St :=
  State (delete l (heap σ)) (sink σ).

Definition dilate (src dst : loc) (iterations : Z) (kernel : list bool)
  (progressCallback : St → St) (σ : state St) : option (state St) :=
  '(input, σ0) ← copy_plane src σ;
  σ1 ← applyMorphology 1 0 input dst iterations kernel progressCallback σ0;
  Some (drop_plane input σ1).

Definition erode (src dst : loc) (iterations : Z) (kernel : list bool)
  (progressCallback : St → St) (σ : state St) : option (state St) :=
  '(input, σ0) ← copy_plane src σ;
  σ1 ← applyMorphology 0 1 input dst iterations kernel progressCallback σ0;
  Some (drop_plane input σ1).

Definition open (src dst : loc) (iterations : Z) (kernel : list bool)
  (progressCallback : St → St) (σ : state St) : option (state St) :=
  '(input, σ0) ← copy_plane src σ;
  σ1 ← erode input dst iterations kernel progressCallback σ0;
  σ2 ← swap input dst σ1;
  σ3 ← dilate input dst iterations kernel progressCallback σ2;
  Some (drop_plane input σ3).

Definition close (src dst : loc) (iterations : Z) (kernel : list bool)
  (progressCallback : St → St) (σ : state St) : option (state St) :=
  '(input, σ0) ← copy_plane src σ;
  σ1 ← dilate input dst iterations kernel progressCallback σ0;
  σ2 ← swap input dst σ1;
  σ3 ← erode input dst iterations kernel progressCallback σ2;
  Some (drop_plane input σ3).

End Morphology.

(** ** IPLMorphologyBinary::processInputData (lines 130 to 194) *)

(** What the progress event handler has been told, with the counter
    [progress] of line 168.  The fraction is a float in the source; this
    sink keeps the exact quotient, which the planes and the value returned
    do not depend on.  The floats the handler is called with are
    [fraction] below. *)
Record progress_sink := Sink {
  progress : Z;
  reported : list Q
}.

(** The lambda of lines 171 to 173; what is recorded is the value of the
    argument of [notifyProgressEventHandler]. *)
Definition updateProgress (totalLines : Z) (s : progress_sink) : progress_sink :=
  let n := progress s + 1 in
  Sink n (reported s ++ [(100 * inject_Z n / inject_Z totalLines)%Q]).

(** The enumeration of lines 154 to 160. *)
Definition DILATE : Z := 0.
Definition ERODE : Z := 1.
Definition OPEN : Z := 2.
Definition CLOSE : Z := 3.

(** What a call leaves behind: the value returned, the member [_result]
    (the plane of the result image), the planes in memory and the fractions
    reported in the order they were reported. *)
Record outcome := Outcome {
  returned : bool;
  result : loc;
  planes : gmap loc IPLImagePlane;
  fractions : list Q
}.

Section Process.

(** Modelled from the spec: the constructor of IPLImage (IPLImage.h is not
    among the sources) gives a raster of the dimensions asked for; nothing
    is said about the pixels of a new plane, so they are left open. *)
Variable new_pixels : Z → Z → list Z.

(** [_result] is the result image of the previous call, if any, and [image]
    the input image; a black-and-white image is its plane 0.  The three
    properties are the values [getProcessPropertyVectorInt] and
    [getProcessPropertyInt] return. *)
Definition processInputData (_result : option loc) (image : loc)
  (kernel_property : list Z) (iterations_property operation_property : Z)
  (h : gmap loc IPLImagePlane) : option outcome :=
  let h := match _result with Some r => delete r h | None => h end in
  X ← h !! image;
  let width := width X in
  let height := height X in
  let _result := fresh (dom h) in
  let h := <[_result := Plane width height (new_pixels width height)]> h in
  let _kernel := kernel_property in
  let _iterations := iterations_property in
  let _operation := operation_property in
  let kernel := (λ i, bool_decide (0 < i)) <$> _kernel in
  let σ := State h (Sink 0 []) in
  let totalLines := height * _iterations in
  σ' ←
    (if bool_decide (_operation = DILATE) then
       dilate image _result _iterations kernel (updateProgress totalLines) σ
     else if bool_decide (_operation = ERODE) then
       erode image _result _iterations kernel (updateProgress totalLines) σ
     else if bool_decide (_operation = OPEN) then
       let totalLines := totalLines * 2 in
       open image _result _iterations kernel (updateProgress totalLines) σ
     else if bool_decide (_operation = CLOSE) then
       let totalLines := totalLines * 2 in
       close image _result _iterations kernel (updateProgress totalLines) σ
     else Some σ);
  Some (Outcome true _result (heap σ') (reported (sink σ'))).

End Process.

(** ** One generation as a function of the source plane

    The planes [applyMorphology] leaves in memory are stated with these
    functions: the pixel line 88 stores, a row of them, a whole
    generation, and [n] generations in a row. *)

Definition new_pixel (T F : Z) (kernel : list bool) (X : IPLImagePlane)
  (y x : Z) : option Z :=
  c ← scan_pixel T X kernel (kernel_offset kernel) x y;
  Some (if c : bool then T else F).

Definition new_row (T F : Z) (kernel : list bool) (X : IPLImagePlane) (y : Z)
  : option (list Z) :=
  mapM (new_pixel T F kernel X y) (seqZ 0 (width X)).

Definition generation (T F : Z) (kernel : list bool) (X : IPLImagePlane)
  : option IPLImagePlane :=
  rows ← mapM (new_row T F kernel X) (seqZ 0 (height X));
  Some (Plane (width X) (height X) (concat rows)).

Fixpoint generations (T F : Z) (kernel : list bool) (n : nat) (X : IPLImagePlane)
  : option IPLImagePlane :=
  match n with
  | O => Some X
  | S n' => Y ← generation T F kernel X; generations T F kernel n' Y
  end.

(** ** Structuring elements *)

(** The kernel has a flag for every cell of the window the scan visits:
    its length is at least (2 * kernelOffset + 1)^2.  Every kernel of odd
    side is of this kind. *)
Definition kernel_fits (kernel : list bool) : Prop :=
  (2 * kernel_offset kernel + 1) * (2 * kernel_offset kernel + 1)
  ≤ Z.of_nat (length kernel).

(** The square kernel of side 2 * k + 1 with every cell active. *)
Definition full_kernel (k : nat) : list bool :=
  replicate ((2 * k + 1) * (2 * k + 1)) true.

(** Cell (kx, ky) of the window of pixel (x, y) lies inside the raster and
    holds [T] there. *)
Definition hit (T : Z) (X : IPLImagePlane) (x y ky kx : Z) : bool :=
  bool_decide (0 ≤ x + kx < width X ∧ 0 ≤ y + ky < height X
               ∧ p X (x + kx) (y + ky) = Some T).

(** ** What a call leaves in memory *)

(** The plane at [l] when the call returns. *)
Definition plane_after {St : Type} (l : loc) (r : option (state St))
  : option IPLImagePlane :=
  σ' ← r; heap σ' !! l.

(** A call started in [σ] with destination [dst] keeps every plane but the
    destination, the source plane [src] among them, and leaves no local
    plane behind. *)
Definition keeps_source {St : Type} (src dst : loc) (σ : state St)
  (r : option (state St)) : Prop :=
  ∀ σ', r = Some σ' →
    heap σ' !! src = heap σ !! src
    ∧ ∀ l, l ≠ dst → heap σ' !! l = heap σ !! l.

(** ** Concrete rasters and kernels *)

(** The default kernel of [init] (lines 15 to 24): only the centre cell of
    a 3 x 3 kernel is active. *)
Definition identity_kernel : list bool :=
  [false; false; false; false; true; false; false; false; false].

(** A 3 x 3 kernel whose only active cell is the first one, the cell of the
    offset (-1, -1). *)
Definition corner_kernel : list bool :=
  [true; false; false; false; false; false; false; false; false].

(** A 3 x 3 kernel with the centre cell and the cell to its right. *)
Definition right_kernel : list bool :=
  [false; false; false; false; true; true; false; false; false].

(** A 3 x 3 raster whose only foreground pixel is (0, 0). *)
Definition corner_raster : IPLImagePlane :=
  Plane 3 3 [1; 0; 0;
             0; 0; 0;
             0; 0; 0].

(** A 3 x 3 raster of background. *)
Definition empty_raster : IPLImagePlane :=
  Plane 3 3 [0; 0; 0;
             0; 0; 0;
             0; 0; 0].

(** The raster of scenario A: 5 x 5, only (2, 2) is foreground. *)
Definition speck_raster : IPLImagePlane :=
  Plane 5 5 [0; 0; 0; 0; 0;
             0; 0; 0; 0; 0;
             0; 0; 1; 0; 0;
             0; 0; 0; 0; 0;
             0; 0; 0; 0; 0].

(** The 3 x 3 block around (2, 2). *)
Definition block_raster : IPLImagePlane :=
  Plane 5 5 [0; 0; 0; 0; 0;
             0; 1; 1; 1; 0;
             0; 1; 1; 1; 0;
             0; 1; 1; 1; 0;
             0; 0; 0; 0; 0].

(** A store with a source plane at 1 and a destination plane at 2. *)
Definition two_planes (X D : IPLImagePlane) : state nat :=
  State (<[1%positive:=X]> (<[2%positive:=D]> ∅)) 0%nat.

(** New planes filled with background. *)
Definition background_pixels (w h : Z) : list Z := replicate (Z.to_nat (w * h)) 0.

(** What the caller sees of a call of [processInputData]: the value
    returned, the plane of the result image and the fractions reported. *)
Definition observed (r : option outcome)
  : option (bool * option IPLImagePlane * list Q) :=
  o ← r; Some (returned o, planes o !! result o, fractions o).

(** Pixel (x', y') is a pixel of the raster of width [w] and height [h]
    at most [k] columns and [k] rows away from (x, y): a neighbour the scan
    of a kernel of offset [k] visits at (x, y). *)
Definition near (k w h x y x' y' : Z) : Prop :=
  0 ≤ x' < w ∧ 0 ≤ y' < h ∧ - k ≤ x' - x ≤ k ∧ - k ≤ y' - y ≤ k.

(** [Y] is the generation of [X] under a kernel of offset [k] whose cells
    are all active: a pixel of [Y] is [T] when a neighbour in [X] is [T],
    and [F] when none is. *)
Definition full_generation (T F k : Z) (X Y : IPLImagePlane) : Prop :=
  raster Y ∧ compatible Y X
  ∧ ∀ x y, 0 ≤ x < width X → 0 ≤ y < height X →
      (p Y x y = Some T
       ∧ ∃ x' y', near k (width X) (height X) x y x' y' ∧ p X x' y' = Some T)
      ∨ (p Y x y = Some F
         ∧ ¬ ∃ x' y', near k (width X) (height X) x y x' y'
                      ∧ p X x' y' = Some T).

(** [splice o vs l]: the buffer [l] after the values [vs] were stored at the
    positions o, o + 1, ... *)
Definition splice (o : nat) (vs l : list Z) : list Z :=
  take o l ++ vs ++ drop (o + length vs) l.

(** ** The cells a scan visits *)

(** The pixels of row y + ky the inner loop reads, in the order it reads
    them: the columns x + kx that lie inside the raster. *)
Definition row_visited (X : IPLImagePlane) (x y ky : Z) (kxs : list Z)
  : list (Z * Z) :=
  kx ← kxs;
  if bool_decide (0 ≤ x + kx < width X ∧ 0 ≤ y + ky < height X)
  then [(x + kx, y + ky)] else [].

(** The pixels the scan of (x, y) reads with a kernel of offset [k], in the
    order it reads them. *)
Definition visited (X : IPLImagePlane) (k x y : Z) : list (Z * Z) :=
  ky ← kernel_range k; row_visited X x y ky (kernel_range k).

(** The scan over the pixels it reads: flag [i] goes with the first of
    them, flag [i + 1] with the next, until a pixel that holds [T] under an
    active flag. *)
Fixpoint walk (T : Z) (X : IPLImagePlane) (kernel : list bool) (i : nat)
  (cells : list (Z * Z)) : option scan_state :=
  match cells with
  | [] => Some (ScanState false i)
  | c :: cells' =>
      v ← p X c.1 c.2;
      mask ← kernel !! i;
      if mask && bool_decide (v = T) then Some (ScanState true (S i))
      else walk T X kernel (S i) cells'
  end.

(** Flag j is active and the j-th pixel read holds [T], for some j. *)
Definition flagged (T : Z) (X : IPLImagePlane) (kernel : list bool)
  (cells : list (Z * Z)) : bool :=
  existsb (λ mc, mc.1 && bool_decide (p X mc.2.1 mc.2.2 = Some T))
    (zip kernel cells).

(** ** One call on a source plane *)

(** The plane [f] leaves in the destination when it is called on a store
    with the source [X] at 1 and a destination buffer at 2, with a callback
    that does nothing. *)
Definition run
  (f : loc → loc → Z → list bool → (unit → unit) → state unit
       → option (state unit))
  (iterations : Z) (kernel : list bool) (X : IPLImagePlane)
  : option IPLImagePlane :=
  plane_after 2%positive
    (f 1%positive 2%positive iterations kernel id
       (State (<[1%positive:=X]> (<[2%positive:=X]> ∅)) ())).

(** Every foreground pixel of [X] is foreground in [Y], and every
    background pixel of [Y] is background in [X]. *)
Definition included (X Y : IPLImagePlane) : Prop :=
  compatible X Y
  ∧ ∀ x y, 0 ≤ x < width X → 0 ≤ y < height X →
      (p X x y = Some 1 → p Y x y = Some 1)
      ∧ (p Y x y = Some 0 → p X x y = Some 0).

(** Pixel-wise union of the foreground of two planes. *)
Definition plane_union (X Y : IPLImagePlane) : IPLImagePlane :=
  Plane (width X) (height X) (zip_with Z.max (pixels X) (pixels Y)).

(** Pixel-wise intersection of the foreground of two planes. *)
Definition plane_intersection (X Y : IPLImagePlane) : IPLImagePlane :=
  Plane (width X) (height X) (zip_with Z.min (pixels X) (pixels Y)).
(** ** Kernel cells by offset *)

(** The flag the kernel of offset [k] holds for the cell of offset
    (kx, ky), the cells lying row by row. *)
Definition flag_at (kernel : list bool) (k ky kx : Z) : option bool :=
  kernel !! Z.to_nat ((ky + k) * (2 * k + 1) + (kx + k)).

(** Some active cell of the kernel lies over a pixel that holds [T] when
    the centre of the kernel is at (x, y). *)
Definition covers (T : Z) (kernel : list bool) (k : Z) (X : IPLImagePlane)
  (x y : Z) : Prop :=
  ∃ ky kx, - k ≤ ky ≤ k ∧ - k ≤ kx ≤ k
           ∧ flag_at kernel k ky kx = Some true
           ∧ p X (x + kx) (y + ky) = Some T.

(** A plane that holds [v] everywhere. *)
Definition constant_plane (w h v : Z) : IPLImagePlane :=
  Plane w h (replicate (Z.to_nat (w * h)) v).

(** The two planes hold [T] at the same pixels. *)
Definition same_at (T : Z) (X Y : IPLImagePlane) : Prop :=
  compatible X Y
  ∧ ∀ x y, 0 ≤ x < width X → 0 ≤ y < height X →
      (p X x y = Some T ↔ p Y x y = Some T).

(** ** The progress reports in single precision and with several workers

    The fraction of line 172 is a [float], and the rows of a pass run
    under [#pragma omp parallel for] (line 65): a worker that has finished
    the pixels of a row increments the counter, which is atomic, and then
    passes the fraction to [notifyProgressEventHandler], which is not part
    of the increment.  [updateProgress] and [iteration_body] above keep
    the exact quotient and the order of the loop; the definitions below
    keep the float and the workers, and are the ones the order and the
    values of the reports are stated with. *)

(** [(float) n] for an [int]: the nearest number of IEEE 754 binary32
    (24 bits of precision, exponents below 128), ties to even. *)
Definition to_float (n : Z) : spec_float := binary_normalize 24 128 n 0 false.

(** The argument of [notifyProgressEventHandler] at line 172 for the value
    [n] of [++progress]: [100 * ((float) n) / totalLines], where 100 and
    [totalLines] are converted to [float], and the product and the
    quotient are each rounded to binary32. *)
Definition fraction (totalLines n : Z) : spec_float :=
  SFdiv 24 128 (SFmul 24 128 (to_float 100) (to_float n)) (to_float totalLines).


(** One pass over the rows (lines 65 to 91) by a team of workers:
    [counter] is [progress], [in_flight] holds the values workers have
    taken from the counter and not yet reported, [told] the arguments
    [notifyProgressEventHandler] has been called with, in the order of the
    calls, and [rows_left] the number of rows whose callback has not
    begun. *)
Record workers_state := Workers {
  counter : Z;
  in_flight : list Z;
  told : list spec_float;
  rows_left : nat
}.

(** A worker that holds no value finishes a row and increments the counter
    ([++progress], atomic), or a worker that holds a value reports its
    fraction.  At most [workers] values are held at a time. *)
Inductive worker_step (workers : nat) (totalLines : Z)
  : workers_state → workers_state → Prop :=
  | step_increment c held log rows :
      (length held < workers)%nat →
      worker_step workers totalLines
        (Workers c held log (S rows))
        (Workers (c + 1) (held ++ [c + 1]) log rows)
  | step_report c held1 n held2 log rows :
      worker_step workers totalLines
        (Workers c (held1 ++ n :: held2) log rows)
        (Workers c (held1 ++ held2) (log ++ [fraction totalLines n]) rows).

(** A pass ends when every row has been counted and every value reported:
    the workers meet at the end of the parallel loop before the planes are
    exchanged (line 92). *)
Definition pass (workers : nat) (totalLines : Z) (rows : nat)
  (c : Z) (log : list spec_float) (c' : Z) (log' : list spec_float) : Prop :=
  rtc (worker_step workers totalLines) (Workers c [] log rows) (Workers c' [] log' 0).

(** [n] passes one after the other: the iterations of line 62, for each of
    the stages of an operation. *)
Fixpoint passes (workers : nat) (totalLines : Z) (rows n : nat)
  (c : Z) (log : list spec_float) (c' : Z) (log' : list spec_float) : Prop :=
  match n with
  | O => c' = c ∧ log' = log
  | S n' => ∃ c1 log1, pass workers totalLines rows c log c1 log1
                       ∧ passes workers totalLines rows n' c1 log1 c' log'
  end.

(** The stages of an operation (lines 175 to 191): one call of
    [applyMorphology] for Dilate and Erode, two for Open and Close, none
    for a selector outside the enumeration. *)
Definition pass_count (operation : Z) : Z :=
  if bool_decide (operation = DILATE) then 1
  else if bool_decide (operation = ERODE) then 1
  else if bool_decide (operation = OPEN) then 2
  else if bool_decide (operation = CLOSE) then 2
  else 0.

(** [reports] is a sequence of fractions a call of [processInputData] that
    returns may pass to [notifyProgressEventHandler], in the order of the
    calls, when teams of [workers] workers run the rows.  [totalLines] is
    the value of lines 169, 184 and 188; every stage makes [_iterations]
    passes over the [height] rows of the image; the counter starts at 0
    (line 168). *)
Definition may_report (workers : nat) (new_pixels : Z → Z → list Z)
  (_result : option loc) (image : loc) (kernel_property : list Z)
  (iterations_property operation_property : Z) (h : gmap loc IPLImagePlane)
  (reports : list spec_float) : Prop :=
  ∃ o X c,
    processInputData new_pixels _result image kernel_property
      iterations_property operation_property h = Some o
    ∧ h !! image = Some X
    ∧ passes workers (height X * iterations_property * pass_count operation_property)
        (Z.to_nat (height X))
        (Z.to_nat (iterations_property * pass_count operation_property))
        0 [] c reports.

(** What holds of a pass on its way: the counter has counted the rows
    whose callback has begun, and the fractions reported together with
    those of the values still held are the fractions of the values
    counted, in some order. *)
Definition on_the_way (totalLines : Z) (rows : nat) (c0 : Z)
  (log0 : list spec_float) (s : workers_state) : Prop :=
  (rows_left s ≤ rows)%nat
  ∧ counter s = c0 + Z.of_nat (rows - rows_left s)
  ∧ ∃ log, told s = log0 ++ log
           ∧ log ++ (fraction totalLines <$> in_flight s)
             ≡ₚ fraction totalLines
                  <$> seqZ (c0 + 1) (Z.of_nat (rows - rows_left s)).






(** ** The process object *)

Module IPLMorphologyBinary.

(** The members of the class the two methods use. *)
Record members := Members {
  _result : option loc;
  _kernel : list Z;
  _operation : Z;
  _iterations : Z
}.

(** [init] (lines 5 to 39): no result image, the 3 x 3 kernel with the
    centre cell only, operation 0 and one iteration.  The three values are
    also the ones the properties are registered with (lines 34 to 38). *)
Definition init : members :=
  Members None ((λ i, if bool_decide (i = 4) then 1 else 0) <$> seqZ 0 9) 0 1.

(** [destroy] (lines 41 to 44): [delete _result].  Deleting a null pointer
    does nothing; deleting an image that is no longer in memory has no
    defined result.  The member keeps its value. *)
Definition destroy (this : members) (h : gmap loc IPLImagePlane)
  : option (gmap loc IPLImagePlane) :=
  match _result this with
  | None => Some h
  | Some r => _ ← h !! r; Some (delete r h)
  end.

(** [getResultData] (lines 196 to 199). *)
Definition getResultData (this : members) : option loc := _result this.

Section Calls.
Variable new_pixels : Z → Z → list Z.

(** [processInputData] as a method: the call on the member [_result], and
    the members as lines 142 and 146 to 148 leave them. *)
Definition processInputData (this : members) (image : loc)
  (kernel_property : list Z) (iterations_property operation_property : Z)
  (h : gmap loc IPLImagePlane) : option (members * outcome) :=
  o ← processInputData new_pixels (_result this) image kernel_property
         iterations_property operation_property h;
  Some (Members (Some (result o)) kernel_property operation_property
          iterations_property, o).

(** One request: the input image and the values of the three properties. *)
Record request := Request {
  image : loc;
  kernel_property : list Z;
  iterations_property : Z;
  operation_property : Z
}.

(** A series of calls of [processInputData] on the same object. *)
Fixpoint calls (reqs : list request) (this : members)
  (h : gmap loc IPLImagePlane) : option (members * gmap loc IPLImagePlane) :=
  match reqs with
  | [] => Some (this, h)
  | r :: reqs' =>
      '(this', o) ← processInputData this (image r) (kernel_property r)
                      (iterations_property r) (operation_property r) h;
      calls reqs' this' (planes o)
  end.

End Calls.
End IPLMorphologyBinary.

(** The object owns at most one plane beyond the planes of [h]: the result
    of its last call. *)
Definition owns_result (h : gmap loc IPLImagePlane)
  (this : IPLMorphologyBinary.members) (h' : gmap loc IPLImagePlane) : Prop :=
  match IPLMorphologyBinary._result this with
  | None => h' = h
  | Some r => h !! r = None ∧ ∃ Y, h' = <[r:=Y]> h
  end.

(** Every request names a raster of the store [h]. *)
Definition requests_in (h : gmap loc IPLImagePlane)
  (reqs : list IPLMorphologyBinary.request) : Prop :=
  Forall (λ r, ∃ X, h !! IPLMorphologyBinary.image r = Some X ∧ raster X) reqs.

(** * Camera calibration (IPL/src/processes/IPLCameraCalibration.cpp) *)

Module IPLCameraCalibration.

(** What the process uses of OpenCV, of the image class and of the float
    and double arithmetic of the machine.  Nothing is assumed of these
    operations but that a call returns a value; what a call writes to a
    reference argument is part of this value.  A [cv::Mat] made of a
    vector of points is this vector, and the flags are integers.  An [int]
    is an integer: the counters of this file stay far from the ends of the
    type. *)
Class OpenCV := {
  Mat : Type;
  IPLImage : Type;
  float : Type;
  double : Type;
  float_of_int : Z → float;
  fmul : float → float → float;
  double_of_int : Z → double;
  float_of_double : double → float;
  double_of_float : float → double;
  dadd : double → double → double;
  dmul : double → double → double;
  ddiv : double → double → double;
  dsqrt : double → double;
  image_width : IPLImage → Z;
  image_height : IPLImage → Z;
  toCvMat : IPLImage → Mat;
  fromCvMat : Mat → IPLImage;
  eye : Z → Z → Mat;
  zeros : Z → Z → Mat;
  set_at : Mat → Z → Z → double → Mat;
  cvtColor_BGR2GRAY : Mat → Mat;
  findChessboardCorners : Mat → Z * Z → Z → bool * list (float * float);
  findCirclesGrid : Mat → Z * Z → Z → bool * list (float * float);
  cornerSubPix : Mat → list (float * float) → list (float * float);
  drawChessboardCorners : Mat → Z * Z → list (float * float) → bool → Mat;
  calibrateCamera :
    list (list (float * float * float)) → list (list (float * float)) →
    Z * Z → Mat → Mat → Z → double * Mat * Mat * list Mat * list Mat;
  checkRange : Mat → bool;
  projectPoints :
    list (float * float * float) → Mat → Mat → Mat → Mat →
    list (float * float);
  norm_L2 : list (float * float) → list (float * float) → double;
  CALIB_CB_ADAPTIVE_THRESH : Z;
  CALIB_CB_FAST_CHECK : Z;
  CALIB_CB_NORMALIZE_IMAGE : Z;
  CALIB_CB_SYMMETRIC_GRID : Z;
  CALIB_CB_ASYMMETRIC_GRID : Z;
  CALIB_FIX_ASPECT_RATIO : Z;
  CALIB_FIX_K4 : Z;
  CALIB_FIX_K5 : Z
}.

(** Points of the image, points of the board, and sizes (width first, as
    the constructor of [cv::Size] takes them). *)
Abbreviation Point2f := (float * float)%type.
Abbreviation Point3f := (float * float * float)%type.
Abbreviation Size := (Z * Z)%type.

(** The calibration patterns; a value cast from an integer that names none
    of them is [no_pattern]. *)
Inductive Pattern :=
  | CHESSBOARD
  | CIRCLES_GRID
  | ASYMMETRIC_CIRCLES_GRID
  | no_pattern (n : Z).

Global Instance Pattern_eq_dec : EqDecision Pattern.
Proof. solve_decision. Defined.

(** [(Pattern) targetType] (line 166), with the numbering of the comments
    of lines 129 to 135. *)
Definition to_Pattern (targetType : Z) : Pattern :=
  if bool_decide (targetType = 0) then CHESSBOARD
  else if bool_decide (targetType = 1) then CIRCLES_GRID
  else if bool_decide (targetType = 2) then ASYMMETRIC_CIRCLES_GRID
  else no_pattern targetType.

(** The three modes of the process. *)
Inductive Mode := DETECTION | CALIBRATION | CALIBRATED.

Global Instance Mode_eq_dec : EqDecision Mode.
Proof. solve_decision. Defined.

(** The order of the modes. *)
Definition mode_rank (m : Mode) : Z :=
  match m with DETECTION => 0 | CALIBRATION => 1 | CALIBRATED => 2 end.

Section Calibration.
Context {cv : OpenCV}.

(** What is written to a message stream. *)
Inductive piece :=
  | Str (s : string)
  | Int (n : Z)
  | Double (d : double)
  | Enum (m : Mode).

(** The messages of the process, by the function that adds them. *)
Inductive message :=
  | addSuccess (text : list piece)
  | addInformation (text : list piece)
  | addError (text : list piece).

(** The members of the process, the messages it holds and the values it
    has passed to [notifyProgressEventHandler]. *)
Record object := Object {
  _image : option IPLImage;
  _preview : option IPLImage;
  _mode : Mode;
  _frameCounter : Z;
  _imagePoints : list (list Point2f);
  messages : list message;
  notified : list Z
}.

(** [init] (lines 22 to 48) sets three members; the others stay. *)
Definition init (this : object) : object :=
  Object (_image this) None DETECTION 0 (_imagePoints this)
    (messages this) (notified this).

(** [getResultData] (lines 184 to 187). *)
Definition getResultData (this : object) : option IPLImage := _preview this.

(** [calcChessboardCorners] (lines 220 to 239): the corners of the board
    row by row. *)
Definition calcChessboardCorners (boardSize : Size) (squareSize : float)
  (patternType : Pattern) : list Point3f :=
  match patternType with
  | CHESSBOARD | CIRCLES_GRID =>
      i ← seqZ 0 boardSize.2;
      j ← seqZ 0 boardSize.1;
      [(fmul (float_of_int j) squareSize,
        fmul (float_of_int i) squareSize,
        float_of_int 0)]
  | ASYMMETRIC_CIRCLES_GRID =>
      i ← seqZ 0 boardSize.2;
      j ← seqZ 0 boardSize.1;
      [(fmul (float_of_int (2 * j + i `rem` 2)) squareSize,
        fmul (float_of_int i) squareSize,
        float_of_int 0)]
  | no_pattern _ => []
  end.

(** The state of the loop of [computeReprojectionErrors]. *)
Record errors := Errors {
  imagePoints2 : list Point2f;
  totalPoints : Z;
  totalErr : double;
  viewErrors : list float
}.

(** [v.resize(n)] for a vector of floats. *)
Definition resize {A : Type} (n : nat) (x : A) (v : list A) : list A :=
  take n v ++ replicate (n - length v) x.

(** The body of the loop of lines 253 to 262; an index past the end of a
    vector has no defined result.  [projectPoints] and [norm_L2] are
    operations of [OpenCV], which are taken to return: that [cv::norm]
    raises when the two vectors of points differ in length (line 257) is
    outside the embedding. *)
Definition view_error (objectPoints : list (list Point3f))
  (imagePoints : list (list Point2f)) (rvecs tvecs : list Mat)
  (cameraMatrix distCoeffs : Mat) (i : nat) (s : errors) : option errors :=
  object_i ← objectPoints !! i;
  rvec ← rvecs !! i;
  tvec ← tvecs !! i;
  let imagePoints2 :=
    projectPoints object_i rvec tvec cameraMatrix distCoeffs in
  image_i ← imagePoints !! i;
  let err := norm_L2 image_i imagePoints2 in
  let n := Z.of_nat (length object_i) in
  _ ← viewErrors s !! i;
  Some (Errors imagePoints2 (totalPoints s + n)
          (dadd (totalErr s) (dmul err err))
          (<[i := float_of_double
                    (dsqrt (ddiv (dmul err err) (double_of_int n)))]>
             (viewErrors s))).

(** [computeReprojectionErrors] (lines 241 to 265): the value returned and
    the errors by view. *)
Definition computeReprojectionErrors (objectPoints : list (list Point3f))
  (imagePoints : list (list Point2f)) (rvecs tvecs : list Mat)
  (cameraMatrix distCoeffs : Mat) (perViewErrors : list float)
  : option (double * list float) :=
  let perViewErrors :=
    resize (length objectPoints) (float_of_int 0) perViewErrors in
  s ← for_each
         (view_error objectPoints imagePoints rvecs tvecs cameraMatrix
            distCoeffs)
         (seq 0 (length objectPoints))
         (Errors [] 0 (double_of_int 0) perViewErrors);
  Some (dsqrt (ddiv (totalErr s) (double_of_int (totalPoints s))),
        viewErrors s).

(** What [runCalibration] leaves in its reference arguments. *)
Record calibration := Calibration {
  cameraMatrix : Mat;
  distCoeffs : Mat;
  rvecs : list Mat;
  tvecs : list Mat;
  reprojErrs : list float;
  totalAvgErr : double
}.

(** The object points [runCalibration] passes on (lines 203 to 206): the
    corners of the board, once for every view. *)
Definition board_views (boardSize : Size) (squareSize : float)
  (patternType : Pattern) (views : nat) : list (list Point3f) :=
  resize views (calcChessboardCorners boardSize squareSize patternType)
    [calcChessboardCorners boardSize squareSize patternType].

(** [runCalibration] (lines 189 to 218): the value returned and the
    reference arguments. *)
Definition runCalibration (imagePoints : list (list Point2f))
  (imageSize boardSize : Size) (patternType : Pattern)
  (squareSize aspectRatio : float) (flags : Z) (reprojErrs : list float)
  : option (bool * calibration) :=
  let cameraMatrix := eye 3 3 in
  let cameraMatrix :=
    if bool_decide (Z.land flags CALIB_FIX_ASPECT_RATIO ≠ 0)
    then set_at cameraMatrix 0 0 (double_of_float aspectRatio)
    else cameraMatrix in
  let distCoeffs := zeros 8 1 in
  let objectPoints :=
    board_views boardSize squareSize patternType (length imagePoints) in
  let '(rms, cameraMatrix, distCoeffs, rvecs, tvecs) :=
    calibrateCamera objectPoints imagePoints imageSize cameraMatrix distCoeffs
      (Z.lor (Z.lor flags CALIB_FIX_K4) CALIB_FIX_K5) in
  let ok := checkRange cameraMatrix && checkRange distCoeffs in
  '(totalAvgErr, reprojErrs) ←
    computeReprojectionErrors objectPoints imagePoints rvecs tvecs
      cameraMatrix distCoeffs reprojErrs;
  Some (ok, Calibration cameraMatrix distCoeffs rvecs tvecs reprojErrs
              totalAvgErr).

(** The detection of lines 126 to 138: the value of [found] and the points
    written to [pointBuf]; the call of line 133 has the flag that is the
    default of OpenCV.  [found] is not initialised and no case of the
    switch assigns it for another target type, so that the test of line
    141 then reads a variable without a value. *)
Definition find_pattern (input : Mat) (boardSize : Size) (targetType : Z)
  : option (bool * list Point2f) :=
  if bool_decide (targetType = 0) then
    Some (findChessboardCorners input boardSize
            (Z.lor (Z.lor CALIB_CB_ADAPTIVE_THRESH CALIB_CB_FAST_CHECK)
               CALIB_CB_NORMALIZE_IMAGE))
  else if bool_decide (targetType = 1) then
    Some (findCirclesGrid input boardSize CALIB_CB_SYMMETRIC_GRID)
  else if bool_decide (targetType = 2) then
    Some (findCirclesGrid input boardSize CALIB_CB_ASYMMETRIC_GRID)
  else None.

(** The block of lines 124 to 162, entered in mode DETECTION: the image
    drawn on, the image points, the mode and the messages it leaves. *)
Definition detection (input output : Mat) (boardSize : Size) (targetType : Z)
  (imagePoints : list (list Point2f)) (messages : list message)
  : option (Mat * list (list Point2f) * Mode * list message) :=
  '(found, pointBuf) ← find_pattern input boardSize targetType;
  let pointBuf :=
    if found && bool_decide (targetType = 0)
    then cornerSubPix input pointBuf else pointBuf in
  let imagePoints :=
    if found then imagePoints ++ [pointBuf] else imagePoints in
  let output := drawChessboardCorners output boardSize pointBuf found in
  let messages :=
    messages ++ [addInformation [Str "Number of good images: ";
                                 Int (Z.of_nat (length imagePoints))]] in
  let mode :=
    if bool_decide (10 < Z.of_nat (length imagePoints))
    then CALIBRATION else DETECTION in
  Some (output, imagePoints, mode, messages).

(** The block of lines 164 to 176, entered in mode CALIBRATION: the mode
    and the messages it leaves. *)
Definition calibration_attempt (imagePoints : list (list Point2f))
  (imageSize boardSize : Size) (targetType : Z) (messages : list message)
  : option (Mode * list message) :=
  '(result, _) ← runCalibration imagePoints imageSize boardSize
                   (to_Pattern targetType) (float_of_int 1) (float_of_int 1)
                   (Z.lor CALIB_FIX_K4 CALIB_FIX_K5) [];
  Some (if result : bool then (CALIBRATED, messages)
        else (CALIBRATION,
              messages ++ [addError [Str "Unable to calibrate."]])).

(** [processInputData] (lines 71 to 182) on the image [data] with the
    values of the four properties it uses.  The preview is the image the
    pointer [_preview] refers to, and [skipFrames] the [int] of line 80. *)
Definition processInputData (this : object) (data : IPLImage)
  (targetType targetCols targetRows skipFrames : Z)
  : option (bool * object) :=
  let image := data in
  let messages :=
    messages this ++ [addSuccess [Str "MODE: "; Enum (_mode this)]] in
  let notified := notified this ++ [-1] in
  let output := toCvMat image in
  let input := cvtColor_BGR2GRAY (toCvMat image) in
  let boardSize := (targetCols, targetRows) in
  let imageSize := (image_width image, image_height image) in
  let totalAvgErr := double_of_int 0 in
  let messages :=
    if decide (_mode this = CALIBRATED)
    then messages ++ [addInformation [Str "totalAvgErr: "; Double totalAvgErr];
                      addSuccess [Str "Calibration successful."]]
    else messages in
  if bool_decide (_frameCounter this < skipFrames) then
    Some (true,
          Object (Some image) (Some image) (_mode this)
            (_frameCounter this + 1) (_imagePoints this) messages notified)
  else
    let frameCounter := 0 in
    '(output, imagePoints, mode, messages) ←
      (if decide (_mode this = DETECTION)
       then detection input output boardSize targetType (_imagePoints this)
              messages
       else Some (output, _imagePoints this, _mode this, messages));
    '(mode, messages) ←
      (if decide (mode = CALIBRATION)
       then calibration_attempt imagePoints imageSize boardSize targetType
              messages
       else Some (mode, messages));
    Some (true,
          Object (Some image) (Some (fromCvMat output)) mode frameCounter
            imagePoints messages notified).

(** The calibration of [imagePoints] for an image and a board of the given
    sizes returns and reports no success. *)
Definition calibration_fails (imagePoints : list (list Point2f))
  (imageSize boardSize : Size) (targetType : Z) : Prop :=
  ∃ c, runCalibration imagePoints imageSize boardSize (to_Pattern targetType)
         (float_of_int 1) (float_of_int 1) (Z.lor CALIB_FIX_K4 CALIB_FIX_K5) []
       = Some (false, c).

(** One call: the image and the values of the properties. *)
Record frame := Frame {
  data : IPLImage;
  targetType : Z;
  targetCols : Z;
  targetRows : Z;
  skipFrames : Z
}.

(** A series of calls of [processInputData] on the same object. *)
Fixpoint calls (frames : list frame) (this : object) : option object :=
  match frames with
  | [] => Some this
  | f :: frames' =>
      r ← processInputData this (data f) (targetType f) (targetCols f)
             (targetRows f) (skipFrames f);
      calls frames' r.2
  end.

End Calibration.
End IPLCameraCalibration.

(** ** A stand-in for OpenCV

    For runs on concrete frames: an image and a matrix are their sizes, the
    numbers are integers, the pattern is found in every image that has a
    column, and the calibration gives a pose for every view and a camera
    matrix in range for every image that has a row. *)
Definition sample_OpenCV : IPLCameraCalibration.OpenCV := {|
  IPLCameraCalibration.Mat := Z * Z;
  IPLCameraCalibration.IPLImage := Z * Z;
  IPLCameraCalibration.float := Z;
  IPLCameraCalibration.double := Z;
  IPLCameraCalibration.float_of_int := id;
  IPLCameraCalibration.fmul := Z.mul;
  IPLCameraCalibration.double_of_int := id;
  IPLCameraCalibration.float_of_double := id;
  IPLCameraCalibration.double_of_float := id;
  IPLCameraCalibration.dadd := Z.add;
  IPLCameraCalibration.dmul := Z.mul;
  IPLCameraCalibration.ddiv := Z.div;
  IPLCameraCalibration.dsqrt := Z.sqrt;
  IPLCameraCalibration.image_width := fst;
  IPLCameraCalibration.image_height := snd;
  IPLCameraCalibration.toCvMat := id;
  IPLCameraCalibration.fromCvMat := id;
  IPLCameraCalibration.eye := pair;
  IPLCameraCalibration.zeros := pair;
  IPLCameraCalibration.set_at := λ m _ _ _, m;
  IPLCameraCalibration.cvtColor_BGR2GRAY := id;
  IPLCameraCalibration.findChessboardCorners :=
    λ input _ _, (bool_decide (0 < input.1), [(0, 0)]);
  IPLCameraCalibration.findCirclesGrid :=
    λ input _ _, (bool_decide (0 < input.1), [(0, 0)]);
  IPLCameraCalibration.cornerSubPix := λ _ pointBuf, pointBuf;
  IPLCameraCalibration.drawChessboardCorners := λ output _ _ _, output;
  IPLCameraCalibration.calibrateCamera :=
    λ _ imagePoints imageSize cameraMatrix distCoeffs _,
      (0, if bool_decide (0 < imageSize.2) then cameraMatrix else (-1, -1),
       distCoeffs, replicate (length imagePoints) (3, 1),
       replicate (length imagePoints) (3, 1));
  IPLCameraCalibration.checkRange := λ m, bool_decide (0 ≤ m.1);
  IPLCameraCalibration.projectPoints := λ _ _ _ _ _, [];
  IPLCameraCalibration.norm_L2 := λ _ _, 0;
  IPLCameraCalibration.CALIB_CB_ADAPTIVE_THRESH := 1;
  IPLCameraCalibration.CALIB_CB_FAST_CHECK := 8;
  IPLCameraCalibration.CALIB_CB_NORMALIZE_IMAGE := 2;
  IPLCameraCalibration.CALIB_CB_SYMMETRIC_GRID := 1;
  IPLCameraCalibration.CALIB_CB_ASYMMETRIC_GRID := 2;
  IPLCameraCalibration.CALIB_FIX_ASPECT_RATIO := 2;
  IPLCameraCalibration.CALIB_FIX_K4 := 2048;
  IPLCameraCalibration.CALIB_FIX_K5 := 4096
|}.

(** A frame of the given size for a chessboard of 4 x 7 corners. *)
Definition chessboard_frame (w h skipFrames : Z)
  : IPLCameraCalibration.frame (cv:=sample_OpenCV) :=
  IPLCameraCalibration.Frame (cv:=sample_OpenCV) (w, h) 0 4 7 skipFrames.

(** An object after [init], with no view collected. *)
Definition fresh_object : IPLCameraCalibration.object (cv:=sample_OpenCV) :=
  IPLCameraCalibration.init
    (IPLCameraCalibration.Object (cv:=sample_OpenCV) None None
       IPLCameraCalibration.CALIBRATED 7 [] [] []).

(** * Properties *)

(** Two stores built by inserting and deleting planes are equal when they
    agree at every location. *)
Ltac same_store :=
  apply map_eq; intros ?;
  rewrite ?lookup_delete, ?lookup_insert;
  repeat case_decide; congruence.

(** ** Buffers written in index order *)

Lemma splice_nil o l : splice o [] l = l.
Proof.
  unfold splice. simpl. rewrite Nat.add_0_r. apply take_drop.
Qed.

Lemma length_splice o vs l :
  (o + length vs ≤ length l)%nat → length (splice o vs l) = length l.
Proof.
  intros Hle. unfold splice.
  rewrite !length_app, length_take, length_drop. lia.
Qed.

Lemma splice_splice o vs1 vs2 l :
  (o + length vs1 ≤ length l)%nat →
  splice (o + length vs1) vs2 (splice o vs1 l) = splice o (vs1 ++ vs2) l.
Proof.
  intros Hle. unfold splice at 1 3.
  assert (Hto : length (take o l) = o) by (rewrite length_take; lia).
  assert (Htake : take (o + length vs1) (splice o vs1 l) = take o l ++ vs1).
  { unfold splice. rewrite app_assoc. apply take_app_length'.
    rewrite length_app. lia. }
  assert (Hdrop : drop (o + length vs1 + length vs2) (splice o vs1 l)
                  = drop (o + length (vs1 ++ vs2)) l).
  { unfold splice. rewrite app_assoc.
    rewrite (drop_app_add' _ _ (o + length vs1)%nat (length vs2))
      by (rewrite length_app; lia).
    rewrite drop_drop, length_app. f_equal. lia. }
  rewrite Htake, Hdrop. by rewrite <- !app_assoc.
Qed.

Lemma insert_splice o v l :
  (o < length l)%nat → <[o:=v]> l = splice o [v] l.
Proof.
  intros Hlt. unfold splice. simpl.
  rewrite insert_take_drop by done.
  by replace (o + 1)%nat with (S o) by lia.
Qed.

Lemma splice_insert o v vs l :
  (o < length l)%nat →
  splice (S o) vs (<[o:=v]> l) = splice o (v :: vs) l.
Proof.
  intros Hlt. rewrite insert_splice by done.
  replace (S o) with (o + length [v])%nat by (simpl; lia).
  rewrite splice_splice by (simpl; lia). done.
Qed.

Lemma splice_all vs l : length vs = length l → splice 0 vs l = vs.
Proof.
  intros Hlen. unfold splice. simpl.
  rewrite drop_ge by lia. apply app_nil_r.
Qed.

Lemma seqZ_succ m (n : nat) :
  seqZ m (Z.of_nat (S n)) = m :: seqZ (m + 1) (Z.of_nat n).
Proof.
  rewrite seqZ_cons by lia. do 2 f_equal; lia.
Qed.

(** ** The loops of [applyMorphology] against [generation] *)

Lemma set_p_raster D x y v :
  raster D → 0 ≤ x < width D → 0 ≤ y < height D →
  set_p D x y v
  = Some (Plane (width D) (height D)
            (<[Z.to_nat (y * width D + x) := v]> (pixels D))).
Proof.
  intros (Hw & Hh & Hlen) Hx Hy. unfold set_p, pixel_index.
  assert (y * width D + x < width D * height D) by nia.
  rewrite bool_decide_true by nia. simpl.
  destruct (lookup_lt_is_Some_2 (pixels D) (Z.to_nat (y * width D + x)))
    as [u ->]; [lia|done].
Qed.

Lemma raster_splice D o vs :
  raster D → (o + length vs ≤ length (pixels D))%nat →
  raster (Plane (width D) (height D) (splice o vs (pixels D))).
Proof.
  intros (Hw & Hh & Hlen) Hle. repeat split; simpl; try done.
  by rewrite length_splice.
Qed.

Lemma length_new_row T F kernel X y vs :
  new_row T F kernel X y = Some vs → length vs = Z.to_nat (width X).
Proof.
  intros Hvs. apply length_mapM in Hvs. by rewrite length_seqZ in Hvs.
Qed.

Lemma length_concat_rows (rows : list (list Z)) k :
  Forall (λ r, length r = k) rows → length (concat rows) = (length rows * k)%nat.
Proof.
  induction 1 as [|r rows Hr _ IH]; simpl; [done|].
  rewrite length_app, IH, Hr. done.
Qed.

Lemma generation_pixels T F kernel X Y :
  generation T F kernel X = Some Y →
  width Y = width X ∧ height Y = height X
  ∧ length (pixels Y) = (Z.to_nat (height X) * Z.to_nat (width X))%nat.
Proof.
  unfold generation. intros HY.
  destruct (mapM _ _) as [rows|] eqn:Hrows; simplify_eq/=.
  repeat split.
  rewrite (length_concat_rows rows (Z.to_nat (width X))).
  - apply length_mapM in Hrows. rewrite length_seqZ in Hrows.
    by rewrite Hrows.
  - apply mapM_Some in Hrows. apply Forall2_Forall_r with (1 := Hrows).
    apply Forall_forall. intros y _ r Hr. by apply length_new_row in Hr.
Qed.

Lemma generation_raster T F kernel X Y :
  raster X → generation T F kernel X = Some Y → raster Y ∧ compatible Y X.
Proof.
  intros (Hw & Hh & Hlen) HY.
  apply generation_pixels in HY as (HwY & HhY & HlenY).
  unfold raster, compatible. rewrite HlenY, HwY, HhY.
  repeat split; lia.
Qed.

Lemma generations_raster T F kernel n : ∀ X Y,
  raster X → generations T F kernel n X = Some Y → raster Y ∧ compatible Y X.
Proof.
  induction n as [|n IH]; intros X Y HX HY; simpl in HY.
  - by simplify_eq.
  - destruct (generation T F kernel X) as [X1|] eqn:HX1; simplify_eq/=.
    destruct (generation_raster _ _ _ _ _ HX HX1) as (HX1r & Hc1).
    destruct (IH _ _ HX1r HY) as (HYr & Hc).
    split; [done|]. destruct Hc, Hc1. split; congruence.
Qed.

Lemma seqZ_to_nat m n : seqZ m n = seqZ m (Z.of_nat (Z.to_nat n)).
Proof.
  destruct (decide (n ≤ 0)).
  - by rewrite !seqZ_nil by lia.
  - by rewrite Z2Nat.id by lia.
Qed.

Section Loops.
Context {St : Type}.
Implicit Types σ : state St.

Lemma for_each_cons {A S' : Type} (body : A → S' → option S') a l s :
  for_each body (a :: l) s = body a s ≫= for_each body l.
Proof. done. Qed.

Lemma mapM_cons {A B : Type} (f : A → option B) a l :
  mapM f (a :: l) = v ← f a; k ← mapM f l; Some (v :: k).
Proof. done. Qed.

Lemma pixel_body_new_pixel T F kernel src dst X D y x σ :
  heap σ !! src = Some X → heap σ !! dst = Some D →
  raster D → 0 ≤ x < width D → 0 ≤ y < height D →
  pixel_body T F kernel (kernel_offset kernel) src dst y x σ
  = v ← new_pixel T F kernel X y x;
    Some (State
            (<[dst := Plane (width D) (height D)
                        (<[Z.to_nat (y * width D + x) := v]> (pixels D))]>
               (heap σ))
            (sink σ)).
Proof.
  intros Hsrc Hdst HD Hx Hy. unfold pixel_body, new_pixel.
  rewrite Hsrc, Hdst. simpl.
  destruct (scan_pixel T X kernel (kernel_offset kernel) x y) as [c|];
    simpl; [|done].
  by rewrite set_p_raster.
Qed.

Lemma pixels_loop T F kernel src dst X y (n : nat) : ∀ x0 σ D,
  heap σ !! src = Some X → heap σ !! dst = Some D → src ≠ dst →
  raster D → 0 ≤ y < height D → 0 ≤ x0 → x0 + Z.of_nat n ≤ width D →
  for_each (pixel_body T F kernel (kernel_offset kernel) src dst y)
    (seqZ x0 (Z.of_nat n)) σ
  = vs ← mapM (new_pixel T F kernel X y) (seqZ x0 (Z.of_nat n));
    Some (State
            (<[dst := Plane (width D) (height D)
                        (splice (Z.to_nat (y * width D + x0)) vs (pixels D))]>
               (heap σ))
            (sink σ)).
Proof.
  induction n as [|n IH]; intros x0 σ D Hsrc Hdst Hne HD Hy Hx0 Hxn.
  - simpl. rewrite splice_nil. destruct σ as [h s]; simpl in *.
    destruct D; simpl. by rewrite insert_id.
  - rewrite seqZ_succ, for_each_cons.
    rewrite (pixel_body_new_pixel _ _ _ _ _ X D) by (done || lia).
    rewrite mapM_cons.
    destruct (new_pixel T F kernel X y x0) as [v|]; simpl; [|done].
    set (o := Z.to_nat (y * width D + x0)).
    assert (Ho : (o < length (pixels D))%nat).
    { destruct HD as (Hw & Hh & Hlen). rewrite Hlen. unfold o.
      assert (y * width D + x0 < width D * height D) by nia. lia. }
    rewrite (IH (x0 + 1) _ (Plane (width D) (height D) (<[o:=v]> (pixels D))));
      simpl.
    + destruct (mapM _ (seqZ (x0 + 1) (Z.of_nat n))) as [vs|]; simpl; [|done].
      rewrite insert_insert_eq. do 3 f_equal.
      assert (0 ≤ y * width D) by (destruct HD as (Hw & _); nia).
      replace (Z.to_nat (y * width D + (x0 + 1))) with (S o) by (unfold o; lia).
      f_equal. by apply splice_insert.
    + by rewrite lookup_insert_ne.
    + by rewrite lookup_insert_eq.
    + done.
    + destruct HD as (Hw & Hh & Hlen). repeat split; simpl; try done.
      by rewrite length_insert.
    + done.
    + lia.
    + simpl. lia.
Qed.

Lemma row_body_new_row T F cb kernel src dst X D y σ :
  heap σ !! src = Some X → heap σ !! dst = Some D → src ≠ dst →
  raster D → width D = width X → 0 ≤ y < height D →
  row_body T F cb kernel (kernel_offset kernel) src dst y σ
  = vs ← new_row T F kernel X y;
    Some (State
            (<[dst := Plane (width D) (height D)
                        (splice (Z.to_nat (y * width D)) vs (pixels D))]>
               (heap σ))
            (cb (sink σ))).
Proof.
  intros Hsrc Hdst Hne HD Hw Hy. unfold row_body, new_row.
  rewrite Hsrc. simpl.
  assert (0 ≤ width X) by (destruct HD; lia).
  rewrite <- (Z2Nat.id (width X)) by done.
  rewrite (pixels_loop _ _ _ _ _ X y _ 0 σ D) by (done || lia).
  destruct (mapM _ _) as [vs|]; simpl; [|done].
  by rewrite Z.add_0_r.
Qed.

Lemma rows_loop T F cb kernel src dst X (n : nat) : ∀ y0 σ D,
  heap σ !! src = Some X → heap σ !! dst = Some D → src ≠ dst →
  raster D → width D = width X → 0 ≤ y0 → y0 + Z.of_nat n ≤ height D →
  for_each (row_body T F cb kernel (kernel_offset kernel) src dst)
    (seqZ y0 (Z.of_nat n)) σ
  = rows ← mapM (new_row T F kernel X) (seqZ y0 (Z.of_nat n));
    Some (State
            (<[dst := Plane (width D) (height D)
                        (splice (Z.to_nat (y0 * width D)) (concat rows)
                           (pixels D))]>
               (heap σ))
            (Nat.iter n cb (sink σ))).
Proof.
  induction n as [|n IH]; intros y0 σ D Hsrc Hdst Hne HD Hw Hy0 Hyn.
  - simpl. rewrite splice_nil. destruct σ as [h s]; simpl in *.
    destruct D; simpl. by rewrite insert_id.
  - rewrite seqZ_succ, for_each_cons, mapM_cons.
    rewrite (row_body_new_row _ _ _ _ _ _ X D) by (done || lia).
    destruct (new_row T F kernel X y0) as [vs|] eqn:Hvs; simpl; [|done].
    apply length_new_row in Hvs.
    pose proof HD as (Hw0 & Hh0 & Hlen).
    assert (Hfit : (Z.to_nat (y0 * width D) + length vs
                    ≤ length (pixels D))%nat).
    { rewrite Hvs, Hlen, <- Hw.
      assert (y0 * width D + width D ≤ width D * height D) by nia.
      assert (0 ≤ y0 * width D) by nia. lia. }
    rewrite (IH (y0 + 1) _
               (Plane (width D) (height D)
                  (splice (Z.to_nat (y0 * width D)) vs (pixels D)))); simpl.
    + destruct (mapM _ (seqZ (y0 + 1) (Z.of_nat n))) as [rows|]; simpl;
        [|done].
      rewrite insert_insert_eq, Nat.iter_swap. do 3 f_equal.
      replace (Z.to_nat ((y0 + 1) * width D))
        with (Z.to_nat (y0 * width D) + length vs)%nat.
      * by rewrite splice_splice.
      * rewrite Hvs, <- Hw. assert (0 ≤ y0 * width D) by nia. lia.
    + by rewrite lookup_insert_ne.
    + by rewrite lookup_insert_eq.
    + done.
    + by apply raster_splice.
    + done.
    + lia.
    + lia.
Qed.

Lemma swap_planes a b A B σ :
  heap σ !! a = Some A → heap σ !! b = Some B →
  swap a b σ = Some (State (<[a:=B]> (<[b:=A]> (heap σ))) (sink σ)).
Proof. intros Ha Hb. unfold swap. by rewrite Ha, Hb. Qed.

Lemma iteration_body_generation T F cb kernel src dst X D i σ :
  heap σ !! src = Some X → heap σ !! dst = Some D → src ≠ dst →
  raster X → raster D → compatible X D →
  iteration_body T F cb kernel (kernel_offset kernel) src dst i σ
  = Y ← generation T F kernel X;
    Some (State (<[src:=Y]> (<[dst:=X]> (heap σ)))
            (Nat.iter (Z.to_nat (height X)) cb (sink σ))).
Proof.
  intros Hsrc Hdst Hne HX HD (Hw & Hh). unfold iteration_body.
  rewrite Hsrc. simpl. rewrite (seqZ_to_nat 0 (height X)).
  pose proof HX as (Hw0 & Hh0 & Hlen).
  rewrite (rows_loop _ _ _ _ _ _ X _ 0 σ D) by (done || lia).
  unfold generation. rewrite <- seqZ_to_nat.
  destruct (mapM _ _) as [rows|] eqn:Hrows; simpl; [|done].
  assert (HY : generation T F kernel X
               = Some (Plane (width X) (height X) (concat rows))).
  { unfold generation. by rewrite Hrows. }
  apply generation_pixels in HY as (_ & _ & HlenY). simpl in HlenY.
  rewrite Z.mul_0_l. change (Z.to_nat 0) with 0%nat.
  rewrite splice_all
    by (destruct HD as (_ & _ & ->); rewrite HlenY, <- Hw, <- Hh; lia).
  rewrite (swap_planes src dst X (Plane (width D) (height D) (concat rows)));
    simpl.
  - by rewrite insert_insert_eq, <- Hw, <- Hh.
  - by rewrite lookup_insert_ne.
  - by rewrite lookup_insert_eq.
Qed.

Lemma iterations_loop T F cb kernel src dst (n : nat) : ∀ i0 σ X D,
  heap σ !! src = Some X → heap σ !! dst = Some D → src ≠ dst →
  raster X → raster D → compatible X D →
  match generations T F kernel n X with
  | None =>
      for_each (iteration_body T F cb kernel (kernel_offset kernel) src dst)
        (seqZ i0 (Z.of_nat n)) σ = None
  | Some Y =>
      ∃ P, raster P ∧ compatible P X ∧
        for_each (iteration_body T F cb kernel (kernel_offset kernel) src dst)
          (seqZ i0 (Z.of_nat n)) σ
        = Some (State (<[src:=Y]> (<[dst:=P]> (heap σ)))
                  (Nat.iter (n * Z.to_nat (height X)) cb (sink σ)))
  end.
Proof.
  induction n as [|n IH]; intros i0 σ X D Hsrc Hdst Hne HX HD HXD.
  - simpl. exists D. destruct HXD. split; [done|]. split; [done|].
    destruct σ as [h s]; simpl in *.
    by rewrite (insert_id h dst D), (insert_id h src X).
  - rewrite seqZ_succ, for_each_cons. simpl generations.
    rewrite (iteration_body_generation _ _ _ _ _ _ X D) by done.
    destruct (generation T F kernel X) as [X1|] eqn:HX1; simpl; [|done].
    destruct (generation_raster _ _ _ _ _ HX HX1) as (HX1r & Hw1 & Hh1).
    specialize (IH (i0 + 1)
                  (State (<[src:=X1]> (<[dst:=X]> (heap σ)))
                     (Nat.iter (Z.to_nat (height X)) cb (sink σ))) X1 X).
    simpl in IH. rewrite lookup_insert_eq, lookup_insert_ne, lookup_insert_eq in IH
      by done.
    specialize (IH eq_refl eq_refl Hne HX1r HX (conj Hw1 Hh1)).
    destruct (generations T F kernel n X1) as [Y|]; [|done].
    destruct IH as (P & HP & (HwP & HhP) & ->).
    exists P. split; [done|]. split; [split; congruence|]. f_equal. f_equal.
    + same_store.
    + rewrite Hh1, <- Nat.iter_add. f_equal. lia.
Qed.

Lemma applyMorphology_generations T F src dst iterations kernel cb X D σ :
  heap σ !! src = Some X → heap σ !! dst = Some D → src ≠ dst →
  raster X → raster D → compatible X D →
  match generations T F kernel (Z.to_nat iterations) X with
  | None => applyMorphology T F src dst iterations kernel cb σ = None
  | Some Y =>
      ∃ P, applyMorphology T F src dst iterations kernel cb σ
           = Some (State (<[src:=P]> (<[dst:=Y]> (heap σ)))
                     (Nat.iter (Z.to_nat iterations * Z.to_nat (height X)) cb
                        (sink σ)))
  end.
Proof.
  intros Hsrc Hdst Hne HX HD HXD. unfold applyMorphology.
  rewrite (seqZ_to_nat 0 iterations).
  pose proof (iterations_loop T F cb kernel src dst (Z.to_nat iterations)
                0 σ X D Hsrc Hdst Hne HX HD HXD) as Hloop.
  destruct (generations T F kernel (Z.to_nat iterations) X) as [Y|].
  - destruct Hloop as (P & _ & _ & ->). exists P. simpl.
    rewrite (swap_planes src dst Y P); simpl.
    + f_equal. f_equal. same_store.
    + by rewrite lookup_insert_eq.
    + by rewrite lookup_insert_ne, lookup_insert_eq.
  - by rewrite Hloop.
Qed.

Lemma fresh_plane_None (h : gmap loc IPLImagePlane) : h !! fresh (dom h) = None.
Proof. apply not_elem_of_dom, is_fresh. Qed.

Lemma copy_plane_fresh src X σ :
  heap σ !! src = Some X →
  copy_plane src σ
  = Some (fresh (dom (heap σ)),
          State (<[fresh (dom (heap σ)):=X]> (heap σ)) (sink σ)).
Proof. intros Hsrc. unfold copy_plane. by rewrite Hsrc. Qed.

Lemma local_copy_generations T F src dst iterations kernel cb X D σ :
  heap σ !! src = Some X → heap σ !! dst = Some D →
  raster X → raster D → compatible X D →
  ('(input, σ0) ← copy_plane src σ;
   σ1 ← applyMorphology T F input dst iterations kernel cb σ0;
   Some (drop_plane input σ1))
  = Y ← generations T F kernel (Z.to_nat iterations) X;
    Some (State (<[dst:=Y]> (heap σ))
            (Nat.iter (Z.to_nat iterations * Z.to_nat (height X)) cb (sink σ))).
Proof.
  intros Hsrc Hdst HX HD HXD. rewrite (copy_plane_fresh src X σ Hsrc). simpl.
  pose proof (fresh_plane_None (heap σ)) as Hfresh.
  set (input := fresh (dom (heap σ))) in *.
  assert (Hne : input ≠ dst) by congruence.
  pose proof (applyMorphology_generations T F input dst iterations kernel cb
                X D (State (<[input:=X]> (heap σ)) (sink σ))) as Happly.
  simpl in Happly.
  rewrite lookup_insert_eq, lookup_insert_ne in Happly by done.
  specialize (Happly eq_refl Hdst Hne HX HD HXD).
  destruct (generations T F kernel (Z.to_nat iterations) X) as [Y|]; simpl.
  - destruct Happly as (P & ->). simpl. unfold drop_plane. simpl.
    f_equal. f_equal. same_store.
  - by rewrite Happly.
Qed.

Lemma dilate_generations src dst iterations kernel cb X D σ :
  heap σ !! src = Some X → heap σ !! dst = Some D →
  raster X → raster D → compatible X D →
  dilate src dst iterations kernel cb σ
  = Y ← generations 1 0 kernel (Z.to_nat iterations) X;
    Some (State (<[dst:=Y]> (heap σ))
            (Nat.iter (Z.to_nat iterations * Z.to_nat (height X)) cb (sink σ))).
Proof. apply local_copy_generations. Qed.

Lemma erode_generations src dst iterations kernel cb X D σ :
  heap σ !! src = Some X → heap σ !! dst = Some D →
  raster X → raster D → compatible X D →
  erode src dst iterations kernel cb σ
  = Y ← generations 0 1 kernel (Z.to_nat iterations) X;
    Some (State (<[dst:=Y]> (heap σ))
            (Nat.iter (Z.to_nat iterations * Z.to_nat (height X)) cb (sink σ))).
Proof. apply local_copy_generations. Qed.

(** [open] and [close] differ in the order of the two stages only. *)
Lemma two_stages T1 F1 T2 F2 src dst iterations kernel cb X D σ :
  heap σ !! src = Some X → heap σ !! dst = Some D →
  raster X → raster D → compatible X D →
  ('(input, σ0) ← copy_plane src σ;
   σ1 ← ('(input', σ0') ← copy_plane input σ0;
         σ1' ← applyMorphology T1 F1 input' dst iterations kernel cb σ0';
         Some (drop_plane input' σ1'));
   σ2 ← swap input dst σ1;
   σ3 ← ('(input', σ0') ← copy_plane input σ2;
         σ1' ← applyMorphology T2 F2 input' dst iterations kernel cb σ0';
         Some (drop_plane input' σ1'));
   Some (drop_plane input σ3))
  = Y ← generations T1 F1 kernel (Z.to_nat iterations) X;
    Y' ← generations T2 F2 kernel (Z.to_nat iterations) Y;
    Some (State (<[dst:=Y']> (heap σ))
            (Nat.iter (2 * (Z.to_nat iterations * Z.to_nat (height X))) cb
               (sink σ))).
Proof.
  intros Hsrc Hdst HX HD HXD. rewrite (copy_plane_fresh src X σ Hsrc). simpl.
  pose proof (fresh_plane_None (heap σ)) as Hfresh.
  set (input := fresh (dom (heap σ))) in *.
  assert (Hne : input ≠ dst) by congruence.
  rewrite (local_copy_generations T1 F1 input dst iterations kernel cb X D);
    simpl; [|by rewrite lookup_insert_eq|by rewrite lookup_insert_ne|done..].
  destruct (generations T1 F1 kernel (Z.to_nat iterations) X) as [Y|] eqn:HY;
    simpl; [|done].
  destruct (generations_raster _ _ _ _ _ _ HX HY) as (HYr & HwY & HhY).
  rewrite (swap_planes input dst X Y); simpl;
    [|by rewrite lookup_insert_ne, lookup_insert_eq|by rewrite lookup_insert_eq].
  rewrite (local_copy_generations T2 F2 input dst iterations kernel cb Y X);
    simpl; [|by rewrite lookup_insert_eq
            |by rewrite lookup_insert_ne, lookup_insert_eq
            |done|done|by split].
  destruct (generations T2 F2 kernel (Z.to_nat iterations) Y) as [Y'|];
    simpl; [|done].
  unfold drop_plane. simpl. f_equal. f_equal.
  - same_store.
  - rewrite HhY, <- Nat.iter_add. f_equal. lia.
Qed.

Lemma open_generations src dst iterations kernel cb X D σ :
  heap σ !! src = Some X → heap σ !! dst = Some D →
  raster X → raster D → compatible X D →
  open src dst iterations kernel cb σ
  = Y ← generations 0 1 kernel (Z.to_nat iterations) X;
    Y' ← generations 1 0 kernel (Z.to_nat iterations) Y;
    Some (State (<[dst:=Y']> (heap σ))
            (Nat.iter (2 * (Z.to_nat iterations * Z.to_nat (height X))) cb
               (sink σ))).
Proof. apply two_stages. Qed.

Lemma close_generations src dst iterations kernel cb X D σ :
  heap σ !! src = Some X → heap σ !! dst = Some D →
  raster X → raster D → compatible X D →
  close src dst iterations kernel cb σ
  = Y ← generations 1 0 kernel (Z.to_nat iterations) X;
    Y' ← generations 0 1 kernel (Z.to_nat iterations) Y;
    Some (State (<[dst:=Y']> (heap σ))
            (Nat.iter (2 * (Z.to_nat iterations * Z.to_nat (height X))) cb
               (sink σ))).
Proof. apply two_stages. Qed.

End Loops.

(** ** Duality of the two instantiations *)

Lemma p_negate X x y : p (negate X) x y = (λ v, 1 - v) <$> p X x y.
Proof.
  unfold p, pixel_index. simpl.
  destruct (bool_decide (0 ≤ y * width X + x)); simpl; [|done].
  apply list_lookup_fmap.
Qed.

Lemma for_until_ext {A S' : Type} (stop : S' → bool)
  (body body' : A → S' → option S') l s :
  (∀ a s, body a s = body' a s) →
  for_until stop body l s = for_until stop body' l s.
Proof.
  intros Hext. revert s. induction l as [|a l IH]; intros s; simpl; [done|].
  destruct (stop s); [done|]. rewrite Hext.
  destruct (body' a s); simpl; auto.
Qed.

Lemma scan_cell_negate X kernel x y ky kx s :
  scan_cell 0 X kernel x y ky kx s = scan_cell 1 (negate X) kernel x y ky kx s.
Proof.
  unfold scan_cell. simpl. case_bool_decide; [done|].
  rewrite p_negate. destruct (p X (x + kx) (y + ky)) as [v|]; simpl; [|done].
  destruct (kernel !! kernel_i s) as [mask|]; simpl; [|done].
  do 3 f_equal. apply bool_decide_ext. lia.
Qed.

Lemma scan_pixel_negate X kernel kernelOffset x y :
  scan_pixel 0 X kernel kernelOffset x y
  = scan_pixel 1 (negate X) kernel kernelOffset x y.
Proof.
  unfold scan_pixel. f_equal. apply for_until_ext. intros ky s.
  apply for_until_ext. intros kx s'. apply scan_cell_negate.
Qed.

Lemma new_pixel_negate kernel X y x :
  new_pixel 0 1 kernel X y x
  = (λ v, 1 - v) <$> new_pixel 1 0 kernel (negate X) y x.
Proof.
  unfold new_pixel. rewrite scan_pixel_negate.
  destruct (scan_pixel 1 _ _ _ _ _) as [[]|]; done.
Qed.

Lemma mapM_fmap_each {A B C : Type} (g : B → C) (f : A → option C)
  (f' : A → option B) l :
  (∀ a, f a = g <$> f' a) → mapM f l = fmap (M:=list) g <$> mapM f' l.
Proof.
  intros Hf. induction l as [|a l IH]; [done|].
  rewrite !mapM_cons, Hf, IH.
  destruct (f' a); simpl; [|done]. by destruct (mapM f' l).
Qed.

Lemma concat_fmap_rows (g : Z → Z) (rows : list (list Z)) :
  concat (fmap (M:=list) g <$> rows) = g <$> concat rows.
Proof.
  induction rows as [|r rows IH]; csimpl; [done|].
  by rewrite fmap_app, IH.
Qed.

Lemma generation_negate kernel X :
  generation 0 1 kernel X = negate <$> generation 1 0 kernel (negate X).
Proof.
  unfold generation. simpl.
  rewrite (mapM_fmap_each (fmap (M:=list) (λ v, 1 - v)) _
             (new_row 1 0 kernel (negate X))).
  - destruct (mapM _ _) as [rows|]; simpl; [|done].
    unfold negate. simpl. by rewrite concat_fmap_rows.
  - intros y. unfold new_row. simpl. apply mapM_fmap_each.
    intros x. apply new_pixel_negate.
Qed.

Lemma raster_negate X : raster X → raster (negate X).
Proof.
  intros (Hw & Hh & Hlen). repeat split; simpl; try done.
  by rewrite length_fmap.
Qed.

(** ** The scan never leaves a kernel that fits *)

Lemma p_raster X x y :
  raster X → 0 ≤ x < width X → 0 ≤ y < height X → is_Some (p X x y).
Proof.
  intros (Hw & Hh & Hlen) Hx Hy. unfold p, pixel_index.
  assert (y * width X + x < width X * height X) by nia.
  rewrite bool_decide_true by nia. simpl.
  apply lookup_lt_is_Some_2. lia.
Qed.

Lemma inner_scan T X kernel x y ky :
  raster X → ∀ kxs s,
  (kernel_i s + length kxs ≤ length kernel)%nat →
  ∃ s', for_until cancel (scan_cell T X kernel x y ky) kxs s = Some s'
        ∧ (kernel_i s' ≤ kernel_i s + length kxs)%nat
        ∧ (Forall (λ b, b = true) kernel →
           cancel s' = cancel s || existsb (hit T X x y ky) kxs).
Proof.
  intros HX. induction kxs as [|kx kxs IH]; intros s Hlen; simpl in *.
  { exists s. rewrite orb_false_r. auto with lia. }
  destruct (cancel s) eqn:Hcancel.
  { exists s. auto with lia. }
  destruct (decide (0 ≤ x + kx < width X ∧ 0 ≤ y + ky < height X))
    as [Hin|Hout].
  - destruct (p_raster X (x + kx) (y + ky)) as [v Hv]; [done|lia|lia|].
    destruct (lookup_lt_is_Some_2 kernel (kernel_i s)) as [mask Hmask]; [lia|].
    assert (Hcell : scan_cell T X kernel x y ky kx s
                    = Some (ScanState (mask && bool_decide (v = T))
                              (S (kernel_i s)))).
    { unfold scan_cell. rewrite bool_decide_false by lia.
      by rewrite Hv, Hmask. }
    assert (Hhit : hit T X x y ky kx = bool_decide (v = T)).
    { unfold hit. apply bool_decide_ext. rewrite Hv. split.
      - intros (_ & _ & ?). congruence.
      - intros ->. repeat split; lia || done. }
    rewrite Hcell, Hhit. simpl.
    destruct (IH (ScanState (mask && bool_decide (v = T)) (S (kernel_i s))))
      as (s' & -> & Hi & Hc); simpl in *; [lia|].
    exists s'. split; [done|]. split; [lia|].
    intros Hall. rewrite (Hc Hall).
    assert (mask = true) as ->; [|done].
    by apply (Forall_lookup_1 _ _ _ _ Hall) in Hmask.
  - assert (Hcell : scan_cell T X kernel x y ky kx s = Some s).
    { unfold scan_cell. by rewrite bool_decide_true by lia. }
    assert (Hhit : hit T X x y ky kx = false).
    { unfold hit. apply bool_decide_false. intros (? & ? & _). by apply Hout. }
    rewrite Hcell, Hhit. simpl.
    destruct (IH s) as (s' & -> & Hi & Hc); [lia|].
    exists s'. rewrite Hcancel in Hc. auto with lia.
Qed.

Lemma outer_scan T X kernel x y kxs :
  raster X → ∀ kys s,
  (kernel_i s + length kys * length kxs ≤ length kernel)%nat →
  ∃ s', for_until cancel
          (λ ky, for_until cancel (scan_cell T X kernel x y ky) kxs) kys s
        = Some s'
        ∧ (kernel_i s' ≤ kernel_i s + length kys * length kxs)%nat
        ∧ (Forall (λ b, b = true) kernel →
           cancel s'
           = cancel s
             || existsb (λ ky, existsb (hit T X x y ky) kxs) kys).
Proof.
  intros HX. induction kys as [|ky kys IH]; intros s Hlen; simpl in *.
  { exists s. rewrite orb_false_r. auto with lia. }
  destruct (cancel s) eqn:Hcancel.
  { exists s. auto with lia. }
  destruct (inner_scan T X kernel x y ky HX kxs s) as (s1 & -> & Hi1 & Hc1);
    [lia|]. simpl.
  destruct (IH s1) as (s' & -> & Hi & Hc); [lia|].
  exists s'. split; [done|]. split; [lia|].
  intros Hall. by rewrite (Hc Hall), (Hc1 Hall), Hcancel.
Qed.

Lemma length_kernel_range k : length (kernel_range k) = Z.to_nat (2 * k + 1).
Proof. apply length_seqZ. Qed.

Lemma kernel_offset_nonneg kernel : 0 ≤ kernel_offset kernel.
Proof.
  unfold kernel_offset. apply Z.div_pos; [|lia]. apply Z.sqrt_nonneg.
Qed.

Lemma scan_pixel_fits T X kernel x y :
  raster X → kernel_fits kernel →
  ∃ c, scan_pixel T X kernel (kernel_offset kernel) x y = Some c
       ∧ (Forall (λ b, b = true) kernel →
          c = existsb
                (λ ky, existsb (hit T X x y ky)
                         (kernel_range (kernel_offset kernel)))
                (kernel_range (kernel_offset kernel))).
Proof.
  intros HX Hfits. unfold scan_pixel.
  pose proof (kernel_offset_nonneg kernel) as Hk.
  destruct (outer_scan T X kernel x y (kernel_range (kernel_offset kernel)) HX
              (kernel_range (kernel_offset kernel)) (ScanState false 0))
    as (s' & -> & _ & Hc).
  - simpl. rewrite length_kernel_range. unfold kernel_fits in Hfits. nia.
  - simpl. exists (cancel s'). split; [done|]. intros Hall. by rewrite (Hc Hall).
Qed.

Lemma new_pixel_fits T F X kernel y x :
  raster X → kernel_fits kernel → is_Some (new_pixel T F kernel X y x).
Proof.
  intros HX Hfits. unfold new_pixel.
  destruct (scan_pixel_fits T X kernel x y HX Hfits) as (c & -> & _). by eexists.
Qed.

Lemma generation_fits T F X kernel :
  raster X → kernel_fits kernel → is_Some (generation T F kernel X).
Proof.
  intros HX Hfits. unfold generation.
  destruct (mapM (new_row T F kernel X) (seqZ 0 (height X))) as [rows|] eqn:Hrows;
    [by eexists|].
  apply mapM_None in Hrows. apply Exists_exists in Hrows as (y & _ & Hy).
  unfold new_row in Hy. apply mapM_None in Hy.
  apply Exists_exists in Hy as (x & _ & Hx).
  destruct (new_pixel_fits T F X kernel y x HX Hfits) as [v Hv]. congruence.
Qed.

Lemma generations_fits T F kernel n : ∀ X,
  raster X → kernel_fits kernel → is_Some (generations T F kernel n X).
Proof.
  induction n as [|n IH]; intros X HX Hfits; simpl; [by eexists|].
  destruct (generation_fits T F X kernel HX Hfits) as [Y HY]. rewrite HY. simpl.
  apply IH; [|done]. by apply generation_raster in HY as [? _].
Qed.

(** ** The progress reports *)

(** The fraction reported after [k] of [totalLines] rows. *)
Lemma iter_updateProgress totalLines (k : nat) c l :
  Nat.iter k (updateProgress totalLines) (Sink c l)
  = Sink (c + Z.of_nat k)
      (l ++ ((λ j, 100 * inject_Z j / inject_Z totalLines)%Q
             <$> seqZ (c + 1) (Z.of_nat k))).
Proof.
  induction k as [|k IH].
  - simpl. rewrite Z.add_0_r. by rewrite app_nil_r.
  - rewrite Nat.iter_succ, IH. unfold updateProgress. simpl progress.
    simpl reported. rewrite seqZ_S, fmap_app, <- app_assoc. simpl.
    replace (c + 1 + Z.of_nat k) with (c + Z.of_nat k + 1) by lia.
    f_equal. lia.
Qed.

(** ** processInputData against [generations] *)

Section ProcessRun.
Variable new_pixels : Z → Z → list Z.
Hypothesis new_pixels_length :
  ∀ w h, length (new_pixels w h) = Z.to_nat (w * h).

Lemma processInputData_run _result image kernel_property iterations operation
  (h : gmap loc IPLImagePlane) X :
  _result ≠ Some image → h !! image = Some X → raster X →
  let h' := match _result with Some r => delete r h | None => h end in
  let r := fresh (dom h') in
  let kernel := (λ i, bool_decide (0 < i)) <$> kernel_property in
  let n := Z.to_nat iterations in
  let rows := (n * Z.to_nat (height X))%nat in
  let total := height X * iterations in
  processInputData new_pixels _result image kernel_property iterations
    operation h
  = if bool_decide (operation = DILATE) then
      Y ← generations 1 0 kernel n X;
      Some (Outcome true r (<[r:=Y]> h')
              (reported (Nat.iter rows (updateProgress total) (Sink 0 []))))
    else if bool_decide (operation = ERODE) then
      Y ← generations 0 1 kernel n X;
      Some (Outcome true r (<[r:=Y]> h')
              (reported (Nat.iter rows (updateProgress total) (Sink 0 []))))
    else if bool_decide (operation = OPEN) then
      Y ← generations 0 1 kernel n X;
      Y' ← generations 1 0 kernel n Y;
      Some (Outcome true r (<[r:=Y']> h')
              (reported (Nat.iter (2 * rows) (updateProgress (total * 2))
                           (Sink 0 []))))
    else if bool_decide (operation = CLOSE) then
      Y ← generations 1 0 kernel n X;
      Y' ← generations 0 1 kernel n Y;
      Some (Outcome true r (<[r:=Y']> h')
              (reported (Nat.iter (2 * rows) (updateProgress (total * 2))
                           (Sink 0 []))))
    else
      Some (Outcome true r
              (<[r:=Plane (width X) (height X)
                      (new_pixels (width X) (height X))]> h') []).
Proof.
  intros Hres Himage HX h' r kernel n rows total. unfold processInputData.
  fold h'. assert (Himage' : h' !! image = Some X).
  { unfold h'. destruct _result as [r0|]; [|done].
    rewrite lookup_delete_ne; [done|congruence]. }
  rewrite Himage'. simpl. fold r kernel.
  pose proof (fresh_plane_None h') as Hfresh. fold r in Hfresh.
  assert (Hne : r ≠ image) by congruence.
  set (D := Plane (width X) (height X) (new_pixels (width X) (height X))).
  assert (HD : raster D).
  { destruct HX as (Hw & Hh & _). repeat split; simpl; done. }
  assert (HXD : compatible X D) by done.
  set (σ := State (<[r:=D]> h') (Sink 0 [])).
  assert (Hsrc : heap σ !! image = Some X).
  { simpl. by rewrite lookup_insert_ne. }
  assert (Hdst : heap σ !! r = Some D).
  { simpl. by rewrite lookup_insert_eq. }
  repeat case_bool_decide.
  - rewrite (dilate_generations image r iterations kernel _ X D) by done.
    fold n. destruct (generations 1 0 kernel n X); simpl; [|done].
    by rewrite insert_insert_eq.
  - rewrite (erode_generations image r iterations kernel _ X D) by done.
    fold n. destruct (generations 0 1 kernel n X); simpl; [|done].
    by rewrite insert_insert_eq.
  - rewrite (open_generations image r iterations kernel _ X D) by done.
    fold n. destruct (generations 0 1 kernel n X) as [Y|]; simpl; [|done].
    destruct (generations 1 0 kernel n Y); simpl; [|done].
    by rewrite insert_insert_eq.
  - rewrite (close_generations image r iterations kernel _ X D) by done.
    fold n. destruct (generations 1 0 kernel n X) as [Y|]; simpl; [|done].
    destruct (generations 0 1 kernel n Y); simpl; [|done].
    by rewrite insert_insert_eq.
  - done.
Qed.

End ProcessRun.

(** * Properties of the specification *)

Lemma raster_speck : raster speck_raster.
Proof. unfold raster. simpl. auto with lia. Qed.

Lemma generations_one T F kernel X :
  generations T F kernel 1 X = generation T F kernel X.
Proof. simpl. by destruct (generation T F kernel X). Qed.

Section Operations.
Context {St : Type}.
Implicit Types σ : state St.

(** C3.  Duality: one iteration of Erode applied to a raster X leaves in the
    destination the pixel-wise negation of what one iteration of Dilate
    leaves there when the source holds the pixel-wise negation of X, for
    the same structuring element (and both calls fault on the same
    inputs). *)
Theorem erode_dilate_duality src dst kernel (cb : St → St) X D σ :
  heap σ !! src = Some X → heap σ !! dst = Some D → src ≠ dst →
  raster X → raster D → compatible X D →
  plane_after dst (erode src dst 1 kernel cb σ)
  = negate <$>
      plane_after dst
        (dilate src dst 1 kernel cb
           (State (<[src:=negate X]> (heap σ)) (sink σ))).
Proof.
  intros Hsrc Hdst Hne HX HD HXD. unfold plane_after.
  rewrite (erode_generations src dst 1 kernel cb X D) by done.
  rewrite (dilate_generations src dst 1 kernel cb (negate X) D);
    simpl; [|by rewrite lookup_insert_eq|by rewrite lookup_insert_ne
            |by apply raster_negate|done|done].
  rewrite generation_negate.
  destruct (generation 1 0 kernel (negate X)) as [Y|]; simpl; [|done].
  by rewrite !lookup_insert_eq.
Qed.

(** C5.  For every iteration count N >= 1 the destination plane supplied by
    the caller holds, when [applyMorphology] returns, the N-th generation
    of the source: the single-pass transform applied exactly N times.
    After [open] it holds N generations of Dilate applied to N generations
    of Erode, after [close] the converse, 2 x N passes.  The call faults
    exactly when one of these passes does, and it returns for every kernel
    that fits. *)
Theorem destination_holds_final_generation T F src dst iterations kernel
  (cb : St → St) X D σ :
  1 ≤ iterations →
  heap σ !! src = Some X → heap σ !! dst = Some D → src ≠ dst →
  raster X → raster D → compatible X D →
  let n := Z.to_nat iterations in
  plane_after dst (applyMorphology T F src dst iterations kernel cb σ)
  = generations T F kernel n X
  ∧ plane_after dst (open src dst iterations kernel cb σ)
    = generations 0 1 kernel n X ≫= generations 1 0 kernel n
  ∧ plane_after dst (close src dst iterations kernel cb σ)
    = generations 1 0 kernel n X ≫= generations 0 1 kernel n
  ∧ (kernel_fits kernel →
     is_Some (applyMorphology T F src dst iterations kernel cb σ)
     ∧ is_Some (open src dst iterations kernel cb σ)
     ∧ is_Some (close src dst iterations kernel cb σ)).
Proof.
  intros _ Hsrc Hdst Hne HX HD HXD n. unfold plane_after.
  pose proof (applyMorphology_generations T F src dst iterations kernel cb
                X D σ Hsrc Hdst Hne HX HD HXD) as Happly.
  fold n in Happly.
  rewrite (open_generations src dst iterations kernel cb X D) by done.
  rewrite (close_generations src dst iterations kernel cb X D) by done.
  fold n. repeat split.
  - destruct (generations T F kernel n X) as [Y|].
    + destruct Happly as (P & ->). simpl.
      by rewrite lookup_insert_ne, lookup_insert_eq.
    + by rewrite Happly.
  - destruct (generations 0 1 kernel n X) as [Y|]; simpl; [|done].
    destruct (generations 1 0 kernel n Y) as [Y'|]; simpl; [|done].
    by rewrite lookup_insert_eq.
  - destruct (generations 1 0 kernel n X) as [Y|]; simpl; [|done].
    destruct (generations 0 1 kernel n Y) as [Y'|]; simpl; [|done].
    by rewrite lookup_insert_eq.
  - destruct (generations_fits T F kernel n X HX H) as [Y HY].
    rewrite HY in Happly. destruct Happly as (P & ->). by eexists.
  - destruct (generations_fits 0 1 kernel n X HX H) as [Y HY]. rewrite HY.
    destruct (generations_raster _ _ _ _ _ _ HX HY) as (HYr & _).
    destruct (generations_fits 1 0 kernel n Y HYr H) as [Y' HY']. simpl.
    rewrite HY'. by eexists.
  - destruct (generations_fits 1 0 kernel n X HX H) as [Y HY]. rewrite HY.
    destruct (generations_raster _ _ _ _ _ _ HX HY) as (HYr & _).
    destruct (generations_fits 0 1 kernel n Y HYr H) as [Y' HY']. simpl.
    rewrite HY'. by eexists.
Qed.

Lemma keeps_source_insert src dst σ Y (s : St) :
  src ≠ dst → keeps_source src dst σ (Some (State (<[dst:=Y]> (heap σ)) s)).
Proof.
  intros Hne σ' [= <-]. simpl. split.
  - by rewrite lookup_insert_ne.
  - intros l Hl. by rewrite lookup_insert_ne.
Qed.

Lemma keeps_source_None src dst σ : keeps_source src dst σ None.
Proof. by intros σ'. Qed.

(** C9.  Whatever the operation, the structuring element and the iteration
    count, the source plane of the caller is unchanged when the call
    returns: the transform reads a local copy and writes the destination
    only, so every plane but the destination is as it was, and the local
    copies are gone.  For a kernel that fits the call does return. *)
Theorem source_plane_unchanged src dst iterations kernel (cb : St → St) X D σ :
  heap σ !! src = Some X → heap σ !! dst = Some D → src ≠ dst →
  raster X → raster D → compatible X D →
  keeps_source src dst σ (dilate src dst iterations kernel cb σ)
  ∧ keeps_source src dst σ (erode src dst iterations kernel cb σ)
  ∧ keeps_source src dst σ (open src dst iterations kernel cb σ)
  ∧ keeps_source src dst σ (close src dst iterations kernel cb σ)
  ∧ (kernel_fits kernel →
     is_Some (dilate src dst iterations kernel cb σ)
     ∧ is_Some (erode src dst iterations kernel cb σ)
     ∧ is_Some (open src dst iterations kernel cb σ)
     ∧ is_Some (close src dst iterations kernel cb σ)).
Proof.
  intros Hsrc Hdst Hne HX HD HXD.
  rewrite (dilate_generations src dst iterations kernel cb X D) by done.
  rewrite (erode_generations src dst iterations kernel cb X D) by done.
  rewrite (open_generations src dst iterations kernel cb X D) by done.
  rewrite (close_generations src dst iterations kernel cb X D) by done.
  set (n := Z.to_nat iterations).
  assert (Hfits : ∀ T F T' F', kernel_fits kernel →
            ∃ Y Y', generations T F kernel n X = Some Y
                    ∧ generations T' F' kernel n Y = Some Y').
  { intros T F T' F' Hk.
    destruct (generations_fits T F kernel n X HX Hk) as [Y HY].
    destruct (generations_raster _ _ _ _ _ _ HX HY) as (HYr & _).
    destruct (generations_fits T' F' kernel n Y HYr Hk) as [Y' HY'].
    by exists Y, Y'. }
  split; [|split; [|split; [|split; [|intros H; repeat split]]]].
  - destruct (generations 1 0 kernel n X); simpl;
      auto using keeps_source_insert, keeps_source_None.
  - destruct (generations 0 1 kernel n X); simpl;
      auto using keeps_source_insert, keeps_source_None.
  - destruct (generations 0 1 kernel n X) as [Y|]; simpl;
      [|apply keeps_source_None].
    destruct (generations 1 0 kernel n Y); simpl;
      auto using keeps_source_insert, keeps_source_None.
  - destruct (generations 1 0 kernel n X) as [Y|]; simpl;
      [|apply keeps_source_None].
    destruct (generations 0 1 kernel n Y); simpl;
      auto using keeps_source_insert, keeps_source_None.
  - destruct (Hfits 1 0 1 0 H) as (Y & _ & -> & _). by eexists.
  - destruct (Hfits 0 1 1 0 H) as (Y & _ & -> & _). by eexists.
  - destruct (Hfits 0 1 1 0 H) as (Y & Y' & -> & HY'). simpl.
    rewrite HY'. by eexists.
  - destruct (Hfits 1 0 0 1 H) as (Y & Y' & -> & HY'). simpl.
    rewrite HY'. by eexists.
Qed.

Lemma applyMorphology_no_iteration T F a b iterations kernel (cb : St → St) σ :
  iterations ≤ 0 → applyMorphology T F a b iterations kernel cb σ = swap a b σ.
Proof. intros Hle. unfold applyMorphology. by rewrite seqZ_nil. Qed.

Lemma local_copy_no_iteration T F src dst iterations kernel (cb : St → St)
  X D σ :
  iterations ≤ 0 → heap σ !! src = Some X → heap σ !! dst = Some D →
  ('(input, σ0) ← copy_plane src σ;
   σ1 ← applyMorphology T F input dst iterations kernel cb σ0;
   Some (drop_plane input σ1))
  = Some (State (<[dst:=X]> (heap σ)) (sink σ)).
Proof.
  intros Hle Hsrc Hdst. rewrite (copy_plane_fresh src X σ Hsrc). simpl.
  pose proof (fresh_plane_None (heap σ)) as Hfresh.
  set (input := fresh (dom (heap σ))) in *.
  assert (Hne : input ≠ dst) by congruence.
  rewrite applyMorphology_no_iteration by done.
  rewrite (swap_planes input dst X D); simpl;
    [|by rewrite lookup_insert_eq|by rewrite lookup_insert_ne].
  unfold drop_plane. simpl. do 2 f_equal. same_store.
Qed.

Lemma two_stages_no_iteration T1 F1 T2 F2 src dst iterations kernel
  (cb : St → St) X D σ :
  iterations ≤ 0 → heap σ !! src = Some X → heap σ !! dst = Some D →
  ('(input, σ0) ← copy_plane src σ;
   σ1 ← ('(input', σ0') ← copy_plane input σ0;
         σ1' ← applyMorphology T1 F1 input' dst iterations kernel cb σ0';
         Some (drop_plane input' σ1'));
   σ2 ← swap input dst σ1;
   σ3 ← ('(input', σ0') ← copy_plane input σ2;
         σ1' ← applyMorphology T2 F2 input' dst iterations kernel cb σ0';
         Some (drop_plane input' σ1'));
   Some (drop_plane input σ3))
  = Some (State (<[dst:=X]> (heap σ)) (sink σ)).
Proof.
  intros Hle Hsrc Hdst. rewrite (copy_plane_fresh src X σ Hsrc). simpl.
  pose proof (fresh_plane_None (heap σ)) as Hfresh.
  set (input := fresh (dom (heap σ))) in *.
  assert (Hne : input ≠ dst) by congruence.
  rewrite (local_copy_no_iteration T1 F1 input dst iterations kernel cb X D);
    simpl; [|done|by rewrite lookup_insert_eq|by rewrite lookup_insert_ne].
  rewrite (swap_planes input dst X X); simpl;
    [|by rewrite lookup_insert_ne, lookup_insert_eq|by rewrite lookup_insert_eq].
  rewrite (local_copy_no_iteration T2 F2 input dst iterations kernel cb X X);
    simpl; [|done|by rewrite lookup_insert_eq
            |by rewrite lookup_insert_ne, lookup_insert_eq].
  unfold drop_plane. simpl. do 2 f_equal. same_store.
Qed.

(** C10.  With an iteration count of 0 each of the four operations returns,
    the progress callback is not invoked (the state it acts on is the one
    the call started with, whatever the callback), and the destination
    plane is a copy of the source plane; nothing else changes. *)
Theorem no_iteration_is_identity src dst kernel (cb : St → St) X D σ :
  heap σ !! src = Some X → heap σ !! dst = Some D →
  dilate src dst 0 kernel cb σ = Some (State (<[dst:=X]> (heap σ)) (sink σ))
  ∧ erode src dst 0 kernel cb σ = Some (State (<[dst:=X]> (heap σ)) (sink σ))
  ∧ open src dst 0 kernel cb σ = Some (State (<[dst:=X]> (heap σ)) (sink σ))
  ∧ close src dst 0 kernel cb σ = Some (State (<[dst:=X]> (heap σ)) (sink σ)).
Proof.
  intros Hsrc Hdst. repeat split.
  - by apply (local_copy_no_iteration 1 0 src dst 0 kernel cb X D).
  - by apply (local_copy_no_iteration 0 1 src dst 0 kernel cb X D).
  - by apply (two_stages_no_iteration 0 1 1 0 src dst 0 kernel cb X D).
  - by apply (two_stages_no_iteration 1 0 0 1 src dst 0 kernel cb X D).
Qed.

Lemma full_kernel_1_generation :
  generation 1 0 (full_kernel 1) speck_raster = Some block_raster.
Proof. by vm_compute. Qed.

(** C6.  Scenario A: one iteration of Dilate with the 3 x 3 kernel of active
    cells on the 5 x 5 raster whose only foreground pixel is (2, 2) leaves
    in the destination the raster with the 3 x 3 block around (2, 2)
    foreground and every other pixel background. *)
Theorem scenario_A_dilate src dst (cb : St → St) D σ :
  heap σ !! src = Some speck_raster → heap σ !! dst = Some D →
  raster D → compatible speck_raster D →
  plane_after dst (dilate src dst 1 (full_kernel 1) cb σ) = Some block_raster
  ∧ ∀ x y, 0 ≤ x < 5 → 0 ≤ y < 5 →
      p block_raster x y
      = Some (if bool_decide (1 ≤ x ≤ 3 ∧ 1 ≤ y ≤ 3) then 1 else 0).
Proof.
  intros Hsrc Hdst HD HXD. split.
  - unfold plane_after.
    rewrite (dilate_generations src dst 1 (full_kernel 1) cb speck_raster D)
      by (done || apply raster_speck).
    change (Z.to_nat 1) with 1%nat.
    rewrite generations_one, full_kernel_1_generation. simpl. by rewrite lookup_insert_eq.
  - intros x y Hx Hy.
    assert (x = 0 ∨ x = 1 ∨ x = 2 ∨ x = 3 ∨ x = 4) as Hxs by lia.
    assert (y = 0 ∨ y = 1 ∨ y = 2 ∨ y = 3 ∨ y = 4) as Hys by lia.
    destruct Hxs as [->|[->|[->|[->| ->]]]];
      destruct Hys as [->|[->|[->|[->| ->]]]]; by vm_compute.
Qed.

End Operations.

(** ** Fractions *)

Lemma fraction_le total k k' :
  0 < total → k ≤ k' →
  (100 * inject_Z k / inject_Z total <= 100 * inject_Z k' / inject_Z total)%Q.
Proof.
  intros Htotal Hk. unfold Qdiv. apply Qmult_le_compat_r.
  - apply Qmult_le_l; [done|]. by rewrite <- Zle_Qle.
  - apply Qinv_le_0_compat. replace 0%Q with (inject_Z 0) by done.
    rewrite <- Zle_Qle. lia.
Qed.

Lemma fraction_full total :
  0 < total → (100 * inject_Z total / inject_Z total == 100)%Q.
Proof.
  intros Htotal. apply Qdiv_mult_l. replace 0%Q with (inject_Z 0) by done.
  rewrite inject_Z_injective. lia.
Qed.

Lemma fraction_nonneg total k :
  0 < total → 0 ≤ k → (0 <= 100 * inject_Z k / inject_Z total)%Q.
Proof.
  intros Htotal Hk. unfold Qdiv. apply Qmult_le_0_compat.
  - apply Qmult_le_0_compat; [done|].
    replace 0%Q with (inject_Z 0) by done. by rewrite <- Zle_Qle.
  - apply Qinv_le_0_compat. replace 0%Q with (inject_Z 0) by done.
    rewrite <- Zle_Qle. lia.
Qed.

(** The reports of a run of [k] rows out of [total]. *)
Lemma reported_iter total (k : nat) :
  reported (Nat.iter k (updateProgress total) (Sink 0 []))
  = (λ j, 100 * inject_Z j / inject_Z total)%Q <$> seqZ 1 (Z.of_nat k).
Proof. by rewrite iter_updateProgress. Qed.

Lemma seqZ_rows (N h : Z) (passes : nat) :
  0 ≤ h →
  seqZ 1 (Z.of_nat (passes * (Z.to_nat N * Z.to_nat h)))
  = seqZ 1 (h * N * Z.of_nat passes).
Proof.
  intros Hh. destruct (decide (N ≤ 0)).
  - replace (Z.to_nat N) with 0%nat by lia.
    rewrite Nat.mul_0_l, Nat.mul_0_r. rewrite !seqZ_nil; [done|nia|done].
  - f_equal. nia.
Qed.

Lemma lookup_fractions total i q :
  ((λ j, 100 * inject_Z j / inject_Z total)%Q <$> seqZ 1 total) !! i = Some q →
  q = (100 * inject_Z (1 + Z.of_nat i) / inject_Z total)%Q
  ∧ 1 + Z.of_nat i ≤ total.
Proof.
  rewrite list_lookup_fmap. intros Hq.
  destruct (seqZ 1 total !! i) as [j|] eqn:Hj; simplify_eq/=.
  apply lookup_seqZ in Hj as [-> ?]. split; [done|lia].
Qed.

Lemma last_fractions total q :
  list.last ((λ j, 100 * inject_Z j / inject_Z total)%Q <$> seqZ 1 total) = Some q →
  0 < total ∧ q = (100 * inject_Z total / inject_Z total)%Q.
Proof.
  rewrite fmap_last. intros Hq.
  destruct (decide (total ≤ 0)).
  { by rewrite seqZ_nil in Hq by done. }
  split; [lia|].
  rewrite <- (Z2Nat.id total) in Hq at 1 by lia.
  destruct (Z.to_nat total) as [|k] eqn:Hk; [lia|].
  rewrite seqZ_S, last_snoc in Hq. simplify_eq/=. do 3 f_equal. lia.
Qed.

(** The exact quotients of the sink [progress_sink], for the rows taken in
    the order the loop of line 66 is written in: 100 x k / (height x
    iterations x passes) for k = 1, 2, ..., where passes is 1 for Dilate
    and Erode and 2 for Open and Close; they never decrease, they lie in
    [0, 100], and the last one is 100.  These are not the values the code
    reports, which are floats, nor always their order: for these see
    the reports of a team of workers below. *)
Theorem progress_fractions (new_pixels : Z → Z → list Z) _result image
  kernel_property iterations operation (h : gmap loc IPLImagePlane) X o :
  (∀ w h, length (new_pixels w h) = Z.to_nat (w * h)) →
  _result ≠ Some image → h !! image = Some X → raster X →
  operation = DILATE ∨ operation = ERODE ∨ operation = OPEN ∨ operation = CLOSE →
  processInputData new_pixels _result image kernel_property iterations
    operation h = Some o →
  let passes :=
    if bool_decide (operation = OPEN ∨ operation = CLOSE) then 2 else 1 in
  let total := height X * iterations * passes in
  fractions o
  = (λ k, 100 * inject_Z k / inject_Z total)%Q <$> seqZ 1 total
  ∧ (∀ i j q q', (i ≤ j)%nat →
       fractions o !! i = Some q → fractions o !! j = Some q' → (q <= q')%Q)
  ∧ (∀ i q, fractions o !! i = Some q → (0 <= q)%Q ∧ (q <= 100)%Q)
  ∧ (∀ q, list.last (fractions o) = Some q → (q == 100)%Q).
Proof.
  intros Hnew Hres Himage HX Hop Hrun passes total.
  assert (Hfractions : fractions o
            = (λ k, 100 * inject_Z k / inject_Z total)%Q <$> seqZ 1 total).
  { rewrite (processInputData_run new_pixels Hnew _ _ _ _ _ _ X) in Hrun
      by done.
    pose proof HX as (_ & Hh & _).
    pose proof (seqZ_rows iterations (height X) 1 Hh) as Hone.
    pose proof (seqZ_rows iterations (height X) 2 Hh) as Htwo.
    rewrite Nat.mul_1_l, Z.mul_1_r in Hone.
    unfold total, passes. clear total passes.
    destruct Hop as [->|[->|[->| ->]]]; simpl in Hrun.
    - destruct (generations 1 0 _ _ X); simplify_eq/=.
      by rewrite reported_iter, Hone, Z.mul_1_r.
    - destruct (generations 0 1 _ _ X); simplify_eq/=.
      by rewrite reported_iter, Hone, Z.mul_1_r.
    - destruct (generations 0 1 _ _ X) as [Y|]; simplify_eq/=.
      destruct (generations 1 0 _ _ Y); simplify_eq/=.
      by rewrite reported_iter, Htwo.
    - destruct (generations 1 0 _ _ X) as [Y|]; simplify_eq/=.
      destruct (generations 0 1 _ _ Y); simplify_eq/=.
      by rewrite reported_iter, Htwo. }
  split; [done|]. rewrite Hfractions. split; [|split].
  - intros i j q q' Hij Hi Hj. apply lookup_fractions in Hi as [-> ?].
    apply lookup_fractions in Hj as [-> ?]. apply fraction_le; lia.
  - intros i q Hi. apply lookup_fractions in Hi as [-> ?]. split.
    + apply fraction_nonneg; lia.
    + apply Qle_trans with (100 * inject_Z total / inject_Z total)%Q.
      * apply fraction_le; lia.
      * rewrite fraction_full by lia. apply Qle_refl.
  - intros q Hq. apply last_fractions in Hq as [? ->]. by apply fraction_full.
Qed.

(** C8 (counterexample).  Three requests the specification rejects, on the
    3 x 3 raster with one foreground pixel: a kernel of two flags (not a
    perfect square), an iteration count of 0, and the operation selector
    7.  Each call returns [true] with a result plane. *)
Lemma invalid_requests_return :
  let h : gmap loc IPLImagePlane := {[1%positive := corner_raster]} in
  observed (processInputData background_pixels None 1%positive [1; 1] 1 DILATE h)
  = Some (true, Some corner_raster, [(100 # 3)%Q; (200 # 3)%Q; (300 # 3)%Q])
  ∧ observed (processInputData background_pixels None 1%positive
                [0; 0; 0; 0; 1; 0; 0; 0; 0] 0 DILATE h)
    = Some (true, Some corner_raster, [])
  ∧ observed (processInputData background_pixels None 1%positive
                [0; 0; 0; 0; 1; 0; 0; 0; 0] 1 7 h)
    = Some (true, Some empty_raster, []).
Proof. by vm_compute. Qed.

(** C8 (amended).  No request is rejected.  With an iteration count below 1
    the call returns [true], the result is a copy of the input and nothing
    is reported; with an operation selector outside the enumeration it
    returns [true], no pixel is computed, the result is the plane as
    constructed and nothing is reported; and with any kernel that fits, of
    a square length or not, it returns [true] with a raster of the
    dimensions of the input. *)
Theorem no_request_is_rejected (new_pixels : Z → Z → list Z) _result image
  kernel_property iterations operation (h : gmap loc IPLImagePlane) X :
  (∀ w h, length (new_pixels w h) = Z.to_nat (w * h)) →
  _result ≠ Some image → h !! image = Some X → raster X →
  let h' := match _result with Some r => delete r h | None => h end in
  let r := fresh (dom h') in
  let kernel := (λ i, bool_decide (0 < i)) <$> kernel_property in
  let run := processInputData new_pixels _result image kernel_property
               iterations operation h in
  (iterations < 1 →
   operation = DILATE ∨ operation = ERODE ∨ operation = OPEN
   ∨ operation = CLOSE →
   run = Some (Outcome true r (<[r:=X]> h') []))
  ∧ (operation ≠ DILATE → operation ≠ ERODE → operation ≠ OPEN →
     operation ≠ CLOSE →
     run = Some (Outcome true r
                   (<[r:=Plane (width X) (height X)
                           (new_pixels (width X) (height X))]> h') []))
  ∧ (kernel_fits kernel →
     ∃ Y reports, run = Some (Outcome true r (<[r:=Y]> h') reports)
                  ∧ raster Y ∧ compatible Y X).
Proof.
  intros Hnew Hres Himage HX h' r kernel run. unfold run.
  rewrite (processInputData_run new_pixels Hnew _ _ _ _ _ _ X) by done.
  fold h' r kernel. split; [|split].
  - intros Hit Hop. replace (Z.to_nat iterations) with 0%nat by lia.
    destruct Hop as [->|[->|[->| ->]]]; done.
  - intros H0 H1 H2 H3. by rewrite !bool_decide_false by done.
  - intros Hfits. set (n := Z.to_nat iterations).
    assert (Htwo : ∀ T F T' F',
              ∃ Y Y', generations T F kernel n X = Some Y
                      ∧ generations T' F' kernel n Y = Some Y'
                      ∧ raster Y ∧ compatible Y X
                      ∧ raster Y' ∧ compatible Y' X).
    { intros T F T' F'.
      destruct (generations_fits T F kernel n X HX Hfits) as [Y HY].
      destruct (generations_raster _ _ _ _ _ _ HX HY) as (HYr & HYc).
      destruct (generations_fits T' F' kernel n Y HYr Hfits) as [Y' HY'].
      destruct (generations_raster _ _ _ _ _ _ HYr HY') as (HYr' & HYc').
      exists Y, Y'. do 5 (split; [done|]).
      destruct HYc, HYc'. split; congruence. }
    repeat case_bool_decide.
    + destruct (Htwo 1 0 1 0) as (Y & _ & -> & _ & HYr & HYc & _).
      by eexists _, _.
    + destruct (Htwo 0 1 1 0) as (Y & _ & -> & _ & HYr & HYc & _).
      by eexists _, _.
    + destruct (Htwo 0 1 1 0) as (Y & Y' & -> & HY' & _ & _ & HYr & HYc).
      simpl. rewrite HY'. by eexists _, _.
    + destruct (Htwo 1 0 0 1) as (Y & Y' & -> & HY' & _ & _ & HYr & HYc).
      simpl. rewrite HY'. by eexists _, _.
    + eexists _, _. split; [done|]. pose proof HX as (? & ? & _).
      repeat split; simpl; done.
Qed.

(** ** Kernels with every cell active *)

Lemma length_full_kernel k :
  length (full_kernel k) = ((2 * k + 1) * (2 * k + 1))%nat.
Proof. apply length_replicate. Qed.

Lemma kernel_odd_square kernel (k : nat) :
  length kernel = ((2 * k + 1) * (2 * k + 1))%nat →
  kernel_offset kernel = Z.of_nat k ∧ kernel_fits kernel.
Proof.
  intros Hlen.
  assert (Hoff : kernel_offset kernel = Z.of_nat k).
  { unfold kernel_offset. rewrite Hlen.
    replace (Z.of_nat ((2 * k + 1) * (2 * k + 1)))
      with ((2 * Z.of_nat k + 1) * (2 * Z.of_nat k + 1)) by lia.
    rewrite Z.sqrt_square by lia.
    symmetry. apply (Z.div_unique _ _ _ 1); lia. }
  split; [done|]. unfold kernel_fits. rewrite Hoff, Hlen. lia.
Qed.

Lemma kernel_offset_full k : kernel_offset (full_kernel k) = Z.of_nat k.
Proof. apply kernel_odd_square, length_full_kernel. Qed.

Lemma kernel_fits_full k : kernel_fits (full_kernel k).
Proof. apply (kernel_odd_square _ k), length_full_kernel. Qed.

Lemma full_kernel_active k : Forall (λ b, b = true) (full_kernel k).
Proof. apply Forall_replicate. done. Qed.

Lemma existsb_kernel_range (f : Z → bool) k :
  existsb f (kernel_range k) = true ↔ ∃ d, - k ≤ d ≤ k ∧ f d = true.
Proof.
  rewrite existsb_exists. unfold kernel_range. split.
  - intros (d & Hd & Hf). exists d. split; [|done].
    apply list_elem_of_In, elem_of_seqZ in Hd. lia.
  - intros (d & Hd & Hf). exists d. split; [|done].
    apply list_elem_of_In, elem_of_seqZ. lia.
Qed.

Lemma scan_pixel_full T X k x y :
  raster X →
  ∃ c, scan_pixel T X (full_kernel k) (kernel_offset (full_kernel k)) x y
       = Some c
       ∧ (c = true ↔
          ∃ x' y', near (Z.of_nat k) (width X) (height X) x y x' y'
                   ∧ p X x' y' = Some T).
Proof.
  intros HX.
  destruct (scan_pixel_fits T X (full_kernel k) x y HX (kernel_fits_full k))
    as (c & Hc & Hall).
  exists c. split; [done|]. rewrite (Hall (full_kernel_active k)).
  rewrite kernel_offset_full, existsb_kernel_range. split.
  - intros (ky & Hky & Hrow). apply existsb_kernel_range in Hrow
      as (kx & Hkx & Hhit).
    unfold hit in Hhit. apply bool_decide_eq_true in Hhit as (? & ? & ?).
    exists (x + kx), (y + ky). unfold near. repeat split; lia || done.
  - intros (x' & y' & (? & ? & ? & ?) & Hp).
    exists (y' - y). split; [lia|]. apply existsb_kernel_range.
    exists (x' - x). split; [lia|]. unfold hit. apply bool_decide_eq_true.
    replace (x + (x' - x)) with x' by lia.
    replace (y + (y' - y)) with y' by lia. repeat split; lia || done.
Qed.

(** ** Reading a generation pixel by pixel *)

Lemma lookup_concat_rows (rows : list (list Z)) w i j :
  Forall (λ r, length r = w) rows → (j < w)%nat →
  concat rows !! (i * w + j)%nat = rows !! i ≫= (λ r, r !! j).
Proof.
  intros Hrows Hj. revert i.
  induction Hrows as [|r rows Hr _ IH]; intros i; [done|].
  destruct i as [|i]; simpl.
  - rewrite lookup_app_l by lia. done.
  - rewrite lookup_app_r by lia. rewrite <- IH. f_equal. lia.
Qed.

Lemma mapM_lookup {A B : Type} (f : A → option B) l k i a :
  mapM f l = Some k → l !! i = Some a → ∃ b, k !! i = Some b ∧ f a = Some b.
Proof.
  intros Hk Ha. apply mapM_Some in Hk.
  destruct (Forall2_lookup_l _ _ _ _ _ Hk Ha) as (b & Hb & Hf). by exists b.
Qed.

Lemma p_generation T F kernel X Y x y :
  raster X → generation T F kernel X = Some Y →
  0 ≤ x < width X → 0 ≤ y < height X →
  p Y x y = new_pixel T F kernel X y x.
Proof.
  intros (Hw & Hh & _) HY Hx Hy. unfold generation in HY.
  destruct (mapM _ _) as [rows|] eqn:Hrows; simplify_eq/=.
  unfold p, pixel_index. simpl. rewrite bool_decide_true by nia. simpl.
  replace (Z.to_nat (y * width X + x))
    with (Z.to_nat y * Z.to_nat (width X) + Z.to_nat x)%nat by nia.
  rewrite (lookup_concat_rows rows (Z.to_nat (width X))); [|..|lia].
  - destruct (mapM_lookup _ _ _ (Z.to_nat y) y Hrows) as (r & -> & Hr).
    { rewrite lookup_seqZ_lt by lia. f_equal. lia. }
    simpl. unfold new_row in Hr.
    destruct (mapM_lookup _ _ _ (Z.to_nat x) x Hr) as (v & -> & Hv).
    { rewrite lookup_seqZ_lt by lia. f_equal. lia. }
    done.
  - apply mapM_Some in Hrows. apply Forall2_Forall_r with (1 := Hrows).
    apply Forall_forall. intros y' _ r Hr. by apply length_new_row in Hr.
Qed.

Lemma plane_eq Y Y' :
  raster Y → raster Y' → compatible Y Y' →
  (∀ x y, 0 ≤ x < width Y → 0 ≤ y < height Y → p Y x y = p Y' x y) →
  Y = Y'.
Proof.
  intros (Hw & Hh & Hlen) (_ & _ & Hlen') (Hww & Hhh) Hp.
  destruct Y as [w h l], Y' as [w' h' l']; simpl in *. subst w' h'.
  f_equal. apply list_eq. intros i.
  destruct (decide (i < Z.to_nat (w * h))%nat) as [Hi|Hi].
  - assert (0 < w) by nia.
    specialize (Hp (Z.of_nat i `mod` w) (Z.of_nat i `div` w)).
    unfold p, pixel_index in Hp. simpl in Hp.
    pose proof (Z.mod_pos_bound (Z.of_nat i) w) as Hmod.
    pose proof (Z.div_mod (Z.of_nat i) w) as Hdiv.
    assert (0 ≤ Z.of_nat i `div` w) by (apply Z.div_pos; lia).
    assert (Z.of_nat i `div` w < h).
    { apply Z.div_lt_upper_bound; lia. }
    replace (Z.of_nat i `div` w * w + Z.of_nat i `mod` w) with (Z.of_nat i)
      in Hp by lia.
    rewrite bool_decide_true in Hp by lia. simpl in Hp.
    rewrite Nat2Z.id in Hp. apply Hp; lia.
  - rewrite !lookup_ge_None_2 by lia. done.
Qed.

Lemma generation_full T F k X :
  raster X →
  ∃ Y, generation T F (full_kernel k) X = Some Y
       ∧ full_generation T F (Z.of_nat k) X Y.
Proof.
  intros HX.
  destruct (generation_fits T F X (full_kernel k) HX (kernel_fits_full k))
    as [Y HY].
  exists Y. split; [done|].
  destruct (generation_raster _ _ _ _ _ HX HY) as (HYr & HYc).
  split; [done|]. split; [done|]. intros x y Hx Hy.
  rewrite (p_generation T F (full_kernel k) X Y x y) by done.
  unfold new_pixel.
  destruct (scan_pixel_full T X k x y HX) as (c & -> & Hc). simpl.
  destruct c.
  - left. split; [done|]. by apply Hc.
  - right. split; [done|]. intros Hnear. apply Hc in Hnear. done.
Qed.

Lemma near_sym k w h x y x' y' :
  0 ≤ x < w → 0 ≤ y < h → near k w h x y x' y' → near k w h x' y' x y.
Proof. unfold near. lia. Qed.

Lemma near_bounds k w h x y x' y' :
  near k w h x y x' y' → 0 ≤ x' < w ∧ 0 ≤ y' < h.
Proof. unfold near. lia. Qed.

Lemma p_binary X x y v :
  binary X → p X x y = Some v → v = 0 ∨ v = 1.
Proof.
  intros HX Hv. unfold p in Hv.
  destruct (pixel_index X x y) as [i|]; simplify_eq/=.
  by apply (Forall_lookup_1 _ _ _ _ HX) in Hv.
Qed.

(** With the kernel of one active cell, of side 1, both transforms are the
    identity on binary rasters: the scan visits the pixel itself only. *)
Lemma unit_kernel_is_identity X :
  raster X → binary X →
  generation 1 0 [true] X = Some X ∧ generation 0 1 [true] X = Some X.
Proof.
  intros HX Hbin.
  assert (Hsame : ∀ T F Y, (T = 0 ∧ F = 1) ∨ (T = 1 ∧ F = 0) →
            full_generation T F 0 X Y → Y = X).
  { intros T F Y HTF (HYr & (HYw & HYh) & HYp).
    apply plane_eq; [done|done|done|]. intros x y Hx Hy.
    rewrite HYw in Hx. rewrite HYh in Hy.
    destruct (p_raster X x y HX Hx Hy) as [v Hv].
    destruct (p_binary X x y v Hbin Hv) as [->| ->];
      destruct (HYp x y Hx Hy) as [(-> & x' & y' & Hn & HT)|(-> & Hnone)].
    - assert (x' = x ∧ y' = y) as [-> ->] by (unfold near in Hn; lia).
      congruence.
    - rewrite Hv. f_equal. destruct HTF as [[-> ->]|[-> ->]]; [|done].
      destruct Hnone. exists x, y. unfold near. split; [lia|done].
    - assert (x' = x ∧ y' = y) as [-> ->] by (unfold near in Hn; lia).
      congruence.
    - rewrite Hv. f_equal. destruct HTF as [[-> ->]|[-> ->]]; [done|].
      destruct Hnone. exists x, y. unfold near. split; [lia|done]. }
  split.
  - destruct (generation_full 1 0 0 X HX) as (Y & HY & HYf).
    change (full_kernel 0) with [true] in HY. rewrite HY. f_equal.
    apply (Hsame 1 0); auto.
  - destruct (generation_full 0 1 0 X HX) as (Y & HY & HYf).
    change (full_kernel 0) with [true] in HY. rewrite HY. f_equal.
    apply (Hsame 0 1); auto.
Qed.

(** Erode, Dilate, Erode, Dilate with a full kernel is Erode, Dilate. *)
Lemma opening_twice k X E O E' O' :
  full_generation 0 1 k X E → full_generation 1 0 k E O →
  full_generation 0 1 k O E' → full_generation 1 0 k E' O' →
  O' = O.
Proof.
  intros (HE & (HEw & HEh) & _) (HO & (HOw & HOh) & HOp)
    (HE' & (HEw' & HEh') & HEp') (HO' & (HOw' & HOh') & HOp').
  rewrite HOw, HOh in HEp'. rewrite HEw', HEh', HOw, HOh in HOp'.
  apply plane_eq; [done|done|split; congruence|].
  intros x y Hx Hy. rewrite HOw', HEw', HOw in Hx. rewrite HOh', HEh', HOh in Hy.
  destruct (HOp' x y Hx Hy) as [(-> & x1 & y1 & Hn1 & H1)|(-> & Hnone')];
    destruct (HOp x y Hx Hy) as [(-> & x2 & y2 & Hn2 & H2)|(-> & Hnone)];
    try done; exfalso.
  - (* a neighbour is foreground in E', so O is foreground around it *)
    destruct (near_bounds _ _ _ _ _ _ _ Hn1) as (Hx1 & Hy1).
    destruct (HEp' x1 y1 Hx1 Hy1) as [(HE1 & _)|(_ & Hall)]; [congruence|].
    apply Hall. exists x, y. split; [by apply near_sym|].
    destruct (HOp x y Hx Hy) as [(_ & x2 & y2 & Hn2 & H2)|(HO0 & _)]; [|done].
    destruct Hnone. by exists x2, y2.
  - (* a neighbour is foreground in E, so it is foreground in E' *)
    destruct (near_bounds _ _ _ _ _ _ _ Hn2) as (Hx2 & Hy2).
    apply Hnone'. exists x2, y2. split; [done|].
    destruct (HEp' x2 y2 Hx2 Hy2) as [(_ & x3 & y3 & Hn3 & H3)|(HE1 & _)];
      [|done].
    destruct (near_bounds _ _ _ _ _ _ _ Hn3) as (Hx3 & Hy3).
    destruct (HOp x3 y3 Hx3 Hy3) as [(HO1 & _)|(_ & Hnone3)]; [congruence|].
    destruct Hnone3. exists x2, y2. split; [by apply near_sym|done].
Qed.

(** Dilate, Erode, Dilate, Erode with a full kernel is Dilate, Erode. *)
Lemma closing_twice k X D C D' C' :
  full_generation 1 0 k X D → full_generation 0 1 k D C →
  full_generation 1 0 k C D' → full_generation 0 1 k D' C' →
  C' = C.
Proof.
  intros (HD & (HDw & HDh) & _) (HC & (HCw & HCh) & HCp)
    (HD' & (HDw' & HDh') & HDp') (HC' & (HCw' & HCh') & HCp').
  rewrite HCw, HCh in HDp'. rewrite HDw', HDh', HCw, HCh in HCp'.
  apply plane_eq; [done|done|split; congruence|].
  intros x y Hx Hy. rewrite HCw', HDw', HCw in Hx. rewrite HCh', HDh', HCh in Hy.
  destruct (HCp' x y Hx Hy) as [(-> & x1 & y1 & Hn1 & H1)|(-> & Hnone')];
    destruct (HCp x y Hx Hy) as [(-> & x2 & y2 & Hn2 & H2)|(-> & Hnone)];
    try done; exfalso.
  - (* a neighbour is background in D', so C is background around it *)
    destruct (near_bounds _ _ _ _ _ _ _ Hn1) as (Hx1 & Hy1).
    destruct (HDp' x1 y1 Hx1 Hy1) as [(HD1 & _)|(_ & Hall)]; [congruence|].
    apply Hall. exists x, y. split; [by apply near_sym|].
    destruct (HCp x y Hx Hy) as [(_ & x2 & y2 & Hn2 & H2)|(HC1 & _)]; [|done].
    destruct Hnone. by exists x2, y2.
  - (* a neighbour is background in D, so it is background in D' *)
    destruct (near_bounds _ _ _ _ _ _ _ Hn2) as (Hx2 & Hy2).
    apply Hnone'. exists x2, y2. split; [done|].
    destruct (HDp' x2 y2 Hx2 Hy2) as [(_ & x3 & y3 & Hn3 & H3)|(HD0 & _)];
      [|done].
    destruct (near_bounds _ _ _ _ _ _ _ Hn3) as (Hx3 & Hy3).
    destruct (HCp x3 y3 Hx3 Hy3) as [(HC0 & _)|(_ & Hnone3)]; [congruence|].
    destruct Hnone3. exists x2, y2. split; [by apply near_sym|done].
Qed.

Lemma opening_full_twice k X :
  raster X →
  ∃ E O E',
    generations 0 1 (full_kernel k) 1 X = Some E
    ∧ generations 1 0 (full_kernel k) 1 E = Some O
    ∧ generations 0 1 (full_kernel k) 1 O = Some E'
    ∧ generations 1 0 (full_kernel k) 1 E' = Some O
    ∧ raster O ∧ compatible O X.
Proof.
  intros HX. setoid_rewrite generations_one.
  destruct (generation_full 0 1 k X HX) as (E & HE & HEf).
  pose proof HEf as (HEr & HEc & _).
  destruct (generation_full 1 0 k E HEr) as (O & HO & HOf).
  pose proof HOf as (HOr & HOc & _).
  destruct (generation_full 0 1 k O HOr) as (E' & HE' & HEf').
  pose proof HEf' as (HEr' & _ & _).
  destruct (generation_full 1 0 k E' HEr') as (O' & HO' & HOf').
  exists E, O, E'. rewrite <- (opening_twice _ X E O E' O') at 3 by done.
  do 5 (split; [done|]). destruct HEc, HOc. split; congruence.
Qed.

Lemma closing_full_twice k X :
  raster X →
  ∃ D C D',
    generations 1 0 (full_kernel k) 1 X = Some D
    ∧ generations 0 1 (full_kernel k) 1 D = Some C
    ∧ generations 1 0 (full_kernel k) 1 C = Some D'
    ∧ generations 0 1 (full_kernel k) 1 D' = Some C
    ∧ raster C ∧ compatible C X.
Proof.
  intros HX. setoid_rewrite generations_one.
  destruct (generation_full 1 0 k X HX) as (D & HD & HDf).
  pose proof HDf as (HDr & HDc & _).
  destruct (generation_full 0 1 k D HDr) as (C & HC & HCf).
  pose proof HCf as (HCr & HCc & _).
  destruct (generation_full 1 0 k C HCr) as (D' & HD' & HDf').
  pose proof HDf' as (HDr' & _ & _).
  destruct (generation_full 0 1 k D' HDr') as (C' & HC' & HCf').
  exists D, C, D'. rewrite <- (closing_twice _ X D C D' C') at 3 by done.
  do 5 (split; [done|]). destruct HDc, HCc. split; congruence.
Qed.

(** C4 (counterexample).  With the kernel of the centre cell and the cell
    to its right, on rasters of width 4 and height 3: Opening the result of
    Opening, and Closing the result of Closing, change the raster again. *)
Lemma opening_closing_not_idempotent :
  let X := Plane 4 3 [0; 0; 0; 0;
                      0; 0; 0; 0;
                      0; 0; 1; 1] in
  let O := Plane 4 3 [0; 0; 1; 0;
                      1; 0; 1; 1;
                      0; 1; 1; 0] in
  let O' := Plane 4 3 [0; 1; 1; 0;
                       1; 1; 1; 1;
                       0; 1; 1; 0] in
  let X' := Plane 4 3 [0; 0; 0; 0;
                       0; 0; 0; 1;
                       0; 0; 0; 1] in
  let C := Plane 4 3 [1; 0; 1; 1;
                      0; 0; 1; 0;
                      1; 0; 0; 1] in
  let C' := Plane 4 3 [1; 1; 1; 1;
                       0; 1; 1; 0;
                       1; 0; 0; 1] in
  (plane_after 2%positive
     (open 1%positive 2%positive 1 right_kernel S (two_planes X X))
   = Some O
   ∧ plane_after 2%positive
       (open 1%positive 2%positive 1 right_kernel S (two_planes X X)
        ≫= open 2%positive 2%positive 1 right_kernel S)
     = Some O'
   ∧ O' ≠ O)
  ∧ (plane_after 2%positive
       (close 1%positive 2%positive 1 right_kernel S (two_planes X' X'))
     = Some C
     ∧ plane_after 2%positive
         (close 1%positive 2%positive 1 right_kernel S (two_planes X' X')
          ≫= close 2%positive 2%positive 1 right_kernel S)
       = Some C'
     ∧ C' ≠ C).
Proof. by vm_compute. Qed.

Section Idempotence.
Context {St : Type}.
Implicit Types σ : state St.

(** C4 (amended).  For every raster X and every structuring element of odd
    side with every cell active, with iterations = 1, Opening applied to
    the result of Opening gives that result again, and Closing applied to
    the result of Closing gives that result again. *)
Theorem opening_closing_idempotent_full_kernel (k : nat) src dst dst'
  (cb : St → St) X D D' σ :
  heap σ !! src = Some X → heap σ !! dst = Some D → heap σ !! dst' = Some D' →
  raster X → raster D → raster D' → compatible X D → compatible X D' →
  (∃ σ1 σ2 O,
     open src dst 1 (full_kernel k) cb σ = Some σ1
     ∧ heap σ1 !! dst = Some O
     ∧ open dst dst' 1 (full_kernel k) cb σ1 = Some σ2
     ∧ heap σ2 !! dst' = Some O)
  ∧ (∃ σ1 σ2 C,
       close src dst 1 (full_kernel k) cb σ = Some σ1
       ∧ heap σ1 !! dst = Some C
       ∧ close dst dst' 1 (full_kernel k) cb σ1 = Some σ2
       ∧ heap σ2 !! dst' = Some C).
Proof.
  intros Hsrc Hdst Hdst' HX HD HD' HXD HXD'. split.
  - destruct (opening_full_twice k X HX)
      as (E & O & E' & HE & HO & HE' & HO' & HOr & HOc).
    rewrite (open_generations src dst 1 (full_kernel k) cb X D) by done.
    change (Z.to_nat 1) with 1%nat. rewrite HE. cbn [mbind option_bind].
    rewrite HO. cbn [mbind option_bind].
    eexists _, _, O. split; [done|]. cbn [heap sink].
    split; [by rewrite lookup_insert_eq|].
    assert (∃ D'', <[dst:=O]> (heap σ) !! dst' = Some D''
                   ∧ raster D'' ∧ compatible O D'') as (D'' & HD'' & ? & ?).
    { destruct (decide (dst = dst')) as [<-|].
      - exists O. by rewrite lookup_insert_eq.
      - exists D'. rewrite lookup_insert_ne by done.
        do 2 (split; [done|]). destruct HOc, HXD'. split; congruence. }
    rewrite (open_generations dst dst' 1 (full_kernel k) cb O D'');
      cbn [heap sink]; [|by rewrite lookup_insert_eq|done..].
    change (Z.to_nat 1) with 1%nat. rewrite HE'. cbn [mbind option_bind].
    rewrite HO'. cbn [mbind option_bind heap].
    split; [done|]. cbn [heap]. by rewrite lookup_insert_eq.
  - destruct (closing_full_twice k X HX)
      as (E & C & E' & HE & HC & HE' & HC' & HCr & HCc).
    rewrite (close_generations src dst 1 (full_kernel k) cb X D) by done.
    change (Z.to_nat 1) with 1%nat. rewrite HE. cbn [mbind option_bind].
    rewrite HC. cbn [mbind option_bind].
    eexists _, _, C. split; [done|]. cbn [heap sink].
    split; [by rewrite lookup_insert_eq|].
    assert (∃ D'', <[dst:=C]> (heap σ) !! dst' = Some D''
                   ∧ raster D'' ∧ compatible C D'') as (D'' & HD'' & ? & ?).
    { destruct (decide (dst = dst')) as [<-|].
      - exists C. by rewrite lookup_insert_eq.
      - exists D'. rewrite lookup_insert_ne by done.
        do 2 (split; [done|]). destruct HCc, HXD'. split; congruence. }
    rewrite (close_generations dst dst' 1 (full_kernel k) cb C D'');
      cbn [heap sink]; [|by rewrite lookup_insert_eq|done..].
    change (Z.to_nat 1) with 1%nat. rewrite HE'. cbn [mbind option_bind].
    rewrite HC'. cbn [mbind option_bind heap].
    split; [done|]. cbn [heap]. by rewrite lookup_insert_eq.
Qed.

End Idempotence.

(** ** The kernel index at the border

    Where the whole window lies inside the raster, flag number
    (ky + k) * (2 * k + 1) + (kx + k) is the flag of the offset (kx, ky).
    The index advances for the cells inside the raster only (the [continue]
    of line 79 comes before the [i++] of line 82), so at the border the
    flags are paired with other offsets. *)

Lemma inner_scan_interior T X kernel x y ky (n : nat) : ∀ a s,
  raster X → cancel s = false →
  0 ≤ x + a → x + a + Z.of_nat n ≤ width X → 0 ≤ y + ky < height X →
  (kernel_i s + n ≤ length kernel)%nat →
  ∃ s', for_until cancel (scan_cell T X kernel x y ky) (seqZ a (Z.of_nat n)) s
        = Some s'
        ∧ ((cancel s' = true
            ∧ ∃ j, (j < n)%nat
                   ∧ kernel !! (kernel_i s + j)%nat = Some true
                   ∧ p X (x + a + Z.of_nat j) (y + ky) = Some T)
           ∨ (cancel s' = false
              ∧ kernel_i s' = (kernel_i s + n)%nat
              ∧ ∀ j, (j < n)%nat →
                     kernel !! (kernel_i s + j)%nat = Some true →
                     p X (x + a + Z.of_nat j) (y + ky) ≠ Some T)).
Proof.
  induction n as [|n IH]; intros a s HX Hs Ha Han Hy Hlen.
  { exists s. split; [done|]. right. split; [done|]. split; [lia|].
    intros j Hj. lia. }
  rewrite seqZ_succ. simpl. rewrite Hs.
  destruct (p_raster X (x + a) (y + ky)) as [v Hv]; [done|lia|lia|].
  destruct (lookup_lt_is_Some_2 kernel (kernel_i s)) as [mask Hmask]; [lia|].
  assert (Hcell : scan_cell T X kernel x y ky a s
                  = Some (ScanState (mask && bool_decide (v = T))
                            (S (kernel_i s)))).
  { unfold scan_cell. rewrite bool_decide_false by lia. by rewrite Hv, Hmask. }
  rewrite Hcell. simpl.
  destruct (mask && bool_decide (v = T)) eqn:Hhit.
  - exists (ScanState true (S (kernel_i s))).
    split. { destruct n; [done|]. by rewrite seqZ_succ. }
    left. split; [done|]. exists 0%nat.
    apply andb_true_iff in Hhit as [-> Hv'].
    apply bool_decide_eq_true in Hv' as ->.
    rewrite Nat.add_0_r, Z.add_0_r. split; [lia|done].
  - destruct (IH (a + 1) (ScanState false (S (kernel_i s))))
      as (s' & Hrun & Hcases); simpl; try done; try lia.
    exists s'. split; [done|]. simpl in Hcases.
    destruct Hcases as [(Hc & j & Hj & Hk & Hp)|(Hc & Hi & Hnone)].
    + left. split; [done|]. exists (S j). split; [lia|].
      split; [rewrite <- Hk; f_equal; lia|].
      by replace (x + a + Z.of_nat (S j)) with (x + (a + 1) + Z.of_nat j)
        by lia.
    + right. split; [done|]. split; [lia|]. intros j Hj Hk.
      destruct j as [|j].
      * rewrite Nat.add_0_r in Hk. rewrite Z.add_0_r, Hv.
        assert (mask = true) as -> by congruence. simpl in Hhit.
        apply bool_decide_eq_false in Hhit. congruence.
      * replace (x + a + Z.of_nat (S j)) with (x + (a + 1) + Z.of_nat j)
          by lia.
        apply Hnone; [lia|]. rewrite <- Hk. f_equal. lia.
Qed.

Lemma outer_scan_interior T X kernel x y a (n m : nat) : ∀ b s,
  raster X → cancel s = false →
  0 ≤ x + a → x + a + Z.of_nat n ≤ width X →
  0 ≤ y + b → y + b + Z.of_nat m ≤ height X →
  (kernel_i s + m * n ≤ length kernel)%nat →
  ∃ s', for_until cancel
          (λ ky, for_until cancel (scan_cell T X kernel x y ky)
                   (seqZ a (Z.of_nat n)))
          (seqZ b (Z.of_nat m)) s
        = Some s'
        ∧ ((cancel s' = true
            ∧ ∃ r j, (r < m)%nat ∧ (j < n)%nat
                     ∧ kernel !! (kernel_i s + r * n + j)%nat = Some true
                     ∧ p X (x + a + Z.of_nat j) (y + b + Z.of_nat r) = Some T)
           ∨ (cancel s' = false
              ∧ kernel_i s' = (kernel_i s + m * n)%nat
              ∧ ∀ r j, (r < m)%nat → (j < n)%nat →
                       kernel !! (kernel_i s + r * n + j)%nat = Some true →
                       p X (x + a + Z.of_nat j) (y + b + Z.of_nat r) ≠ Some T)).
Proof.
  induction m as [|m IH]; intros b s HX Hs Ha Han Hb Hbm Hlen.
  { exists s. split; [done|]. right. split; [done|]. split; [lia|].
    intros r j Hr. lia. }
  rewrite seqZ_succ. simpl. rewrite Hs.
  destruct (inner_scan_interior T X kernel x y b n a s)
    as (s1 & -> & Hcases); try done; try lia.
  simpl. destruct Hcases as [(Hc & j & Hj & Hk & Hp)|(Hc & Hi & Hnone)].
  - exists s1. split. { destruct m; [done|]. rewrite seqZ_succ. simpl.
                        by rewrite Hc. }
    left. split; [done|]. exists 0%nat, j. rewrite Z.add_0_r.
    do 2 (split; [lia|]). split; [|done]. rewrite <- Hk. f_equal. lia.
  - destruct (IH (b + 1) s1) as (s' & Hrun & Hcases); try done; try lia.
    exists s'. split; [done|]. rewrite Hi in Hcases.
    destruct Hcases as [(Hc' & r & j & Hr & Hj & Hk & Hp)|(Hc' & Hi' & Hnone')].
    + left. split; [done|]. exists (S r), j. do 2 (split; [lia|]).
      split; [rewrite <- Hk; f_equal; lia|].
      by replace (y + b + Z.of_nat (S r)) with (y + (b + 1) + Z.of_nat r)
        by lia.
    + right. split; [done|]. split; [lia|]. intros r j Hr Hj Hk.
      destruct r as [|r].
      * rewrite Z.add_0_r. apply Hnone; [done|].
        rewrite <- Hk. f_equal. lia.
      * replace (y + b + Z.of_nat (S r)) with (y + (b + 1) + Z.of_nat r)
          by lia.
        apply Hnone'; [lia|done|]. rewrite <- Hk. f_equal. lia.
Qed.

(** At a pixel whose window lies inside the raster, the scan of a kernel of
    side 2 * k + 1 finds [T] exactly when an active flag, taken in the flat
    order of the kernel, has [T] at its offset. *)
Lemma interior_scan_fixed_mapping T X kernel (k : nat) x y :
  raster X → length kernel = ((2 * k + 1) * (2 * k + 1))%nat →
  Z.of_nat k ≤ x → x + Z.of_nat k < width X →
  Z.of_nat k ≤ y → y + Z.of_nat k < height X →
  ∃ c, scan_pixel T X kernel (kernel_offset kernel) x y = Some c
       ∧ (c = true ↔
          ∃ ky kx, - Z.of_nat k ≤ ky ≤ Z.of_nat k
                   ∧ - Z.of_nat k ≤ kx ≤ Z.of_nat k
                   ∧ kernel !! Z.to_nat ((ky + Z.of_nat k) * (2 * Z.of_nat k + 1)
                                         + (kx + Z.of_nat k)) = Some true
                   ∧ p X (x + kx) (y + ky) = Some T).
Proof.
  intros HX Hlen Hx1 Hx2 Hy1 Hy2.
  destruct (kernel_odd_square kernel k Hlen) as (Hoff & _).
  unfold scan_pixel, kernel_range. rewrite Hoff.
  replace (2 * Z.of_nat k + 1) with (Z.of_nat (2 * k + 1)) by lia.
  destruct (outer_scan_interior T X kernel x y (- Z.of_nat k) (2 * k + 1)
              (2 * k + 1) (- Z.of_nat k) (ScanState false 0))
    as (s' & -> & Hcases); simpl; try done; try lia.
  exists (cancel s'). split; [done|]. simpl in Hcases.
  destruct Hcases as [(-> & r & j & Hr & Hj & Hk & Hp)|(-> & _ & Hnone)].
  - split; [intros _|done].
    exists (Z.of_nat r - Z.of_nat k), (Z.of_nat j - Z.of_nat k).
    do 2 (split; [lia|]). split.
    + rewrite <- Hk. f_equal. lia.
    + rewrite <- Hp. f_equal; lia.
  - split; [done|]. intros (ky & kx & Hky & Hkx & Hk & Hp). exfalso.
    apply (Hnone (Z.to_nat (ky + Z.of_nat k)) (Z.to_nat (kx + Z.of_nat k)));
      [lia|lia|..].
    + rewrite <- Hk. f_equal. nia.
    + rewrite <- Hp. f_equal; lia.
Qed.

(** C1 (the code at the failing input).  The kernel has one active flag,
    the first, which belongs to the offset (-1, -1).  At pixel (0, 0) that
    neighbour lies outside the raster, yet the scan finds a foreground
    pixel: it pairs the first flag with the first cell inside the raster,
    the pixel itself.  The generation has four foreground pixels where the
    mapping of the interior pixels gives one, (1, 1). *)
Theorem corner_scan_shifts_flags :
  scan_pixel 1 corner_raster corner_kernel (kernel_offset corner_kernel) 0 0
  = Some true
  ∧ generation 1 0 corner_kernel corner_raster
    = Some (Plane 3 3 [1; 1; 0;
                       1; 1; 0;
                       0; 0; 0]).
Proof. by vm_compute. Qed.

(** C2 (the code at the failing input).  With the identity kernel one
    iteration of Dilate clears the foreground pixel (0, 0), and one
    iteration of Erode sets the four corners of a raster of background. *)
Theorem identity_kernel_changes_boundary :
  plane_after 2%positive
    (dilate 1%positive 2%positive 1 identity_kernel S
       (two_planes corner_raster empty_raster))
  = Some empty_raster
  ∧ plane_after 2%positive
      (erode 1%positive 2%positive 1 identity_kernel S
         (two_planes empty_raster empty_raster))
    = Some (Plane 3 3 [1; 0; 1;
                       0; 0; 0;
                       1; 0; 1]).
Proof. by vm_compute. Qed.

(** * The theorems at concrete inputs *)

Lemma erode_dilate_duality_witness :
  plane_after 2%positive
    (erode 1%positive 2%positive 1 right_kernel S
       (two_planes corner_raster empty_raster))
  = negate <$>
      plane_after 2%positive
        (dilate 1%positive 2%positive 1 right_kernel S
           (State
              (<[1%positive:=negate corner_raster]>
                 (heap (two_planes corner_raster empty_raster)))
              (sink (two_planes corner_raster empty_raster)))).
Proof.
  apply (erode_dilate_duality 1%positive 2%positive right_kernel S
           corner_raster empty_raster).
  - reflexivity.
  - reflexivity.
  - discriminate.
  - unfold raster. simpl. lia.
  - unfold raster. simpl. lia.
  - unfold compatible. simpl. lia.
Defined.

Lemma destination_holds_final_generation_witness :
  plane_after 2%positive
    (applyMorphology 1 0 1%positive 2%positive 2 (full_kernel 1) S
       (two_planes corner_raster empty_raster))
  = generations 1 0 (full_kernel 1) (Z.to_nat 2) corner_raster.
Proof.
  refine (proj1 (destination_holds_final_generation 1 0 1%positive 2%positive
                   2 (full_kernel 1) S corner_raster empty_raster
                   (two_planes corner_raster empty_raster) _ _ _ _ _ _ _)).
  - lia.
  - reflexivity.
  - reflexivity.
  - discriminate.
  - unfold raster. simpl. lia.
  - unfold raster. simpl. lia.
  - unfold compatible. simpl. lia.
Defined.

Lemma source_plane_unchanged_witness :
  keeps_source 1%positive 2%positive (two_planes corner_raster empty_raster)
    (dilate 1%positive 2%positive 3 right_kernel S
       (two_planes corner_raster empty_raster)).
Proof.
  refine (proj1 (source_plane_unchanged 1%positive 2%positive 3 right_kernel S
                   corner_raster empty_raster
                   (two_planes corner_raster empty_raster) _ _ _ _ _ _)).
  - reflexivity.
  - reflexivity.
  - discriminate.
  - unfold raster. simpl. lia.
  - unfold raster. simpl. lia.
  - unfold compatible. simpl. lia.
Defined.

Lemma no_iteration_is_identity_witness :
  open 1%positive 2%positive 0 identity_kernel S
    (two_planes corner_raster empty_raster)
  = Some (State
            (<[2%positive:=corner_raster]>
               (heap (two_planes corner_raster empty_raster)))
            (sink (two_planes corner_raster empty_raster))).
Proof.
  refine (proj1 (proj2 (proj2 (no_iteration_is_identity 1%positive 2%positive
                   identity_kernel S corner_raster empty_raster
                   (two_planes corner_raster empty_raster) _ _)))).
  - reflexivity.
  - reflexivity.
Defined.

Lemma scenario_A_dilate_witness :
  plane_after 2%positive
    (dilate 1%positive 2%positive 1 (full_kernel 1) S
       (two_planes speck_raster speck_raster))
  = Some block_raster.
Proof.
  refine (proj1 (scenario_A_dilate 1%positive 2%positive S speck_raster
                   (two_planes speck_raster speck_raster) _ _ _ _)).
  - reflexivity.
  - reflexivity.
  - unfold raster. simpl. lia.
  - unfold compatible. simpl. lia.
Defined.

Lemma opening_closing_idempotent_full_kernel_witness :
  ∃ σ1 σ2 O,
    open 1%positive 2%positive 1 (full_kernel 1) S
      (two_planes block_raster block_raster) = Some σ1
    ∧ heap σ1 !! 2%positive = Some O
    ∧ open 2%positive 2%positive 1 (full_kernel 1) S σ1 = Some σ2
    ∧ heap σ2 !! 2%positive = Some O.
Proof.
  refine (proj1 (opening_closing_idempotent_full_kernel 1 1%positive
                   2%positive 2%positive S block_raster block_raster
                   block_raster (two_planes block_raster block_raster)
                   _ _ _ _ _ _ _ _)).
  - reflexivity.
  - reflexivity.
  - reflexivity.
  - unfold raster. simpl. lia.
  - unfold raster. simpl. lia.
  - unfold raster. simpl. lia.
  - unfold compatible. simpl. lia.
  - unfold compatible. simpl. lia.
Defined.

Lemma progress_fractions_witness :
  ∃ o,
    processInputData background_pixels None 1%positive
      [1; 1; 1; 1; 1; 1; 1; 1; 1] 1 OPEN {[1%positive := speck_raster]}
    = Some o
    ∧ fractions o
      = (λ k, 100 * inject_Z k / inject_Z 10)%Q <$> seqZ 1 10.
Proof.
  eexists. split; [vm_compute; reflexivity|].
  refine (proj1 (progress_fractions background_pixels None 1%positive
                   [1; 1; 1; 1; 1; 1; 1; 1; 1] 1 OPEN
                   {[1%positive := speck_raster]} speck_raster _
                   _ _ _ _ _ _)).
  - intros w h. apply length_replicate.
  - discriminate.
  - reflexivity.
  - unfold raster. simpl. lia.
  - right. right. left. reflexivity.
  - vm_compute. reflexivity.
Defined.

Lemma no_request_is_rejected_witness :
  let h : gmap loc IPLImagePlane := {[1%positive := corner_raster]} in
  processInputData background_pixels None 1%positive
    [0; 0; 0; 0; 1; 0; 0; 0; 0] 0 DILATE h
  = Some (Outcome true (fresh (dom h)) (<[fresh (dom h):=corner_raster]> h) []).
Proof.
  intros h.
  refine (proj1 (no_request_is_rejected background_pixels None 1%positive
                   [0; 0; 0; 0; 1; 0; 0; 0; 0] 0 DILATE h corner_raster
                   _ _ _ _) _ _).
  - intros w h'. apply length_replicate.
  - discriminate.
  - reflexivity.
  - unfold raster. simpl. lia.
  - lia.
  - left. reflexivity.
Defined.

(** * Further properties of the morphology engine *)

(** ** The scan, flag by flag *)

Lemma for_until_stopped {A S' : Type} (stop : S' → bool)
  (body : A → S' → option S') l s :
  stop s = true → for_until stop body l s = Some s.
Proof. intros Hs. destruct l; simpl; [done|]. by rewrite Hs. Qed.

Lemma inner_walk T X kernel x y ky kxs : ∀ s,
  cancel s = false →
  for_until cancel (scan_cell T X kernel x y ky) kxs s
  = walk T X kernel (kernel_i s) (row_visited X x y ky kxs).
Proof.
  induction kxs as [|kx kxs IH]; intros s Hs.
  { destruct s as [c i]. simpl in *. by subst. }
  unfold row_visited. rewrite bind_cons. fold (row_visited X x y ky kxs).
  simpl for_until. rewrite Hs. unfold scan_cell.
  case_bool_decide as Hout; case_bool_decide as Hin; try lia.
  - simpl. by apply IH.
  - simpl.
    destruct (p X (x + kx) (y + ky)) as [v|]; simpl; [|done].
    destruct (kernel !! kernel_i s) as [mask|]; simpl; [|done].
    destruct (mask && bool_decide (v = T)) eqn:Hhit.
    + by apply for_until_stopped.
    + by apply (IH (ScanState false (S (kernel_i s)))).
Qed.

Lemma walk_app T X kernel cells1 cells2 : ∀ i,
  walk T X kernel i (cells1 ++ cells2)
  = s ← walk T X kernel i cells1;
    if cancel s then Some s else walk T X kernel (kernel_i s) cells2.
Proof.
  induction cells1 as [|c cells1 IH]; intros i; simpl; [done|].
  destruct (p X c.1 c.2) as [v|]; simpl; [|done].
  destruct (kernel !! i) as [mask|]; simpl; [|done].
  destruct (mask && bool_decide (v = T)); [done|]. apply IH.
Qed.

Lemma outer_walk T X kernel x y kxs kys : ∀ s,
  cancel s = false →
  for_until cancel
    (λ ky, for_until cancel (scan_cell T X kernel x y ky) kxs) kys s
  = walk T X kernel (kernel_i s) (ky ← kys; row_visited X x y ky kxs).
Proof.
  induction kys as [|ky kys IH]; intros s Hs.
  { destruct s as [c i]. simpl in *. by subst. }
  rewrite bind_cons, walk_app. simpl for_until. rewrite Hs.
  rewrite inner_walk by done.
  destruct (walk T X kernel (kernel_i s) (row_visited X x y ky kxs))
    as [s1|]; simpl; [|done].
  destruct (cancel s1) eqn:Hs1.
  - by apply for_until_stopped.
  - by apply IH.
Qed.

Lemma scan_pixel_walk T X kernel k x y :
  scan_pixel T X kernel k x y = cancel <$> walk T X kernel 0 (visited X k x y).
Proof.
  unfold scan_pixel, visited.
  rewrite (outer_walk T X kernel x y _ _ (ScanState false 0)) by done.
  by destruct (walk _ _ _ _ _).
Qed.

Lemma walk_flagged T X kernel cells : ∀ i,
  Forall (λ c, is_Some (p X c.1 c.2)) cells →
  cancel <$> walk T X kernel i cells
  = if flagged T X (drop i kernel) cells then Some true
    else if bool_decide (length cells ≤ length (drop i kernel))%nat
         then Some false else None.
Proof.
  induction cells as [|c cells IH]; intros i Hcells.
  { unfold flagged. by rewrite zip_with_nil_r. }
  destruct (Forall_cons_1 _ _ _ Hcells) as [[v Hv] Hcells']. simpl.
  rewrite Hv. simpl.
  destruct (kernel !! i) as [mask|] eqn:Hmask; simpl.
  - rewrite (drop_S _ _ _ Hmask). unfold flagged. simpl. rewrite Hv.
    assert (bool_decide (Some v = Some T) = bool_decide (v = T)) as ->.
    { apply bool_decide_ext. split; congruence. }
    destruct (mask && bool_decide (v = T)); simpl; [done|].
    rewrite IH by done. unfold flagged.
    destruct (existsb _ _); [done|].
    apply (f_equal (λ b : bool, if b then Some false else None)).
    apply bool_decide_ext. lia.
  - rewrite drop_ge by (by apply lookup_ge_None). by unfold flagged.
Qed.

Lemma visited_inside X k x y c :
  c ∈ visited X k x y → 0 ≤ c.1 < width X ∧ 0 ≤ c.2 < height X.
Proof.
  unfold visited, row_visited. intros Hc.
  apply list_elem_of_bind in Hc as (ky & Hc & _).
  apply list_elem_of_bind in Hc as (kx & Hc & _).
  case_bool_decide; [|by apply not_elem_of_nil in Hc].
  apply list_elem_of_singleton in Hc as ->. simpl. lia.
Qed.

Lemma scan_pixel_flagged T X kernel k x y :
  raster X →
  scan_pixel T X kernel k x y
  = if flagged T X kernel (visited X k x y) then Some true
    else if bool_decide (length (visited X k x y) ≤ length kernel)%nat
         then Some false else None.
Proof.
  intros HX. rewrite scan_pixel_walk, walk_flagged; [done|].
  apply Forall_forall. intros c Hc.
  apply list_elem_of_In, visited_inside in Hc as [? ?].
  by apply p_raster.
Qed.

(** X1.  The scan of a pixel, in full: it reads the neighbours inside the
    raster in window order and applies flag j of the kernel to the j-th of
    them, whatever offset that neighbour has.  It ends with a hit when one
    of these pairs has an active flag and the value [T]; otherwise with no
    hit when the kernel has a flag for every neighbour read, and it runs
    off the end of the kernel when it has not. *)
Theorem scan_pairs_flags_with_visited_pixels T X kernel k x y :
  raster X →
  scan_pixel T X kernel k x y
  = if flagged T X kernel (visited X k x y) then Some true
    else if bool_decide (length (visited X k x y) ≤ length kernel)%nat
         then Some false else None.
Proof. apply scan_pixel_flagged. Qed.

(** ** One call as a function of the source plane *)

Lemma plane_after_insert {St : Type} dst (r : option IPLImagePlane)
  (h : gmap loc IPLImagePlane) (s : IPLImagePlane → St) :
  plane_after dst (Y ← r; Some (State (<[dst:=Y]> h) (s Y))) = r.
Proof.
  unfold plane_after. destruct r as [Y|]; simpl; [|done].
  by rewrite lookup_insert_eq.
Qed.

Lemma compatible_refl X : compatible X X.
Proof. done. Qed.

Section Results.
Context {St : Type}.
Implicit Types σ : state St.

Lemma dilate_result src dst iterations kernel (cb : St → St) X D σ :
  heap σ !! src = Some X → heap σ !! dst = Some D →
  raster X → raster D → compatible X D →
  plane_after dst (dilate src dst iterations kernel cb σ)
  = generations 1 0 kernel (Z.to_nat iterations) X.
Proof.
  intros. rewrite (dilate_generations src dst iterations kernel cb X D) by done.
  apply (plane_after_insert dst _ _ (λ _, _)).
Qed.

Lemma erode_result src dst iterations kernel (cb : St → St) X D σ :
  heap σ !! src = Some X → heap σ !! dst = Some D →
  raster X → raster D → compatible X D →
  plane_after dst (erode src dst iterations kernel cb σ)
  = generations 0 1 kernel (Z.to_nat iterations) X.
Proof.
  intros. rewrite (erode_generations src dst iterations kernel cb X D) by done.
  apply (plane_after_insert dst _ _ (λ _, _)).
Qed.

Lemma open_result src dst iterations kernel (cb : St → St) X D σ :
  heap σ !! src = Some X → heap σ !! dst = Some D →
  raster X → raster D → compatible X D →
  plane_after dst (open src dst iterations kernel cb σ)
  = generations 0 1 kernel (Z.to_nat iterations) X
    ≫= generations 1 0 kernel (Z.to_nat iterations).
Proof.
  intros. rewrite (open_generations src dst iterations kernel cb X D) by done.
  unfold plane_after.
  destruct (generations 0 1 kernel _ X) as [Y|]; simpl; [|done].
  destruct (generations 1 0 kernel _ Y) as [Y'|]; simpl; [|done].
  by rewrite lookup_insert_eq.
Qed.

Lemma close_result src dst iterations kernel (cb : St → St) X D σ :
  heap σ !! src = Some X → heap σ !! dst = Some D →
  raster X → raster D → compatible X D →
  plane_after dst (close src dst iterations kernel cb σ)
  = generations 1 0 kernel (Z.to_nat iterations) X
    ≫= generations 0 1 kernel (Z.to_nat iterations).
Proof.
  intros. rewrite (close_generations src dst iterations kernel cb X D) by done.
  unfold plane_after.
  destruct (generations 1 0 kernel _ X) as [Y|]; simpl; [|done].
  destruct (generations 0 1 kernel _ Y) as [Y'|]; simpl; [|done].
  by rewrite lookup_insert_eq.
Qed.

End Results.

Lemma run_dilate iterations kernel X :
  raster X →
  run dilate iterations kernel X = generations 1 0 kernel (Z.to_nat iterations) X.
Proof. intros HX. by apply (dilate_result _ _ _ _ _ X X). Qed.

Lemma run_erode iterations kernel X :
  raster X →
  run erode iterations kernel X = generations 0 1 kernel (Z.to_nat iterations) X.
Proof. intros HX. by apply (erode_result _ _ _ _ _ X X). Qed.

Lemma run_open iterations kernel X :
  raster X →
  run open iterations kernel X
  = generations 0 1 kernel (Z.to_nat iterations) X
    ≫= generations 1 0 kernel (Z.to_nat iterations).
Proof. intros HX. by apply (open_result _ _ _ _ _ X X). Qed.

Lemma run_close iterations kernel X :
  raster X →
  run close iterations kernel X
  = generations 1 0 kernel (Z.to_nat iterations) X
    ≫= generations 0 1 kernel (Z.to_nat iterations).
Proof. intros HX. by apply (close_result _ _ _ _ _ X X). Qed.

(** X2.  When the source and the destination are rasters of the same
    width and height, what a call leaves in the destination depends on the
    source plane, the kernel and the iteration count only: not on the
    pixels the destination buffer held, not on the progress callback, not
    on the other planes of the store nor on where the two planes lie. *)
Theorem result_depends_on_source_only {St : Type} src dst iterations kernel
  (cb : St → St) X D (σ : state St) :
  heap σ !! src = Some X → heap σ !! dst = Some D →
  raster X → raster D → compatible X D →
  plane_after dst (dilate src dst iterations kernel cb σ)
  = run dilate iterations kernel X
  ∧ plane_after dst (erode src dst iterations kernel cb σ)
    = run erode iterations kernel X
  ∧ plane_after dst (open src dst iterations kernel cb σ)
    = run open iterations kernel X
  ∧ plane_after dst (close src dst iterations kernel cb σ)
    = run close iterations kernel X.
Proof.
  intros Hsrc Hdst HX HD HXD.
  rewrite run_dilate, run_erode, run_open, run_close by done.
  split; [by apply (dilate_result _ _ _ _ _ X D)|].
  split; [by apply (erode_result _ _ _ _ _ X D)|].
  split; [by apply (open_result _ _ _ _ _ X D)|].
  by apply (close_result _ _ _ _ _ X D).
Qed.

(** The dimensions have to match: a destination of 3 x 3 pixels keeps, after
    a call on a source of 2 x 2, the pixels the scan of lines 66 and 68
    does not reach. *)
Lemma larger_destination_keeps_pixels :
  plane_after 2%positive
    (dilate 1%positive 2%positive 1 [true] S
       (two_planes (Plane 2 2 [1; 1; 1; 1])
          (Plane 3 3 [9; 9; 9; 9; 9; 9; 9; 9; 9])))
  = Some (Plane 3 3 [1; 1; 9; 1; 1; 9; 9; 9; 9])
  ∧ run dilate 1 [true] (Plane 2 2 [1; 1; 1; 1])
    = Some (Plane 2 2 [1; 1; 1; 1]).
Proof. split; vm_compute; reflexivity. Qed.

(** ** The result is a binary raster *)

Lemma generation_values T F kernel X Y :
  generation T F kernel X = Some Y → Forall (λ v, v = T ∨ v = F) (pixels Y).
Proof.
  unfold generation. intros HY.
  destruct (mapM _ _) as [rows|] eqn:Hrows; simplify_eq/=.
  apply Forall_concat. apply mapM_Some in Hrows.
  apply Forall2_Forall_r with (1 := Hrows).
  apply Forall_forall. intros y _ r Hr. unfold new_row in Hr.
  apply mapM_Some in Hr. apply Forall2_Forall_r with (1 := Hr).
  apply Forall_forall. intros x _ v Hv. unfold new_pixel in Hv.
  destruct (scan_pixel _ _ _ _ _ _) as [[]|]; simplify_eq/=; auto.
Qed.

Lemma generations_last T F kernel n : ∀ X Y,
  raster X → generations T F kernel (S n) X = Some Y →
  ∃ X', raster X' ∧ compatible X' X ∧ generation T F kernel X' = Some Y.
Proof.
  induction n as [|n IH]; intros X Y HX HY.
  - rewrite generations_one in HY. by exists X.
  - change (generations T F kernel (S (S n)) X)
      with (X1 ← generation T F kernel X; generations T F kernel (S n) X1)
      in HY.
    destruct (generation T F kernel X) as [X1|] eqn:HX1; simplify_eq/=.
    destruct (generation_raster _ _ _ _ _ HX HX1) as (HX1r & HX1c).
    destruct (IH X1 Y HX1r HY) as (X' & HX' & HXc' & Hgen).
    exists X'. split; [done|]. split; [|done].
    destruct HXc', HX1c. split; congruence.
Qed.

Lemma generations_binary T F kernel n X Y :
  (T = 0 ∧ F = 1) ∨ (T = 1 ∧ F = 0) →
  raster X → generations T F kernel (S n) X = Some Y →
  raster Y ∧ compatible Y X ∧ binary Y.
Proof.
  intros HTF HX HY.
  destruct (generations_raster _ _ _ _ _ _ HX HY) as (HYr & HYc).
  do 2 (split; [done|]).
  destruct (generations_last _ _ _ _ _ _ HX HY) as (X' & _ & _ & Hgen).
  apply generation_values in Hgen. unfold binary.
  revert Hgen. apply Forall_impl. intros v.
  destruct HTF as [[-> ->]|[-> ->]]; tauto.
Qed.

(** X3.  With an iteration count of at least 1, the plane each of the four
    operations leaves in the destination is a raster of the dimensions of
    the source that holds the two sentinel values 0 and 1 only, whatever
    values the source holds. *)
Theorem result_is_binary iterations kernel X Y :
  raster X → 1 ≤ iterations →
  run dilate iterations kernel X = Some Y
  ∨ run erode iterations kernel X = Some Y
  ∨ run open iterations kernel X = Some Y
  ∨ run close iterations kernel X = Some Y →
  raster Y ∧ compatible Y X ∧ binary Y.
Proof.
  intros HX Hit. rewrite run_dilate, run_erode, run_open, run_close by done.
  destruct (Z.to_nat iterations) as [|n] eqn:Hn; [lia|].
  intros [HY|[HY|[HY|HY]]].
  - apply (generations_binary 1 0 kernel n); auto.
  - apply (generations_binary 0 1 kernel n); auto.
  - destruct (generations 0 1 kernel (S n) X) as [E|] eqn:HE; [|done].
    change (generations 1 0 kernel (S n) E = Some Y) in HY.
    destruct (generations_raster _ _ _ _ _ _ HX HE) as (HEr & HEc).
    destruct (generations_binary 1 0 kernel n E Y) as (? & HYc & ?); auto.
    split; [done|]. split; [|done]. destruct HYc, HEc. split; congruence.
  - destruct (generations 1 0 kernel (S n) X) as [E|] eqn:HE; [|done].
    change (generations 0 1 kernel (S n) E = Some Y) in HY.
    destruct (generations_raster _ _ _ _ _ _ HX HE) as (HEr & HEc).
    destruct (generations_binary 0 1 kernel n E Y) as (? & HYc & ?); auto.
    split; [done|]. split; [|done]. destruct HYc, HEc. split; congruence.
Qed.

(** ** Iterations compose *)

Lemma generations_add T F kernel n m : ∀ X,
  generations T F kernel (n + m) X
  = generations T F kernel n X ≫= generations T F kernel m.
Proof.
  induction n as [|n IH]; intros X; simpl; [done|].
  destruct (generation T F kernel X) as [Y|]; simpl; [|done]. apply IH.
Qed.

Section Composition.
Context {St : Type}.
Implicit Types σ : state St.

(** X4.  A call with n + m iterations is a call with n iterations followed
    by a call with m iterations that takes the destination as its source:
    the same planes, the same number of progress callbacks, and the same
    faults.  This holds for Dilate and for Erode. *)
Theorem iterations_compose src dst n m kernel (cb : St → St) X D σ :
  0 ≤ n → 0 ≤ m →
  heap σ !! src = Some X → heap σ !! dst = Some D →
  raster X → raster D → compatible X D →
  dilate src dst (n + m) kernel cb σ
  = dilate src dst n kernel cb σ ≫= dilate dst dst m kernel cb
  ∧ erode src dst (n + m) kernel cb σ
    = erode src dst n kernel cb σ ≫= erode dst dst m kernel cb.
Proof.
  intros Hn Hm Hsrc Hdst HX HD HXD.
  assert (Hstep : ∀ T F
    (f : loc → loc → Z → list bool → (St → St) → state St → option (state St)),
    (∀ src dst iterations X D σ,
       heap σ !! src = Some X → heap σ !! dst = Some D →
       raster X → raster D → compatible X D →
       f src dst iterations kernel cb σ
       = Y ← generations T F kernel (Z.to_nat iterations) X;
         Some (State (<[dst:=Y]> (heap σ))
                 (Nat.iter (Z.to_nat iterations * Z.to_nat (height X)) cb
                    (sink σ)))) →
    f src dst (n + m) kernel cb σ
    = f src dst n kernel cb σ ≫= f dst dst m kernel cb).
  { intros T F f Hf. rewrite !(Hf src dst _ X D) by done.
    rewrite Z2Nat.inj_add, generations_add by done.
    destruct (generations T F kernel (Z.to_nat n) X) as [Y|] eqn:HY;
      simpl; [|done].
    destruct (generations_raster _ _ _ _ _ _ HX HY) as (HYr & HYw & HYh).
    rewrite (Hf dst dst m Y Y); simpl;
      [|by rewrite lookup_insert_eq..|done|done|done].
    destruct (generations T F kernel (Z.to_nat m) Y) as [Y'|]; simpl; [|done].
    rewrite insert_insert_eq, HYh, <- Nat.iter_add. do 3 f_equal. lia. }
  split.
  - apply (Hstep 1 0 dilate). intros s d i X0 D0 σ0 ? ? ? ? ?.
    by apply (dilate_generations s d i kernel cb X0 D0).
  - apply (Hstep 0 1 erode). intros s d i X0 D0 σ0 ? ? ? ? ?.
    by apply (erode_generations s d i kernel cb X0 D0).
Qed.

End Composition.

(** ** Duality for any iteration count *)

Lemma negate_negate X : negate (negate X) = X.
Proof.
  destruct X as [w h l]. unfold negate. simpl. f_equal.
  rewrite <- list_fmap_compose. rewrite <- (list_fmap_id l) at 2.
  apply list_fmap_ext. intros _ v _. simpl. lia.
Qed.

Lemma generations_negate kernel n : ∀ X,
  generations 0 1 kernel n X = negate <$> generations 1 0 kernel n (negate X).
Proof.
  induction n as [|n IH]; intros X; simpl.
  - by rewrite negate_negate.
  - rewrite generation_negate.
    destruct (generation 1 0 kernel (negate X)) as [Y|]; simpl; [|done].
    by rewrite IH, negate_negate.
Qed.

Lemma generations_negate' kernel n X :
  generations 1 0 kernel n X = negate <$> generations 0 1 kernel n (negate X).
Proof.
  rewrite generations_negate, negate_negate.
  destruct (generations 1 0 kernel n X) as [Y|]; simpl; [|done].
  by rewrite negate_negate.
Qed.

(** X5.  Duality holds for every iteration count and for the compound
    operators: Erode is the negation of Dilate on the negated raster,
    Opening is the negation of Closing on the negated raster, and Closing
    the negation of Opening on the negated raster, for the same kernel;
    the two sides fault together. *)
Theorem duality_for_all_iterations iterations kernel X :
  raster X →
  run erode iterations kernel X
  = negate <$> run dilate iterations kernel (negate X)
  ∧ run open iterations kernel X
    = negate <$> run close iterations kernel (negate X)
  ∧ run close iterations kernel X
    = negate <$> run open iterations kernel (negate X).
Proof.
  intros HX. pose proof (raster_negate X HX) as HnX.
  rewrite !run_dilate, !run_erode, !run_open, !run_close by done.
  set (n := Z.to_nat iterations). split; [apply generations_negate|]. split.
  - rewrite (generations_negate' kernel n (negate X)), negate_negate.
    destruct (generations 0 1 kernel n X) as [E|]; simpl; [|done].
    apply generations_negate'.
  - rewrite (generations_negate kernel n (negate X)), negate_negate.
    destruct (generations 1 0 kernel n X) as [E|]; simpl; [|done].
    apply generations_negate.
Qed.

(** ** The transforms are increasing *)

Lemma new_pixel_cases T F kernel X y x v :
  raster X → new_pixel T F kernel X y x = Some v →
  (flagged T X kernel (visited X (kernel_offset kernel) x y) = true ∧ v = T)
  ∨ (flagged T X kernel (visited X (kernel_offset kernel) x y) = false
     ∧ v = F).
Proof.
  intros HX. unfold new_pixel. rewrite scan_pixel_flagged by done.
  destruct (flagged _ _ _ _); simpl.
  - intros [= <-]. by left.
  - case_bool_decide; simpl; [|done]. intros [= <-]. by right.
Qed.

Lemma visited_compatible X Y k x y :
  compatible X Y → visited X k x y = visited Y k x y.
Proof. intros [Hw Hh]. unfold visited, row_visited. by rewrite Hw, Hh. Qed.

Lemma flagged_impl T T' X Y kernel cells :
  (∀ c, c ∈ cells → p X c.1 c.2 = Some T → p Y c.1 c.2 = Some T') →
  flagged T X kernel cells = true → flagged T' Y kernel cells = true.
Proof.
  intros Himpl. unfold flagged. rewrite !existsb_exists.
  intros ([m c] & Hin & Hhit). exists (m, c). split; [done|]. simpl in *.
  apply andb_true_iff in Hhit as [-> Hp]. simpl.
  apply bool_decide_eq_true in Hp. apply bool_decide_eq_true.
  apply Himpl; [|done]. apply list_elem_of_In in Hin.
  by apply elem_of_zip_r in Hin.
Qed.

Lemma generation_increasing T F kernel X Y A B :
  (T = 0 ∧ F = 1) ∨ (T = 1 ∧ F = 0) →
  raster X → raster Y → included X Y →
  generation T F kernel X = Some A → generation T F kernel Y = Some B →
  raster A ∧ raster B ∧ included A B.
Proof.
  intros HTF HX HY (HXY & Hp) HA HB.
  destruct (generation_raster _ _ _ _ _ HX HA) as (HAr & HAw & HAh).
  destruct (generation_raster _ _ _ _ _ HY HB) as (HBr & HBw & HBh).
  pose proof HXY as (Hw & Hh).
  do 2 (split; [done|]). split; [split; congruence|].
  intros x y Hx Hy.
  assert (is_Some (new_pixel T F kernel X y x)) as [a Ha].
  { rewrite <- (p_generation T F kernel X A x y) by (done || lia).
    by apply p_raster. }
  assert (is_Some (new_pixel T F kernel Y y x)) as [b Hb].
  { rewrite <- (p_generation T F kernel Y B x y) by (done || lia).
    apply p_raster; [done|lia|lia]. }
  rewrite (p_generation T F kernel X A x y), Ha by (done || lia).
  rewrite (p_generation T F kernel Y B x y), Hb by (done || lia).
  assert (Hin : ∀ c, c ∈ visited Y (kernel_offset kernel) x y →
            0 ≤ c.1 < width X ∧ 0 ≤ c.2 < height X).
  { intros c Hc. apply visited_inside in Hc. lia. }
  apply new_pixel_cases in Ha as [[Ha ->]|[Ha ->]]; [| |done];
    apply new_pixel_cases in Hb as [[Hb ->]|[Hb ->]]; try done;
    rewrite (visited_compatible X Y _ _ _ HXY) in Ha;
    destruct HTF as [[-> ->]|[-> ->]];
    try (split; intros; congruence); exfalso.
  - (* Dilate: a foreground pixel of X under an active flag is one of Y *)
    apply (flagged_impl 1 1 X Y) in Ha; [congruence|].
    intros c Hc. apply (Hp c.1 c.2); by apply Hin.
  - (* Erode: a background pixel of Y under an active flag is one of X *)
    apply (flagged_impl 0 0 Y X) in Hb; [congruence|].
    intros c Hc. apply (Hp c.1 c.2); by apply Hin.
Qed.

Lemma generations_increasing T F kernel n : ∀ X Y A B,
  (T = 0 ∧ F = 1) ∨ (T = 1 ∧ F = 0) →
  raster X → raster Y → included X Y →
  generations T F kernel n X = Some A → generations T F kernel n Y = Some B →
  raster A ∧ raster B ∧ included A B.
Proof.
  induction n as [|n IH]; intros X Y A B HTF HX HY HXY HA HB; simpl in *.
  - by simplify_eq.
  - destruct (generation T F kernel X) as [X1|] eqn:HX1; simplify_eq/=.
    destruct (generation T F kernel Y) as [Y1|] eqn:HY1; simplify_eq/=.
    destruct (generation_increasing T F kernel X Y X1 Y1)
      as (? & ? & ?); try done.
    by apply (IH X1 Y1).
Qed.

(** X6.  The four operations are increasing: when every foreground pixel
    of X is foreground in Y, the same holds of the results, for every
    kernel and iteration count. *)
Theorem operations_are_increasing iterations kernel X Y :
  raster X → raster Y → included X Y →
  (∀ A B, run dilate iterations kernel X = Some A →
          run dilate iterations kernel Y = Some B → included A B)
  ∧ (∀ A B, run erode iterations kernel X = Some A →
            run erode iterations kernel Y = Some B → included A B)
  ∧ (∀ A B, run open iterations kernel X = Some A →
            run open iterations kernel Y = Some B → included A B)
  ∧ (∀ A B, run close iterations kernel X = Some A →
            run close iterations kernel Y = Some B → included A B).
Proof.
  intros HX HY HXY.
  rewrite !run_dilate, !run_erode, !run_open, !run_close by done.
  set (n := Z.to_nat iterations).
  split; [|split; [|split]]; intros A B HA HB.
  - apply (generations_increasing 1 0 kernel n X Y A B); auto.
  - apply (generations_increasing 0 1 kernel n X Y A B); auto.
  - destruct (generations 0 1 kernel n X) as [E|] eqn:HE; [|done].
    destruct (generations 0 1 kernel n Y) as [E'|] eqn:HE'; [|done].
    simpl in HA, HB.
    destruct (generations_increasing 0 1 kernel n X Y E E')
      as (? & ? & ?); auto.
    apply (generations_increasing 1 0 kernel n E E' A B); auto.
  - destruct (generations 1 0 kernel n X) as [E|] eqn:HE; [|done].
    destruct (generations 1 0 kernel n Y) as [E'|] eqn:HE'; [|done].
    simpl in HA, HB.
    destruct (generations_increasing 1 0 kernel n X Y E E')
      as (? & ? & ?); auto.
    apply (generations_increasing 0 1 kernel n E E' A B); auto.
Qed.

(** ** Unions and intersections *)

Lemma p_zip_with (op : Z → Z → Z) X Y x y :
  compatible X Y →
  p (Plane (width X) (height X) (zip_with op (pixels X) (pixels Y))) x y
  = a ← p X x y; b ← p Y x y; Some (op a b).
Proof.
  intros [Hw Hh]. unfold p, pixel_index. simpl. rewrite <- Hw.
  destruct (bool_decide (0 ≤ y * width X + x)); simpl; [|done].
  apply lookup_zip_with.
Qed.

Lemma raster_zip_with (op : Z → Z → Z) X Y :
  raster X → raster Y → compatible X Y →
  raster (Plane (width X) (height X) (zip_with op (pixels X) (pixels Y))).
Proof.
  intros (Hw & Hh & Hlen) (_ & _ & Hlen') [Hww Hhh].
  repeat split; simpl; try done.
  rewrite length_zip_with, Hlen, Hlen', <- Hww, <- Hhh. lia.
Qed.

Lemma binary_zip_with (op : Z → Z → Z) X Y :
  (∀ a b, (a = 0 ∨ a = 1) → (b = 0 ∨ b = 1) → op a b = 0 ∨ op a b = 1) →
  binary X → binary Y →
  binary (Plane (width X) (height X) (zip_with op (pixels X) (pixels Y))).
Proof.
  intros Hop HX HY. unfold binary in *. simpl.
  revert HY. generalize (pixels Y).
  induction HX as [|a l Ha _ IH]; intros l' HY; [done|].
  destruct HY as [|b l' Hb HY]; simpl; [done|].
  constructor; [by apply Hop|by apply IH].
Qed.

Lemma flagged_or T X Y U kernel : ∀ cells,
  (∀ c, c ∈ cells →
        bool_decide (p U c.1 c.2 = Some T)
        = bool_decide (p X c.1 c.2 = Some T)
          || bool_decide (p Y c.1 c.2 = Some T)) →
  flagged T U kernel cells
  = flagged T X kernel cells || flagged T Y kernel cells.
Proof.
  unfold flagged. induction kernel as [|m kernel IH]; intros cells Hcells;
    [done|].
  destruct cells as [|c cells]; [done|]. simpl.
  rewrite IH by (intros c' Hc'; apply Hcells; by right).
  rewrite (Hcells c) by left.
  destruct m, (bool_decide (p X c.1 c.2 = Some T)),
    (bool_decide (p Y c.1 c.2 = Some T)); simpl; try done;
    by rewrite orb_true_r.
Qed.

Lemma generation_Some T F kernel X :
  (∀ x y, 0 ≤ x < width X → 0 ≤ y < height X →
          is_Some (new_pixel T F kernel X y x)) →
  is_Some (generation T F kernel X).
Proof.
  intros Hall. unfold generation.
  destruct (mapM (new_row T F kernel X) (seqZ 0 (height X))) as [rows|]
    eqn:Hrows; [by eexists|].
  apply mapM_None in Hrows. apply Exists_exists in Hrows as (y & Hy & Hrow).
  unfold new_row in Hrow. apply mapM_None in Hrow.
  apply Exists_exists in Hrow as (x & Hx & Hpix).
  apply list_elem_of_In, elem_of_seqZ in Hy.
  apply list_elem_of_In, elem_of_seqZ in Hx.
  destruct (Hall x y) as [v Hv]; [lia|lia|congruence].
Qed.

Lemma generation_zip_with T F (op : Z → Z → Z) kernel X Y A B :
  (T = 1 ∧ F = 0 ∧ op = Z.max) ∨ (T = 0 ∧ F = 1 ∧ op = Z.min) →
  raster X → raster Y → compatible X Y → binary X → binary Y →
  generation T F kernel X = Some A → generation T F kernel Y = Some B →
  generation T F kernel
    (Plane (width X) (height X) (zip_with op (pixels X) (pixels Y)))
  = Some (Plane (width A) (height A) (zip_with op (pixels A) (pixels B))).
Proof.
  intros Hop HX HY HXY HbX HbY HA HB.
  set (U := Plane (width X) (height X) (zip_with op (pixels X) (pixels Y))).
  assert (HU : raster U) by by apply raster_zip_with.
  destruct (generation_raster _ _ _ _ _ HX HA) as (HAr & HAw & HAh).
  destruct (generation_raster _ _ _ _ _ HY HB) as (HBr & HBw & HBh).
  pose proof HXY as (Hw & Hh).
  assert (HAB : compatible A B) by (split; congruence).
  assert (Hflag : ∀ x y, 0 ≤ x < width X → 0 ≤ y < height X →
            flagged T U kernel (visited U (kernel_offset kernel) x y)
            = flagged T X kernel (visited X (kernel_offset kernel) x y)
              || flagged T Y kernel (visited Y (kernel_offset kernel) x y)).
  { intros x y Hx Hy.
    rewrite <- (visited_compatible X Y _ _ _ HXY).
    change (visited U (kernel_offset kernel) x y)
      with (visited X (kernel_offset kernel) x y).
    apply flagged_or. intros c Hc. apply visited_inside in Hc as [Hc1 Hc2].
    unfold U. rewrite p_zip_with by done.
    destruct (p_raster X c.1 c.2 HX Hc1 Hc2) as [a Ha].
    destruct (p_raster Y c.1 c.2 HY) as [b Hb]; [lia|lia|].
    rewrite Ha, Hb. simpl.
    pose proof (p_binary X _ _ _ HbX Ha) as Hab.
    pose proof (p_binary Y _ _ _ HbY Hb) as Hbb.
    destruct Hop as [(-> & _ & ->)|(-> & _ & ->)];
      destruct Hab as [-> | ->], Hbb as [-> | ->]; done. }
  assert (Hpix : ∀ x y, 0 ≤ x < width X → 0 ≤ y < height X →
            ∃ a b, new_pixel T F kernel X y x = Some a
                   ∧ new_pixel T F kernel Y y x = Some b
                   ∧ new_pixel T F kernel U y x = Some (op a b)).
  { intros x y Hx Hy.
    assert (is_Some (new_pixel T F kernel X y x)) as [a Ha].
    { rewrite <- (p_generation T F kernel X A x y) by (done || lia).
      apply p_raster; [done|lia|lia]. }
    assert (is_Some (new_pixel T F kernel Y y x)) as [b Hb].
    { rewrite <- (p_generation T F kernel Y B x y) by (done || lia).
      apply p_raster; [done|lia|lia]. }
    exists a, b. do 2 (split; [done|]).
    unfold new_pixel in *. rewrite scan_pixel_flagged in * by done.
    rewrite Hflag by done.
    change (visited U (kernel_offset kernel) x y)
      with (visited X (kernel_offset kernel) x y).
    rewrite <- (visited_compatible X Y _ _ _ HXY) in Hb |- *.
    destruct (flagged T X kernel _), (flagged T Y kernel _);
      repeat case_bool_decide; simplify_eq/=;
      destruct Hop as [(-> & -> & ->)|(-> & -> & ->)]; done. }
  destruct (generation_Some T F kernel U) as [C HC].
  { intros x y Hx Hy. destruct (Hpix x y Hx Hy) as (a & b & _ & _ & ->).
    by eexists. }
  rewrite HC. f_equal.
  destruct (generation_raster _ _ _ _ _ HU HC) as (HCr & HCw & HCh).
  simpl in HCw, HCh.
  apply plane_eq; [done|by apply raster_zip_with|split; simpl; congruence|].
  intros x y Hx Hy. rewrite HCw in Hx. rewrite HCh in Hy.
  rewrite (p_generation T F kernel U C x y) by done.
  rewrite p_zip_with by done.
  rewrite (p_generation T F kernel X A x y) by done.
  rewrite (p_generation T F kernel Y B x y) by (done || lia).
  by destruct (Hpix x y Hx Hy) as (a & b & -> & -> & ->).
Qed.

Lemma generations_zip_with T F (op : Z → Z → Z) kernel n : ∀ X Y A B,
  (T = 1 ∧ F = 0 ∧ op = Z.max) ∨ (T = 0 ∧ F = 1 ∧ op = Z.min) →
  raster X → raster Y → compatible X Y → binary X → binary Y →
  generations T F kernel n X = Some A → generations T F kernel n Y = Some B →
  generations T F kernel n
    (Plane (width X) (height X) (zip_with op (pixels X) (pixels Y)))
  = Some (Plane (width A) (height A) (zip_with op (pixels A) (pixels B))).
Proof.
  induction n as [|n IH]; intros X Y A B Hop HX HY HXY HbX HbY HA HB;
    simpl in *.
  - by simplify_eq.
  - destruct (generation T F kernel X) as [X1|] eqn:HX1; simplify_eq/=.
    destruct (generation T F kernel Y) as [Y1|] eqn:HY1; simplify_eq/=.
    rewrite (generation_zip_with T F op kernel X Y X1 Y1) by done. simpl.
    destruct (generation_raster _ _ _ _ _ HX HX1) as (? & Hw1 & Hh1).
    destruct (generation_raster _ _ _ _ _ HY HY1) as (? & Hw2 & Hh2).
    apply IH; try done.
    + destruct HXY. split; congruence.
    + apply generation_values in HX1. revert HX1. apply Forall_impl.
      intros v. destruct Hop as [(-> & -> & _)|(-> & -> & _)]; tauto.
    + apply generation_values in HY1. revert HY1. apply Forall_impl.
      intros v. destruct Hop as [(-> & -> & _)|(-> & -> & _)]; tauto.
Qed.

(** X7.  Dilate distributes over the union of two binary rasters and Erode
    over their intersection, for every kernel and iteration count: the
    result on the union (intersection) is the union (intersection) of the
    two results. *)
Theorem dilate_union_erode_intersection iterations kernel X Y :
  raster X → raster Y → compatible X Y → binary X → binary Y →
  (∀ A B, run dilate iterations kernel X = Some A →
          run dilate iterations kernel Y = Some B →
          run dilate iterations kernel (plane_union X Y) = Some (plane_union A B))
  ∧ (∀ A B, run erode iterations kernel X = Some A →
            run erode iterations kernel Y = Some B →
            run erode iterations kernel (plane_intersection X Y)
            = Some (plane_intersection A B)).
Proof.
  intros HX HY HXY HbX HbY.
  rewrite !run_dilate, !run_erode
    by (done || by apply raster_zip_with).
  split; intros A B HA HB.
  - apply (generations_zip_with 1 0 Z.max); auto.
  - apply (generations_zip_with 0 1 Z.min); auto 10.
Qed.
(** ** Pixels away from the border *)

Lemma interior_new_pixel T F kernel (k : nat) X x y :
  raster X → length kernel = ((2 * k + 1) * (2 * k + 1))%nat →
  Z.of_nat k ≤ x → x + Z.of_nat k < width X →
  Z.of_nat k ≤ y → y + Z.of_nat k < height X →
  (covers T kernel (Z.of_nat k) X x y → new_pixel T F kernel X y x = Some T)
  ∧ (¬ covers T kernel (Z.of_nat k) X x y
     → new_pixel T F kernel X y x = Some F).
Proof.
  intros HX Hlen Hx1 Hx2 Hy1 Hy2.
  destruct (interior_scan_fixed_mapping T X kernel k x y)
    as (c & Hc & Hiff); try done.
  unfold new_pixel. rewrite Hc. simpl. unfold covers, flag_at.
  split; intros Hcov.
  - apply Hiff in Hcov as ->. done.
  - destruct c; [|done]. destruct Hcov. by apply Hiff.
Qed.

Lemma run_one_generation kernel X :
  raster X →
  run dilate 1 kernel X = generation 1 0 kernel X
  ∧ run erode 1 kernel X = generation 0 1 kernel X.
Proof.
  intros HX. rewrite run_dilate, run_erode by done.
  change (Z.to_nat 1) with 1%nat. by rewrite !generations_one.
Qed.

(** X8.  Away from the border the kernel is applied as it is laid out:
    for a kernel of odd side 2k + 1 and a pixel at least k columns and k
    rows from every border, one Dilate gives 1 when an active cell lies
    over a pixel that holds 1 and 0 otherwise, and one Erode gives 0 when
    an active cell lies over a pixel that holds 0 and 1 otherwise. *)
Theorem interior_pixels_follow_kernel_layout kernel (k : nat) X x y :
  raster X → length kernel = ((2 * k + 1) * (2 * k + 1))%nat →
  Z.of_nat k ≤ x → x + Z.of_nat k < width X →
  Z.of_nat k ≤ y → y + Z.of_nat k < height X →
  ∃ D E, run dilate 1 kernel X = Some D ∧ run erode 1 kernel X = Some E
    ∧ (covers 1 kernel (Z.of_nat k) X x y → p D x y = Some 1)
    ∧ (¬ covers 1 kernel (Z.of_nat k) X x y → p D x y = Some 0)
    ∧ (covers 0 kernel (Z.of_nat k) X x y → p E x y = Some 0)
    ∧ (¬ covers 0 kernel (Z.of_nat k) X x y → p E x y = Some 1).
Proof.
  intros HX Hlen Hx1 Hx2 Hy1 Hy2.
  destruct (kernel_odd_square kernel k Hlen) as [_ Hfits].
  destruct (run_one_generation kernel X HX) as [-> ->].
  destruct (generation_fits 1 0 X kernel HX Hfits) as [D HD].
  destruct (generation_fits 0 1 X kernel HX Hfits) as [E HE].
  exists D, E. do 2 (split; [done|]).
  rewrite (p_generation 1 0 kernel X D x y) by (done || lia).
  rewrite (p_generation 0 1 kernel X E x y) by (done || lia).
  destruct (interior_new_pixel 1 0 kernel k X x y) as [? ?]; try done.
  destruct (interior_new_pixel 0 1 kernel k X x y) as [? ?]; done.
Qed.

(** ** The default kernel *)

Lemma identity_kernel_active i : identity_kernel !! i = Some true → i = 4%nat.
Proof. do 9 (destruct i as [|i]; try done). Qed.

Lemma covers_identity T X x y :
  covers T identity_kernel 1 X x y ↔ p X x y = Some T.
Proof.
  unfold covers, flag_at. split.
  - intros (ky & kx & Hky & Hkx & Hflag & Hp).
    apply identity_kernel_active in Hflag.
    assert (ky = 0 ∧ kx = 0) as [-> ->] by lia.
    by rewrite !Z.add_0_r in Hp.
  - intros Hp. exists 0, 0. rewrite !Z.add_0_r. by repeat split; try lia.
Qed.

Lemma identity_generation_interior T F X Y x y :
  (T = 0 ∧ F = 1) ∨ (T = 1 ∧ F = 0) →
  raster X → generation T F identity_kernel X = Some Y →
  1 ≤ x → x + 1 < width X → 1 ≤ y → y + 1 < height X →
  p X x y = Some 0 ∨ p X x y = Some 1 →
  p Y x y = p X x y.
Proof.
  intros HTF HX HY Hx1 Hx2 Hy1 Hy2 Hv.
  rewrite (p_generation T F identity_kernel X Y x y) by (done || lia).
  destruct (interior_new_pixel T F identity_kernel 1 X x y) as [Hyes Hno];
    try done.
  change (Z.of_nat 1) with 1 in Hyes, Hno.
  rewrite covers_identity in Hyes, Hno.
  destruct HTF as [[-> ->]|[-> ->]], Hv as [Hv|Hv]; rewrite Hv in *;
    (by apply Hyes) || (by apply Hno).
Qed.

Lemma identity_generations_interior T F n x y : ∀ X Y,
  (T = 0 ∧ F = 1) ∨ (T = 1 ∧ F = 0) →
  raster X → generations T F identity_kernel n X = Some Y →
  1 ≤ x → x + 1 < width X → 1 ≤ y → y + 1 < height X →
  p X x y = Some 0 ∨ p X x y = Some 1 →
  p Y x y = p X x y.
Proof.
  induction n as [|n IH]; intros X Y HTF HX HY Hx1 Hx2 Hy1 Hy2 Hv;
    simpl in HY.
  - by simplify_eq.
  - destruct (generation T F identity_kernel X) as [X1|] eqn:HX1;
      simplify_eq/=.
    destruct (generation_raster _ _ _ _ _ HX HX1) as (HX1r & Hw & Hh).
    pose proof (identity_generation_interior T F X X1 x y HTF HX HX1
                  Hx1 Hx2 Hy1 Hy2 Hv) as Hstep.
    rewrite <- Hstep. apply IH; try done; try lia.
    by rewrite Hstep.
Qed.

Lemma default_kernel_is_identity :
  (λ i, bool_decide (0 < i))
    <$> IPLMorphologyBinary._kernel IPLMorphologyBinary.init
  = identity_kernel.
Proof. reflexivity. Qed.

(** X9.  With the kernel [init] sets, each of the four operations leaves
    every pixel that is not on the border and holds 0 or 1 as it is, for
    every iteration count. *)
Theorem default_kernel_keeps_interior (new_pixels : Z → Z → list Z)
  _result image iterations operation (h : gmap loc IPLImagePlane) X o x y :
  (∀ w h, length (new_pixels w h) = Z.to_nat (w * h)) →
  _result ≠ Some image → h !! image = Some X → raster X →
  DILATE ≤ operation ≤ CLOSE →
  processInputData new_pixels _result image (IPLMorphologyBinary._kernel IPLMorphologyBinary.init) iterations
    operation h = Some o →
  1 ≤ x → x + 1 < width X → 1 ≤ y → y + 1 < height X →
  p X x y = Some 0 ∨ p X x y = Some 1 →
  ∃ Y, planes o !! result o = Some Y ∧ p Y x y = p X x y.
Proof.
  intros Hlen Hres Himage HX Hop Ho Hx1 Hx2 Hy1 Hy2 Hv.
  rewrite (processInputData_run new_pixels Hlen _ _ _ _ _ _ X) in Ho by done.
  rewrite default_kernel_is_identity in Ho.
  set (n := Z.to_nat iterations) in Ho.
  assert (Hstage : ∀ T F E Y,
    (T = 0 ∧ F = 1) ∨ (T = 1 ∧ F = 0) → raster E → compatible E X →
    p E x y = p X x y →
    generations T F identity_kernel n E = Some Y →
    raster Y ∧ compatible Y X ∧ p Y x y = p X x y).
  { intros T F E Y HTF HE [Hw Hh] HEp HY.
    destruct (generations_raster _ _ _ _ _ _ HE HY) as (HYr & HYw & HYh).
    split; [done|]. split; [split; congruence|].
    rewrite <- HEp.
    apply (identity_generations_interior T F n x y E Y); try done; try lia.
    by rewrite HEp. }
  unfold DILATE, ERODE, OPEN, CLOSE in *.
  repeat case_bool_decide; try lia.
  - destruct (generations 1 0 identity_kernel n X) as [Y|] eqn:HY;
      simplify_eq/=.
    exists Y. rewrite lookup_insert_eq. split; [done|].
    by apply (Hstage 1 0 X Y); auto using compatible_refl.
  - destruct (generations 0 1 identity_kernel n X) as [Y|] eqn:HY;
      simplify_eq/=.
    exists Y. rewrite lookup_insert_eq. split; [done|].
    by apply (Hstage 0 1 X Y); auto using compatible_refl.
  - destruct (generations 0 1 identity_kernel n X) as [E|] eqn:HE;
      simplify_eq/=.
    destruct (generations 1 0 identity_kernel n E) as [Y|] eqn:HY;
      simplify_eq/=.
    exists Y. rewrite lookup_insert_eq. split; [done|].
    destruct (Hstage 0 1 X E) as (? & ? & ?);
      auto using compatible_refl.
    by apply (Hstage 1 0 E Y); auto.
  - destruct (generations 1 0 identity_kernel n X) as [E|] eqn:HE;
      simplify_eq/=.
    destruct (generations 0 1 identity_kernel n E) as [Y|] eqn:HY;
      simplify_eq/=.
    exists Y. rewrite lookup_insert_eq. split; [done|].
    destruct (Hstage 1 0 X E) as (? & ? & ?);
      auto using compatible_refl.
    by apply (Hstage 0 1 E Y); auto.
Qed.

(** ** A series of calls *)

Section Lifecycle.
Variable new_pixels : Z → Z → list Z.
Hypothesis new_pixels_length :
  ∀ w h, length (new_pixels w h) = Z.to_nat (w * h).
Implicit Types h : gmap loc IPLImagePlane.
Implicit Types this : IPLMorphologyBinary.members.

Lemma processInputData_first_call this image kernel iterations operation h h' X :
  owns_result h this h' → h !! image = Some X →
  processInputData new_pixels (IPLMorphologyBinary._result this) image kernel
    iterations operation h'
  = processInputData new_pixels None image kernel iterations operation h.
Proof.
  unfold owns_result, processInputData. intros Hown Himage.
  destruct (IPLMorphologyBinary._result this) as [r|]; [|by subst].
  destruct Hown as (Hr & Y & ->). by rewrite delete_insert_id.
Qed.

Lemma processInputData_owns image kernel iterations operation h X o :
  h !! image = Some X → raster X →
  processInputData new_pixels None image kernel iterations operation h
  = Some o →
  h !! result o = None ∧ ∃ Y, planes o = <[result o:=Y]> h.
Proof.
  intros Himage HX Ho.
  rewrite (processInputData_run new_pixels new_pixels_length _ _ _ _ _ _ X)
    in Ho by done.
  pose proof (fresh_plane_None h) as Hfresh.
  repeat case_bool_decide;
    repeat (destruct (generations _ _ _ _ _); simplify_eq/=);
    simplify_eq/=; eauto.
Qed.

Lemma calls_app reqs1 reqs2 : ∀ this h,
  IPLMorphologyBinary.calls new_pixels (reqs1 ++ reqs2) this h
  = IPLMorphologyBinary.calls new_pixels reqs1 this h
    ≫= λ s, IPLMorphologyBinary.calls new_pixels reqs2 s.1 s.2.
Proof.
  induction reqs1 as [|r reqs1 IH]; intros this h; simpl; [done|].
  destruct (IPLMorphologyBinary.processInputData new_pixels this _ _ _ _ h)
    as [[this' o]|]; simpl; [|done].
  apply IH.
Qed.

Lemma calls_own reqs h : ∀ this h0 this' h',
  requests_in h reqs →
  owns_result h this h0 →
  IPLMorphologyBinary.calls new_pixels reqs this h0 = Some (this', h') →
  owns_result h this' h'.
Proof.
  unfold requests_in.
  induction reqs as [|r reqs IH]; intros this h0 this' h' Hreqs Hown Hcalls;
    simpl in Hcalls.
  - by simplify_eq.
  - destruct (Forall_cons_1 _ _ _ Hreqs) as [(X & Himage & HX) Hreqs'].
    unfold IPLMorphologyBinary.processInputData in Hcalls.
    rewrite (processInputData_first_call this _ _ _ _ h h0 X) in Hcalls
      by done.
    destruct (processInputData new_pixels None _ _ _ _ h) as [o|] eqn:Ho;
      simpl in Hcalls; [|done].
    apply (IH _ _ _ _ Hreqs') in Hcalls; [done|].
    unfold owns_result. simpl.
    by apply (processInputData_owns (IPLMorphologyBinary.image r)
                (IPLMorphologyBinary.kernel_property r)
                (IPLMorphologyBinary.iterations_property r)
                (IPLMorphologyBinary.operation_property r) h X o).
Qed.

Lemma calls_destroy reqs h this' h' :
  requests_in h reqs →
  IPLMorphologyBinary.calls new_pixels reqs IPLMorphologyBinary.init h
  = Some (this', h') →
  IPLMorphologyBinary.destroy this' h' = Some h
  ∧ (reqs ≠ [] → IPLMorphologyBinary.destroy this' h = None).
Proof.
  intros Hreqs Hcalls.
  assert (Hlast : reqs ≠ [] → is_Some (IPLMorphologyBinary._result this')).
  { destruct reqs as [|r reqs _] using rev_ind; [done|]. intros _.
    rewrite calls_app in Hcalls.
    destruct (IPLMorphologyBinary.calls new_pixels reqs _ h)
      as [[this0 h0]|]; simpl in Hcalls; [|done].
    destruct (IPLMorphologyBinary.processInputData new_pixels this0 _ _ _ _ h0)
      as [[this1 o]|] eqn:Hcall; simplify_eq/=.
    unfold IPLMorphologyBinary.processInputData in Hcall.
    destruct (processInputData _ _ _ _ _ _ _); by simplify_eq/=. }
  apply (calls_own reqs h IPLMorphologyBinary.init h this' h' Hreqs)
    in Hcalls; [|done].
  unfold owns_result in Hcalls. unfold IPLMorphologyBinary.destroy.
  destruct (IPLMorphologyBinary._result this') as [r|].
  - destruct Hcalls as (Hr & Y & ->). rewrite lookup_insert_eq. simpl.
    rewrite delete_insert_id by done. rewrite Hr. done.
  - subst. split; [done|]. intros Hne. by destruct (Hlast Hne).
Qed.

(** X10.  Every call releases the result of the call before it, the
    operations release their local copies and no input plane is touched:
    after any series of calls that return, on an object fresh from [init],
    [destroy] leaves the store exactly as it was before the first call. *)
Theorem destroy_restores_store reqs h this' h' :
  requests_in h reqs →
  IPLMorphologyBinary.calls new_pixels reqs IPLMorphologyBinary.init h
  = Some (this', h') →
  IPLMorphologyBinary.destroy this' h' = Some h.
Proof. intros Hreqs Hcalls. by apply (calls_destroy reqs). Qed.

(** X11.  A call does not depend on the calls before it: after any series
    of calls that return, a further call leaves the object and the store
    as the same call on an object fresh from [init] leaves them. *)
Theorem only_the_last_call_counts reqs r h :
  requests_in h (reqs ++ [r]) →
  is_Some (IPLMorphologyBinary.calls new_pixels reqs IPLMorphologyBinary.init h) →
  IPLMorphologyBinary.calls new_pixels (reqs ++ [r]) IPLMorphologyBinary.init h
  = IPLMorphologyBinary.calls new_pixels [r] IPLMorphologyBinary.init h.
Proof.
  intros Hreqs [[this' h'] Hcalls]. rewrite calls_app, Hcalls. simpl.
  apply Forall_app in Hreqs as [Hreqs Hr].
  apply Forall_singleton in Hr as (X & Himage & HX).
  apply (calls_own reqs h IPLMorphologyBinary.init h this' h' Hreqs)
    in Hcalls; [|done].
  unfold IPLMorphologyBinary.processInputData.
  by rewrite (processInputData_first_call this' _ _ _ _ h h' X) by done.
Qed.

(** X12.  [destroy] leaves the member [_result] as it is: after at least
    one call, a second [destroy] releases the released image again. *)
Theorem second_destroy_releases_again reqs h this' h' h'' :
  requests_in h reqs → reqs ≠ [] →
  IPLMorphologyBinary.calls new_pixels reqs IPLMorphologyBinary.init h
  = Some (this', h') →
  IPLMorphologyBinary.destroy this' h' = Some h'' →
  IPLMorphologyBinary.destroy this' h'' = None.
Proof.
  intros Hreqs Hne Hcalls Hdestroy.
  destruct (calls_destroy reqs h this' h' Hreqs Hcalls) as [Hfirst Hsecond].
  rewrite Hfirst in Hdestroy. simplify_eq. by apply Hsecond.
Qed.

End Lifecycle.

(** ** Kernels with no active cell *)

Lemma flagged_inactive T X kernel cells :
  Forall (λ b, b = false) kernel → flagged T X kernel cells = false.
Proof.
  intros Hk. unfold flagged. apply not_true_is_false. intros Hex.
  apply existsb_exists in Hex as ([m c] & Hin & Hhit).
  apply list_elem_of_In, elem_of_zip_l in Hin. simpl in *.
  rewrite Forall_forall in Hk. apply list_elem_of_In, Hk in Hin.
  by subst.
Qed.

Lemma new_pixel_inactive T F X kernel y x :
  raster X → kernel_fits kernel → Forall (λ b, b = false) kernel →
  new_pixel T F kernel X y x = Some F.
Proof.
  intros HX Hfits Hk.
  destruct (scan_pixel_fits T X kernel x y HX Hfits) as (c & Hc & _).
  unfold new_pixel. rewrite Hc. simpl.
  rewrite scan_pixel_flagged, flagged_inactive in Hc by done.
  case_bool_decide; by simplify_eq.
Qed.

Lemma raster_constant w h v : 0 ≤ w → 0 ≤ h → raster (constant_plane w h v).
Proof. intros. repeat split; simpl; try done. by rewrite length_replicate. Qed.

Lemma p_constant w h v x y :
  0 ≤ x < w → 0 ≤ y < h → p (constant_plane w h v) x y = Some v.
Proof.
  intros Hx Hy. unfold p, pixel_index. simpl.
  rewrite bool_decide_true by nia. simpl.
  apply lookup_replicate_2. nia.
Qed.

Lemma generation_inactive T F X kernel :
  raster X → kernel_fits kernel → Forall (λ b, b = false) kernel →
  generation T F kernel X = Some (constant_plane (width X) (height X) F).
Proof.
  intros HX Hfits Hk.
  destruct (generation_fits T F X kernel HX Hfits) as [Y HY].
  rewrite HY. f_equal.
  destruct (generation_raster _ _ _ _ _ HX HY) as (HYr & HYw & HYh).
  pose proof HX as (Hw & Hh & _).
  apply plane_eq; [done|by apply raster_constant|done|].
  intros x y Hx Hy.
  rewrite (p_generation T F kernel X Y x y) by (done || lia).
  rewrite new_pixel_inactive, p_constant by (done || lia). done.
Qed.

Lemma generations_inactive T F kernel n : ∀ X,
  raster X → kernel_fits kernel → Forall (λ b, b = false) kernel →
  generations T F kernel (S n) X
  = Some (constant_plane (width X) (height X) F).
Proof.
  induction n as [|n IH]; intros X HX Hfits Hk.
  - rewrite generations_one. by apply generation_inactive.
  - change (generations T F kernel (S (S n)) X)
      with (Y ← generation T F kernel X; generations T F kernel (S n) Y).
    rewrite generation_inactive by done. cbn [mbind option_bind].
    pose proof HX as (Hw & Hh & _).
    rewrite IH by (done || by apply raster_constant). done.
Qed.

(** X13.  A kernel that has a flag for every cell of its window and no
    active cell erases the image: with an iteration count of at least 1,
    Dilate and Opening leave 0 everywhere, Erode and Closing leave 1
    everywhere. *)
Theorem inactive_kernel_erases kernel iterations X :
  raster X → kernel_fits kernel → Forall (λ b, b = false) kernel →
  1 ≤ iterations →
  run dilate iterations kernel X
  = Some (constant_plane (width X) (height X) 0)
  ∧ run erode iterations kernel X
    = Some (constant_plane (width X) (height X) 1)
  ∧ run open iterations kernel X
    = Some (constant_plane (width X) (height X) 0)
  ∧ run close iterations kernel X
    = Some (constant_plane (width X) (height X) 1).
Proof.
  intros HX Hfits Hk Hit. pose proof HX as (Hw & Hh & _).
  rewrite run_dilate, run_erode, run_open, run_close by done.
  destruct (Z.to_nat iterations) as [|n] eqn:Hn; [lia|].
  rewrite !generations_inactive by done.
  split; [done|]. split; [done|].
  change (generations 1 0 kernel (S n) (constant_plane (width X) (height X) 1)
          = Some (constant_plane (width X) (height X) 0)
          ∧ generations 0 1 kernel (S n)
              (constant_plane (width X) (height X) 0)
            = Some (constant_plane (width X) (height X) 1)).
  rewrite !generations_inactive by (done || by apply raster_constant). done.
Qed.

(** ** Kernels with fewer flags than the window has cells *)

Lemma length_row_visited X x y ky kxs :
  0 ≤ y + ky < height X → Forall (λ kx, 0 ≤ x + kx < width X) kxs →
  length (row_visited X x y ky kxs) = length kxs.
Proof.
  intros Hy. unfold row_visited.
  induction 1 as [|kx kxs Hkx _ IH]; [done|].
  change (length ((if bool_decide (0 ≤ x + kx < width X ∧ 0 ≤ y + ky < height X)
                   then [(x + kx, y + ky)] else [])
                  ++ (kxs ≫= λ kx,
                       if bool_decide
                            (0 ≤ x + kx < width X ∧ 0 ≤ y + ky < height X)
                       then [(x + kx, y + ky)] else []))
          = S (length kxs)).
  rewrite bool_decide_true by done. simpl. by rewrite IH.
Qed.

Lemma length_visited_interior X k x y :
  0 ≤ k → k ≤ x → x + k < width X → k ≤ y → y + k < height X →
  length (visited X k x y) = Z.to_nat ((2 * k + 1) * (2 * k + 1)).
Proof.
  intros Hk Hx1 Hx2 Hy1 Hy2. unfold visited.
  assert (Hin : ∀ v, v ∈ kernel_range k → - k ≤ v ≤ k).
  { intros v Hv. apply elem_of_seqZ in Hv. lia. }
  assert (Hrows : ∀ kys, Forall (λ ky, - k ≤ ky ≤ k) kys →
            length (kys ≫= λ ky, row_visited X x y ky (kernel_range k))
            = (length kys * Z.to_nat (2 * k + 1))%nat).
  { induction 1 as [|ky kys Hky _ IH]; [done|].
    change (length (row_visited X x y ky (kernel_range k)
                    ++ (kys ≫= λ ky, row_visited X x y ky (kernel_range k)))
            = (S (length kys) * Z.to_nat (2 * k + 1))%nat).
    rewrite length_app, IH, length_row_visited, length_kernel_range; [lia|lia|].
    apply Forall_forall. intros kx Hkx.
    apply list_elem_of_In, Hin in Hkx. lia. }
  rewrite Hrows, length_kernel_range; [lia|].
  apply Forall_forall. intros ky Hky. by apply list_elem_of_In, Hin in Hky.
Qed.

Lemma visited_near X k x y c :
  c ∈ visited X k x y → near k (width X) (height X) x y c.1 c.2.
Proof.
  unfold visited, row_visited. intros Hc.
  apply list_elem_of_bind in Hc as (ky & Hc & Hky).
  apply list_elem_of_bind in Hc as (kx & Hc & Hkx).
  case_bool_decide; [|by apply not_elem_of_nil in Hc].
  apply list_elem_of_singleton in Hc as ->.
  apply elem_of_seqZ in Hky, Hkx. unfold near. simpl. lia.
Qed.

Lemma flagged_none T X kernel cells :
  (∀ c, c ∈ cells → p X c.1 c.2 ≠ Some T) → flagged T X kernel cells = false.
Proof.
  intros Hno. unfold flagged. apply not_true_is_false. intros Hex.
  apply existsb_exists in Hex as ([m c] & Hin & Hhit).
  apply list_elem_of_In, elem_of_zip_r in Hin. simpl in *.
  apply andb_true_iff in Hhit as [_ Hp]. apply bool_decide_eq_true in Hp.
  by apply (Hno c).
Qed.

Lemma generation_None T F kernel X x y :
  0 ≤ x < width X → 0 ≤ y < height X →
  new_pixel T F kernel X y x = None → generation T F kernel X = None.
Proof.
  intros Hx Hy Hnew. unfold generation.
  rewrite (mapM_None_2 (new_row T F kernel X)); [done|].
  apply Exists_exists. exists y. split.
  { apply list_elem_of_In, elem_of_seqZ. lia. }
  unfold new_row. apply mapM_None_2, Exists_exists. exists x. split; [|done].
  apply list_elem_of_In, elem_of_seqZ. lia.
Qed.

Lemma generations_None T F kernel n X :
  generation T F kernel X = None → generations T F kernel (S n) X = None.
Proof. intros Hgen. simpl. by rewrite Hgen. Qed.

Lemma short_kernel_new_pixel T F kernel X x y :
  raster X → ¬ kernel_fits kernel →
  kernel_offset kernel ≤ x → x + kernel_offset kernel < width X →
  kernel_offset kernel ≤ y → y + kernel_offset kernel < height X →
  (∀ x' y', near (kernel_offset kernel) (width X) (height X) x y x' y' →
            p X x' y' ≠ Some T) →
  new_pixel T F kernel X y x = None.
Proof.
  intros HX Hfits Hx1 Hx2 Hy1 Hy2 Hno. unfold new_pixel.
  rewrite scan_pixel_flagged by done.
  rewrite flagged_none.
  2:{ intros c Hc. by apply Hno, visited_near. }
  rewrite length_visited_interior
    by (done || apply kernel_offset_nonneg).
  rewrite bool_decide_false; [done|]. unfold kernel_fits in Hfits. lia.
Qed.

(** X14.  A kernel with fewer flags than its window has cells (one of 4 to
    8 flags, of 16 to 24, and so on) is read past its end: when the window
    of some pixel lies inside the raster and holds no 1, Dilate and Closing
    have no defined result, and when it holds no 0, Erode and Opening have
    none. *)
Theorem short_kernel_runs_off_its_end kernel iterations X x y :
  raster X → ¬ kernel_fits kernel → 1 ≤ iterations →
  kernel_offset kernel ≤ x → x + kernel_offset kernel < width X →
  kernel_offset kernel ≤ y → y + kernel_offset kernel < height X →
  ((∀ x' y', near (kernel_offset kernel) (width X) (height X) x y x' y' →
             p X x' y' ≠ Some 1) →
   run dilate iterations kernel X = None
   ∧ run close iterations kernel X = None)
  ∧ ((∀ x' y', near (kernel_offset kernel) (width X) (height X) x y x' y' →
               p X x' y' ≠ Some 0) →
     run erode iterations kernel X = None
     ∧ run open iterations kernel X = None).
Proof.
  intros HX Hfits Hit Hx1 Hx2 Hy1 Hy2.
  pose proof (kernel_offset_nonneg kernel) as Hk.
  rewrite run_dilate, run_erode, run_open, run_close by done.
  destruct (Z.to_nat iterations) as [|n] eqn:Hn; [lia|].
  split; intros Hno.
  - rewrite (generations_None 1 0 kernel n X); [done|].
    apply (generation_None 1 0 kernel X x y); [lia|lia|].
    by apply short_kernel_new_pixel.
  - rewrite (generations_None 0 1 kernel n X); [done|].
    apply (generation_None 0 1 kernel X x y); [lia|lia|].
    by apply short_kernel_new_pixel.
Qed.

Lemma new_pixel_empty_kernel T F X x y :
  raster X → 0 ≤ x < width X → 0 ≤ y < height X →
  new_pixel T F [] X y x = None.
Proof.
  intros HX Hx Hy. unfold new_pixel. rewrite scan_pixel_flagged by done.
  change (kernel_offset []) with 0.
  rewrite (length_visited_interior X 0 x y) by lia. done.
Qed.

(** X15.  With an empty kernel property, a call of [processInputData] for
    one of the four operations, at least one iteration and an image that
    has a pixel reads a flag of an empty vector: it has no defined
    result. *)
Theorem empty_kernel_faults (new_pixels : Z → Z → list Z) _result image
  iterations operation (h : gmap loc IPLImagePlane) X :
  (∀ w h, length (new_pixels w h) = Z.to_nat (w * h)) →
  _result ≠ Some image → h !! image = Some X → raster X →
  0 < width X → 0 < height X → 1 ≤ iterations →
  DILATE ≤ operation ≤ CLOSE →
  processInputData new_pixels _result image [] iterations operation h = None.
Proof.
  intros Hlen Hres Himage HX Hw Hh Hit Hop.
  rewrite (processInputData_run new_pixels Hlen _ _ _ _ _ _ X) by done.
  change ((λ i, bool_decide (0 < i)) <$> []) with (@nil bool).
  destruct (Z.to_nat iterations) as [|n] eqn:Hn; [lia|].
  assert (Hgen : ∀ T F, generations T F [] (S n) X = None).
  { intros T F. apply generations_None.
    apply (generation_None T F [] X 0 0); [lia|lia|].
    apply new_pixel_empty_kernel; [done|lia|lia]. }
  rewrite !Hgen. unfold DILATE, ERODE, OPEN, CLOSE in *.
  repeat case_bool_decide; try done. lia.
Qed.

(** ** Kernels with every cell active *)

Lemma included_refl X : included X X.
Proof. split; [apply compatible_refl|]. by intros x y _ _. Qed.

Lemma included_trans X Y Z' :
  included X Y → included Y Z' → included X Z'.
Proof.
  intros ([Hw Hh] & HXY) ([Hw' Hh'] & HYZ).
  split; [split; congruence|]. intros x y Hx Hy.
  destruct (HXY x y Hx Hy) as [H1 H2].
  destruct (HYZ x y) as [H3 H4]; [lia|lia|]. auto.
Qed.

Lemma included_negate X Y :
  included X Y → included (negate Y) (negate X).
Proof.
  intros ([Hw Hh] & HXY). split; [by split|]. simpl.
  intros x y Hx Hy. rewrite !p_negate.
  destruct (HXY x y) as [H1 H2]; [lia|lia|].
  split; intros Hv.
  - destruct (p Y x y) as [b|] eqn:Hb; simplify_eq/=.
    assert (b = 0) as -> by lia. by rewrite (H2 eq_refl).
  - destruct (p X x y) as [a|] eqn:Ha; simplify_eq/=.
    assert (a = 1) as -> by lia. by rewrite (H1 eq_refl).
Qed.

Lemma binary_negate X : binary X → binary (negate X).
Proof.
  unfold binary, negate. simpl. intros HX. apply Forall_fmap.
  revert HX. apply Forall_impl. intros v. simpl. lia.
Qed.

Lemma near_self k w h x y :
  0 ≤ k → 0 ≤ x < w → 0 ≤ y < h → near k w h x y x y.
Proof. unfold near. lia. Qed.

Lemma dilation_full_extensive k X D :
  raster X → binary X → full_generation 1 0 (Z.of_nat k) X D →
  included X D.
Proof.
  intros HX HbX (HD & [Hw Hh] & HDp). split; [by split|].
  intros x y Hx Hy.
  destruct (p_raster X x y HX Hx Hy) as [v Hv].
  destruct (HDp x y Hx Hy) as [[HD1 _]|[HD0 Hno]]; rewrite ?HD1, ?HD0.
  - split; [done|]. intros ?; simplify_eq.
  - split.
    + intros HX1. destruct Hno. exists x, y. split; [|done].
      apply near_self; lia.
    + intros _. destruct (p_binary X x y v HbX Hv) as [->| ->]; [done|].
      destruct Hno. exists x, y. split; [|done]. apply near_self; lia.
Qed.

Lemma opening_full_anti_extensive k X E O :
  raster X → binary X →
  full_generation 0 1 (Z.of_nat k) X E → full_generation 1 0 (Z.of_nat k) E O →
  included O X.
Proof.
  intros HX HbX (HE & [HEw HEh] & HEp) (HO & [HOw HOh] & HOp).
  split; [split; congruence|]. intros x y Hx Hy.
  destruct (p_raster X x y HX) as [v Hv]; [lia|lia|].
  assert (Hone : p O x y = Some 1 → p X x y = Some 1).
  { intros HO1.
    destruct (HOp x y) as [[_ (x' & y' & Hnear & HE1)]|[HO0 _]];
      [lia|lia| |congruence].
    rewrite HEw, HEh in Hnear.
    destruct (near_bounds _ _ _ _ _ _ _ Hnear) as [Hx' Hy'].
    destruct (HEp x' y' Hx' Hy') as [[HE0 _]|[_ Hno]]; [congruence|].
    destruct (p_binary X x y v HbX Hv) as [->| ->]; [|done].
    destruct Hno. exists x, y. split; [|done].
    apply near_sym; [lia|lia|done]. }
  split; [done|]. intros HX0.
  destruct (HOp x y) as [[HO1 _]|[HO0 _]]; [lia|lia| |done].
  apply Hone in HO1. congruence.
Qed.

Lemma generation_full_binary T F k X Y :
  (T = 0 ∧ F = 1) ∨ (T = 1 ∧ F = 0) →
  raster X → generation T F (full_kernel k) X = Some Y →
  raster Y ∧ binary Y ∧ full_generation T F (Z.of_nat k) X Y.
Proof.
  intros HTF HX HY.
  destruct (generation_full T F k X HX) as (Y' & HY' & Hfull).
  assert (Y' = Y) as -> by congruence.
  split; [by destruct Hfull|]. split; [|done].
  apply generation_values in HY. revert HY. apply Forall_impl.
  intros v. destruct HTF as [[-> ->]|[-> ->]]; tauto.
Qed.

Lemma dilations_full_extensive k n : ∀ X D,
  raster X → binary X →
  generations 1 0 (full_kernel k) n X = Some D → included X D.
Proof.
  induction n as [|n IH]; intros X D HX HbX HD; simpl in HD.
  - simplify_eq. apply included_refl.
  - destruct (generation 1 0 (full_kernel k) X) as [X1|] eqn:HX1;
      simplify_eq/=.
    destruct (generation_full_binary 1 0 k X X1) as (? & ? & ?); auto.
    apply (included_trans X X1 D); [by apply (dilation_full_extensive k)|].
    by apply IH.
Qed.

Lemma openings_full_anti_extensive k n : ∀ X E O,
  raster X → binary X →
  generations 0 1 (full_kernel k) n X = Some E →
  generations 1 0 (full_kernel k) n E = Some O →
  included O X.
Proof.
  induction n as [|n IH]; intros X E O HX HbX HE HO.
  - simpl in *. simplify_eq. apply included_refl.
  - replace (S n) with (n + 1)%nat in HO by lia.
    rewrite generations_add in HO.
    destruct (generations 1 0 (full_kernel k) n E) as [O'|] eqn:HO';
      [|done].
    change (generations 1 0 (full_kernel k) 1 O' = Some O) in HO.
    rewrite generations_one in HO.
    change ((generation 0 1 (full_kernel k) X
             ≫= generations 0 1 (full_kernel k) n) = Some E) in HE.
    destruct (generation 0 1 (full_kernel k) X) as [X1|] eqn:HX1; [|done].
    change (generations 0 1 (full_kernel k) n X1 = Some E) in HE.
    destruct (generation_full_binary 0 1 k X X1) as (HX1r & HX1b & HX1f);
      auto.
    pose proof (IH X1 E O' HX1r HX1b HE HO') as Hincl.
    destruct (generations_raster _ _ _ _ _ _ HX1r HE) as (HEr & _).
    destruct (generations_raster _ _ _ _ _ _ HEr HO') as (HOr' & _).
    destruct (generation_full 1 0 k X1 HX1r) as (D1 & HD1 & HD1f).
    destruct (generation_increasing 1 0 (full_kernel k) O' X1 O D1)
      as (_ & _ & Hstep); auto.
    apply (included_trans O D1 X); [done|].
    by apply (opening_full_anti_extensive k X X1 D1).
Qed.

(** X16.  With a kernel of odd side whose cells are all active, on a binary
    raster and for every iteration count, the four operations return and
    Erode never adds foreground, Dilate never removes foreground, Opening
    never adds foreground and Closing never removes foreground. *)
Theorem full_kernel_ordering (k : nat) iterations X :
  raster X → binary X →
  ∃ D E O C,
    run dilate iterations (full_kernel k) X = Some D
    ∧ run erode iterations (full_kernel k) X = Some E
    ∧ run open iterations (full_kernel k) X = Some O
    ∧ run close iterations (full_kernel k) X = Some C
    ∧ included E X ∧ included X D ∧ included O X ∧ included X C.
Proof.
  intros HX HbX. rewrite run_dilate, run_erode, run_open, run_close by done.
  set (n := Z.to_nat iterations).
  pose proof (raster_negate X HX) as HnX.
  pose proof (binary_negate X HbX) as HnbX.
  pose proof (kernel_fits_full k) as Hfits.
  destruct (generations_fits 1 0 (full_kernel k) n X HX Hfits) as [D HD].
  destruct (generations_fits 0 1 (full_kernel k) n X HX Hfits) as [E HE].
  destruct (generations_raster _ _ _ _ _ _ HX HD) as (HDr & _).
  destruct (generations_raster _ _ _ _ _ _ HX HE) as (HEr & _).
  destruct (generations_fits 1 0 (full_kernel k) n E HEr Hfits) as [O HO].
  destruct (generations_fits 0 1 (full_kernel k) n D HDr Hfits) as [C HC].
  exists D, E, O, C. rewrite HD, HE. simpl. rewrite HO, HC.
  do 4 (split; [done|]).
  split; [|split; [|split]].
  - rewrite generations_negate in HE.
    destruct (generations 1 0 (full_kernel k) n (negate X)) as [D'|] eqn:HD';
      simplify_eq/=.
    pose proof (included_negate _ _
      (dilations_full_extensive k n (negate X) D' HnX HnbX HD')) as Hincl.
    by rewrite negate_negate in Hincl.
  - by apply (dilations_full_extensive k n).
  - by apply (openings_full_anti_extensive k n X E O).
  - rewrite generations_negate' in HD.
    destruct (generations 0 1 (full_kernel k) n (negate X)) as [E'|] eqn:HE';
      simplify_eq/=.
    rewrite generations_negate, negate_negate in HC.
    destruct (generations 1 0 (full_kernel k) n E') as [O'|] eqn:HO';
      simplify_eq/=.
    pose proof (included_negate _ _
      (openings_full_anti_extensive k n (negate X) E' O' HnX HnbX HE' HO'))
      as Hincl.
    by rewrite negate_negate in Hincl.
Qed.

(** ** What [applyMorphology] leaves in its source *)

Section Source.
Context {St : Type}.
Implicit Types σ : state St.

Lemma for_each_app {A S' : Type} (body : A → S' → option S') l1 l2 : ∀ s,
  for_each body (l1 ++ l2) s = for_each body l1 s ≫= for_each body l2.
Proof.
  induction l1 as [|a l1 IH]; intros s; simpl; [done|].
  destruct (body a s); simpl; [apply IH|done].
Qed.

Lemma iterations_loop_last T F (cb : St → St) kernel src dst (n : nat) σ X D :
  heap σ !! src = Some X → heap σ !! dst = Some D → src ≠ dst →
  raster X → raster D → compatible X D →
  for_each (iteration_body T F cb kernel (kernel_offset kernel) src dst)
    (seqZ 0 (Z.of_nat (S n))) σ
  = Yn ← generations T F kernel n X;
    Y ← generation T F kernel Yn;
    Some (State (<[src:=Y]> (<[dst:=Yn]> (heap σ)))
            (Nat.iter (S n * Z.to_nat (height X)) cb (sink σ))).
Proof.
  intros Hsrc Hdst Hne HX HD HXD.
  rewrite seqZ_S, for_each_app.
  pose proof (iterations_loop T F cb kernel src dst n 0 σ X D
                Hsrc Hdst Hne HX HD HXD) as Hloop.
  destruct (generations T F kernel n X) as [Yn|] eqn:HYn; [|by rewrite Hloop].
  destruct Hloop as (P & HP & HPX & ->).
  destruct (generations_raster _ _ _ _ _ _ HX HYn) as (HYnr & HYnw & HYnh).
  cbn [mbind option_bind]. rewrite for_each_cons.
  rewrite (iteration_body_generation T F cb kernel src dst Yn P); simpl;
    [|by rewrite lookup_insert_eq
     |by rewrite lookup_insert_ne, lookup_insert_eq
     |done|done|done
     |destruct HPX; split; congruence].
  destruct (generation T F kernel Yn) as [Y|]; simpl; [|done].
  rewrite HYnh, <- Nat.iter_add. do 2 f_equal. same_store.
Qed.

(** X17.  [applyMorphology] writes to its source: after N >= 1 iterations
    the source plane holds generation N - 1 of what it held, its first
    content for N = 1; with no iteration the closing exchange leaves the
    content of the destination in it.  The call faults exactly when one of
    the N passes does. *)
Theorem source_holds_previous_generation T F src dst iterations kernel
  (cb : St → St) X D σ :
  heap σ !! src = Some X → heap σ !! dst = Some D → src ≠ dst →
  raster X → raster D → compatible X D →
  (1 ≤ iterations →
   plane_after src (applyMorphology T F src dst iterations kernel cb σ)
   = Y ← generations T F kernel (Z.to_nat (iterations - 1)) X;
     _ ← generation T F kernel Y;
     Some Y)
  ∧ (iterations ≤ 0 →
     plane_after src (applyMorphology T F src dst iterations kernel cb σ)
     = Some D).
Proof.
  intros Hsrc Hdst Hne HX HD HXD. split; intros Hit.
  - unfold applyMorphology.
    replace iterations with (Z.of_nat (S (Z.to_nat (iterations - 1))))
      at 1 by lia.
    rewrite (iterations_loop_last T F cb kernel src dst _ σ X D) by done.
    destruct (generations T F kernel _ X) as [Yn|]; simpl; [|done].
    destruct (generation T F kernel Yn) as [Y|]; simpl; [|done].
    rewrite (swap_planes src dst Y Yn); simpl.
    + by rewrite lookup_insert_eq.
    + by rewrite lookup_insert_eq.
    + by rewrite lookup_insert_ne, lookup_insert_eq.
  - rewrite applyMorphology_no_iteration by done.
    rewrite (swap_planes src dst X D) by done. simpl.
    by rewrite lookup_insert_eq.
Qed.

End Source.

(** ** Values other than the two sentinels *)

Lemma flagged_same T X Y kernel cells :
  (∀ c, c ∈ cells → p X c.1 c.2 = Some T ↔ p Y c.1 c.2 = Some T) →
  flagged T X kernel cells = flagged T Y kernel cells.
Proof.
  intros Hsame. apply eq_true_iff_eq. split.
  - apply flagged_impl. intros c Hc. by apply Hsame.
  - apply flagged_impl. intros c Hc. by apply Hsame.
Qed.

Lemma mapM_ext_in {A B : Type} (f g : A → option B) l :
  (∀ a, a ∈ l → f a = g a) → mapM f l = mapM g l.
Proof.
  induction l as [|a l IH]; intros Hfg; [done|].
  rewrite !mapM_cons, (Hfg a), IH; [done| |by left].
  intros a' Ha'. apply Hfg. by right.
Qed.

Lemma generation_same T F kernel X Y :
  raster X → raster Y → same_at T X Y →
  generation T F kernel X = generation T F kernel Y.
Proof.
  intros HX HY ([Hw Hh] & Hsame). unfold generation. rewrite <- Hw, <- Hh.
  rewrite (mapM_ext_in (new_row T F kernel X) (new_row T F kernel Y)); [done|].
  intros y Hy. apply elem_of_seqZ in Hy. unfold new_row. rewrite <- Hw.
  apply mapM_ext_in. intros x Hx. apply elem_of_seqZ in Hx.
  unfold new_pixel. rewrite !scan_pixel_flagged by done.
  rewrite <- (visited_compatible X Y) by done.
  rewrite (flagged_same T X Y); [done|].
  intros c Hc. apply visited_inside in Hc as [? ?]. by apply Hsame.
Qed.

Lemma generations_same T F kernel n X Y :
  raster X → raster Y → same_at T X Y →
  generations T F kernel (S n) X = generations T F kernel (S n) Y.
Proof.
  intros HX HY Hsame. simpl. by rewrite (generation_same T F kernel X Y).
Qed.

(** X18.  A pixel value other than 0 and 1 counts as background for Dilate
    and as foreground for Erode: with at least one iteration, Dilate and
    Closing give the same result on two rasters that hold 1 at the same
    pixels, and Erode and Opening on two rasters that hold 0 at the same
    pixels. *)
Theorem only_the_sentinel_counts iterations kernel X Y :
  raster X → raster Y → 1 ≤ iterations →
  (same_at 1 X Y →
   run dilate iterations kernel X = run dilate iterations kernel Y
   ∧ run close iterations kernel X = run close iterations kernel Y)
  ∧ (same_at 0 X Y →
     run erode iterations kernel X = run erode iterations kernel Y
     ∧ run open iterations kernel X = run open iterations kernel Y).
Proof.
  intros HX HY Hit. rewrite !run_dilate, !run_erode, !run_open, !run_close
    by done.
  destruct (Z.to_nat iterations) as [|n] eqn:Hn; [lia|].
  split; intros Hsame.
  - by rewrite (generations_same 1 0 kernel n X Y).
  - by rewrite (generations_same 0 1 kernel n X Y).
Qed.

(** * The progress reports of a team of workers *)

Section Workers.
Variable workers : nat.
Variable totalLines : Z.

Lemma worker_step_on_the_way rows c0 log0 s s' :
  on_the_way totalLines rows c0 log0 s → worker_step workers totalLines s s' →
  on_the_way totalLines rows c0 log0 s'.
Proof.
  intros (Hrows & Hc & log & Hlog & Hperm) Hstep.
  destruct Hstep as [c held log1 n Hfree|c held1 k held2 log1 n];
    unfold on_the_way; simpl in *.
  - split; [lia|]. split; [lia|]. exists log. split; [done|].
    replace (rows - n)%nat with (S (rows - S n)) by lia.
    rewrite seqZ_S, !fmap_app, app_assoc, Hperm. simpl.
    do 3 f_equiv. lia.
  - split; [done|]. split; [done|]. exists (log ++ [fraction totalLines k]).
    split; [by rewrite Hlog, app_assoc|].
    rewrite <- Hperm, !fmap_app, fmap_cons, <- !app_assoc. f_equiv. simpl.
    by rewrite Permutation_middle.
Qed.

(** In a pass every row is counted, and the fraction of every value of the
    counter is reported once. *)
Lemma pass_reports rows c log c' log' :
  pass workers totalLines rows c log c' log' →
  c' = c + Z.of_nat rows
  ∧ ∃ new, log' = log ++ new
           ∧ new ≡ₚ fraction totalLines <$> seqZ (c + 1) (Z.of_nat rows).
Proof.
  unfold pass. intros Hrun.
  assert (Hend : on_the_way totalLines rows c log (Workers c' [] log' 0)).
  { revert Hrun. apply (rtc_ind_r (on_the_way totalLines rows c log)).
    - split; [done|]. simpl. rewrite Nat.sub_diag, Z.add_0_r.
      split; [done|]. exists []. by rewrite app_nil_r.
    - intros s s' _ Hstep Hs.
      by apply (worker_step_on_the_way rows c log s). }
  destruct Hend as (_ & Hc & new & Hlog & Hperm). simpl in *.
  rewrite Nat.sub_0_r in Hc, Hperm. rewrite app_nil_r in Hperm. eauto.
Qed.




Lemma passes_counted rows n : ∀ c log c' log',
  passes workers totalLines rows n c log c' log' →
  ∃ new, log' = log ++ new
         ∧ new ≡ₚ fraction totalLines <$> seqZ (c + 1) (Z.of_nat (n * rows)).
Proof.
  induction n as [|n IH]; intros c log c' log' Hrun; simpl in Hrun.
  - destruct Hrun as [-> ->]. exists []. by rewrite app_nil_r.
  - destruct Hrun as (c1 & log1 & Hpass & Hrest).
    apply pass_reports in Hpass as (-> & new & -> & Hnew).
    apply IH in Hrest as (new' & -> & Hnew').
    exists (new ++ new'). split; [by rewrite <- app_assoc|].
    rewrite Hnew, Hnew', <- fmap_app. f_equiv.
    replace (Z.of_nat (S n * rows)) with (Z.of_nat rows + Z.of_nat (n * rows))
      by lia.
    rewrite seqZ_app by lia. do 2 f_equiv. lia.
Qed.



End Workers.





(** The worker model makes as many reports as the loops of
    [applyMorphology] call the callback. *)
Lemma reports_as_many_as_calls workers (new_pixels : Z → Z → list Z) _result
  image kernel_property iterations operation (h : gmap loc IPLImagePlane) X o
  reports :
  (∀ w h, length (new_pixels w h) = Z.to_nat (w * h)) →
  h !! image = Some X → raster X →
  processInputData new_pixels _result image kernel_property iterations
    operation h = Some o →
  may_report workers new_pixels _result image kernel_property iterations
    operation h reports →
  length reports = length (fractions o).
Proof.
  intros Hnew Himage HX Ho (o' & X' & c & _ & Himage' & Hrun).
  assert (X' = X) as -> by congruence.
  assert (Hres : _result ≠ Some image).
  { intros ->. unfold processInputData in Ho.
    by rewrite lookup_delete_eq in Ho. }
  apply passes_counted in Hrun as (new & -> & Hnew'). simpl.
  rewrite Hnew', length_fmap, length_seqZ, Nat2Z.id.
  rewrite (processInputData_run new_pixels Hnew _ _ _ _ _ _ X) in Ho by done.
  unfold pass_count. repeat case_bool_decide.
  - destruct (generations 1 0 _ _ X); simplify_eq/=.
    rewrite reported_iter, length_fmap, length_seqZ. lia.
  - destruct (generations 0 1 _ _ X); simplify_eq/=.
    rewrite reported_iter, length_fmap, length_seqZ. lia.
  - destruct (generations 0 1 _ _ X) as [Y|]; simplify_eq/=.
    destruct (generations 1 0 _ _ Y); simplify_eq/=.
    rewrite reported_iter, length_fmap, length_seqZ. lia.
  - destruct (generations 1 0 _ _ X) as [Y|]; simplify_eq/=.
    destruct (generations 0 1 _ _ Y); simplify_eq/=.
    rewrite reported_iter, length_fmap, length_seqZ. lia.
  - simplify_eq/=. lia.
Qed.








(** * Properties of the camera calibration *)

Section CalibrationProperties.
Import IPLCameraCalibration.
Context {cv : OpenCV}.

(** ** The corners of the board *)

Lemma bind_singleton {A B : Type} (g : A → B) (l : list A) :
  l ≫= (λ x, [g x]) = g <$> l.
Proof. induction l as [|a l IH]; [done|]. simpl. by f_equal. Qed.

Lemma bind_rows_lookup {A : Type} (row : Z → list A) (w : nat) :
  (∀ i, length (row i) = w) →
  ∀ (n : nat) (m : Z) (i j : nat), (i < n)%nat → (j < w)%nat →
  (seqZ m (Z.of_nat n) ≫= row) !! (i * w + j)%nat
  = row (m + Z.of_nat i) !! j.
Proof.
  intros Hrow. induction n as [|n IH]; intros m i j Hi Hj; [lia|].
  rewrite Nat2Z.inj_succ, seqZ_cons by lia.
  replace (Z.pred (Z.succ (Z.of_nat n))) with (Z.of_nat n) by lia.
  change ((row m ++ (seqZ (Z.succ m) (Z.of_nat n) ≫= row))
          !! (i * w + j)%nat = row (m + Z.of_nat i) !! j).
  destruct i as [|i].
  - rewrite lookup_app_l by (rewrite Hrow; lia).
    by rewrite Z.add_0_r.
  - rewrite lookup_app_r by (rewrite Hrow; lia). rewrite Hrow.
    replace (S i * w + j - w)%nat with (i * w + j)%nat by lia.
    rewrite IH by lia. f_equal. f_equal. lia.
Qed.

Lemma bind_rows_length {A : Type} (row : Z → list A) (w : nat) :
  (∀ i, length (row i) = w) →
  ∀ (n : nat) (m : Z), length (seqZ m (Z.of_nat n) ≫= row) = (n * w)%nat.
Proof.
  intros Hrow. induction n as [|n IH]; intros m; [done|].
  rewrite Nat2Z.inj_succ, seqZ_cons by lia.
  replace (Z.pred (Z.succ (Z.of_nat n))) with (Z.of_nat n) by lia.
  change (length (row m ++ (seqZ (Z.succ m) (Z.of_nat n) ≫= row))
          = (S n * w)%nat).
  rewrite length_app, Hrow, IH. lia.
Qed.

Lemma grid_lookup {A : Type} (g : Z → Z → A) (w h i j : Z) :
  0 ≤ i < h → 0 ≤ j < w →
  (i ← seqZ 0 h; j ← seqZ 0 w; [g i j]) !! Z.to_nat (i * w + j)
  = Some (g i j).
Proof.
  intros Hi Hj.
  rewrite (seqZ_to_nat 0 h).
  replace (Z.to_nat (i * w + j))
    with (Z.to_nat i * Z.to_nat w + Z.to_nat j)%nat by nia.
  rewrite (bind_rows_lookup (λ i, j ← seqZ 0 w; [g i j]) (Z.to_nat w));
    [| |lia|lia].
  - rewrite bind_singleton, list_lookup_fmap, Z.add_0_l, Z2Nat.id by lia.
    rewrite lookup_seqZ_lt by lia. simpl. do 2 f_equal. lia.
  - intros i'. rewrite bind_singleton, length_fmap, length_seqZ. done.
Qed.

Lemma grid_length {A : Type} (g : Z → Z → A) (w h : Z) :
  length (i ← seqZ 0 h; j ← seqZ 0 w; [g i j])
  = (Z.to_nat h * Z.to_nat w)%nat.
Proof.
  rewrite (seqZ_to_nat 0 h).
  apply (bind_rows_length (λ i, j ← seqZ 0 w; [g i j]) (Z.to_nat w)).
  intros i'. by rewrite bind_singleton, length_fmap, length_seqZ.
Qed.

(** X19.  [calcChessboardCorners] gives height x width corners for each of
    the three patterns, row by row: the corner of row i and column j is
    the entry i * width + j and lies at (j s, i s, 0), for the asymmetric
    grid at ((2 j + i mod 2) s, i s, 0), s being the size of a square. *)
Theorem corners_lie_row_by_row (boardSize : Size) (squareSize : float)
  (patternType : Pattern) :
  patternType = CHESSBOARD ∨ patternType = CIRCLES_GRID
  ∨ patternType = ASYMMETRIC_CIRCLES_GRID →
  length (calcChessboardCorners boardSize squareSize patternType)
  = (Z.to_nat boardSize.2 * Z.to_nat boardSize.1)%nat
  ∧ ∀ i j, 0 ≤ i < boardSize.2 → 0 ≤ j < boardSize.1 →
      calcChessboardCorners boardSize squareSize patternType
        !! Z.to_nat (i * boardSize.1 + j)
      = Some (fmul (float_of_int
                      (if decide (patternType = ASYMMETRIC_CIRCLES_GRID)
                       then 2 * j + i `mod` 2 else j)) squareSize,
              fmul (float_of_int i) squareSize,
              float_of_int 0).
Proof.
  intros [-> | [-> | ->]]; (split; [apply grid_length|]); intros i j Hi Hj;
    unfold calcChessboardCorners.
  - by rewrite grid_lookup.
  - by rewrite grid_lookup.
  - rewrite grid_lookup by done. simpl.
    by rewrite Z.rem_mod_nonneg by lia.
Qed.

(** ** One call *)

Lemma detection_step input output boardSize tt points msgs out points' mode msgs' :
  detection input output boardSize tt points msgs
  = Some (out, points', mode, msgs') →
  0 ≤ tt ≤ 2
  ∧ (points' = points ∨ ∃ pointBuf, points' = points ++ [pointBuf])
  ∧ (mode = DETECTION ∧ Z.of_nat (length points') ≤ 10
     ∨ mode = CALIBRATION ∧ 10 < Z.of_nat (length points')).
Proof.
  unfold detection, find_pattern. intros Hdet.
  split.
  { repeat case_bool_decide; try lia. done. }
  destruct (if bool_decide (tt = 0) then _ else _) as [[found pointBuf]|];
    [|done].
  simplify_eq/=. split.
  - destruct found; eauto.
  - case_bool_decide; [right|left]; split; (done || lia).
Qed.

Lemma calibration_attempt_step points imageSize boardSize tt msgs mode msgs' :
  calibration_attempt points imageSize boardSize tt msgs = Some (mode, msgs') →
  mode = CALIBRATION ∨ mode = CALIBRATED.
Proof.
  unfold calibration_attempt. intros Hcal.
  destruct (runCalibration _ _ _ _ _ _ _ _) as [[[] c]|]; simplify_eq/=; auto.
Qed.

Lemma processInputData_step this d tt tc tr s b this' :
  processInputData this d tt tc tr s = Some (b, this') →
  b = true
  ∧ ((_frameCounter this < s
      ∧ _frameCounter this' = _frameCounter this + 1
      ∧ _mode this' = _mode this
      ∧ _imagePoints this' = _imagePoints this)
     ∨ (¬ _frameCounter this < s
        ∧ _frameCounter this' = 0
        ∧ ((_mode this = DETECTION
            ∧ 0 ≤ tt ≤ 2
            ∧ (_imagePoints this' = _imagePoints this
               ∨ ∃ pointBuf,
                   _imagePoints this' = _imagePoints this ++ [pointBuf])
            ∧ (_mode this' = DETECTION
               ↔ Z.of_nat (length (_imagePoints this')) ≤ 10))
           ∨ (_mode this ≠ DETECTION
              ∧ _imagePoints this' = _imagePoints this
              ∧ mode_rank (_mode this) ≤ mode_rank (_mode this'))))).
Proof.
  unfold processInputData. intros Hcall.
  case_bool_decide as Hskip.
  { simplify_eq/=. split; [done|]. left. done. }
  destruct (decide (_mode this = DETECTION)) as [Hmode|Hmode].
  - destruct (detection _ _ _ _ _ _) as [[[[out points] mode] msgs]|] eqn:Hdet;
      [|done].
    apply detection_step in Hdet as (Htt & Hpoints & Hmode').
    cbn [mbind option_bind] in Hcall.
    destruct (decide (mode = CALIBRATION)) as [->|Hcal].
    + destruct (calibration_attempt _ _ _ _ _) as [[mode' msgs']|] eqn:Hatt;
        simplify_eq/=.
      apply calibration_attempt_step in Hatt.
      split; [done|]. right. do 2 (split; [done|]). left.
      do 3 (split; [done|]).
      destruct Hmode' as [[? ?]|[_ Hlen]]; [done|].
      split; [|lia]. destruct Hatt; congruence.
    + simplify_eq/=.
      split; [done|]. right. do 2 (split; [done|]). left.
      do 3 (split; [done|]).
      destruct Hmode' as [[-> ?]|[? _]]; done.
  - cbn [mbind option_bind] in Hcall.
    destruct (decide (_mode this = CALIBRATION)) as [Hcal|Hcal].
    + destruct (calibration_attempt _ _ _ _ _) as [[mode' msgs']|] eqn:Hatt;
        simplify_eq/=.
      apply calibration_attempt_step in Hatt.
      split; [done|]. right. do 2 (split; [done|]). right.
      do 2 (split; [done|]). rewrite Hcal. destruct Hatt as [-> | ->]; done.
    + simplify_eq/=.
      split; [done|]. right. do 2 (split; [done|]). right. done.
Qed.

Lemma mode_rank_nonneg m : 0 ≤ mode_rank m.
Proof. by destruct m. Qed.

Lemma mode_rank_DETECTION m : mode_rank m ≤ 0 → m = DETECTION.
Proof. by destruct m. Qed.

(** ** A series of calls *)

Lemma calls_ind (P : object → Prop) frames : ∀ this this',
  (∀ this f b this',
     f ∈ frames → P this →
     processInputData this (data f) (targetType f) (targetCols f)
       (targetRows f) (skipFrames f) = Some (b, this') →
     P this') →
  P this → calls frames this = Some this' → P this'.
Proof.
  induction frames as [|f frames IH]; intros this this' Hstep HP Hcalls;
    simpl in Hcalls.
  - by simplify_eq.
  - destruct (processInputData this _ _ _ _ _) as [[b this1]|] eqn:Hcall;
      [|done].
    simpl in Hcalls. apply (IH this1 this'); [|  |done].
    + intros this2 f' b' this3 Hf'. apply Hstep. by right.
    + apply (Hstep this f b this1); [by left|done|done].
Qed.

(** X21.  The mode never goes back: over any series of calls it stays or
    moves on from DETECTION to CALIBRATION to CALIBRATED, whatever the
    images and the properties. *)
Theorem mode_never_goes_back frames this this' :
  calls frames this = Some this' →
  mode_rank (_mode this) ≤ mode_rank (_mode this').
Proof.
  apply (calls_ind (λ o, mode_rank (_mode this) ≤ mode_rank (_mode o)));
    [|done].
  intros this1 f b this2 _ Hle Hcall.
  apply processInputData_step in Hcall
    as (_ & [(_ & _ & Hsame & _)
            |(_ & _ & [(Hdet & _)|(_ & _ & Hrank)])]).
  - by rewrite Hsame.
  - rewrite Hdet in Hle. apply mode_rank_DETECTION in Hle. rewrite Hle.
    apply mode_rank_nonneg.
  - lia.
Qed.

Lemma views_step this d tt tc tr s b this' :
  processInputData this d tt tc tr s = Some (b, this') →
  (_mode this = DETECTION ∧ (length (_imagePoints this) ≤ 10)%nat)
  ∨ (_mode this ≠ DETECTION ∧ length (_imagePoints this) = 11%nat) →
  (_mode this' = DETECTION ∧ (length (_imagePoints this') ≤ 10)%nat)
  ∨ (_mode this' ≠ DETECTION ∧ length (_imagePoints this') = 11%nat).
Proof.
  intros Hcall Hinv.
  apply processInputData_step in Hcall
    as (_ & [(_ & _ & Hsame & Hpts)
            |(_ & _ & [(Hmode & _ & Hpoints & Hiff)
                      |(Hmode & Hsame & Hrank)])]).
  - by rewrite Hsame, Hpts.
  - destruct Hinv as [[_ Hlen]|[? _]]; [|done].
    assert (Hlen' : (length (_imagePoints this') ≤ 11)%nat).
    { destruct Hpoints as [->|[pointBuf ->]]; [lia|].
      rewrite length_app. simpl. lia. }
    destruct (decide (length (_imagePoints this') ≤ 10)%nat) as [Hle|Hgt].
    + left. split; [|done]. apply Hiff. lia.
    + right. split; [|lia]. intros Hdet. apply Hiff in Hdet. lia.
  - destruct Hinv as [[? _]|[_ Hlen]]; [done|]. right.
    split; [|by rewrite Hsame].
    intros Hdet. rewrite Hdet in Hrank.
    apply mode_rank_DETECTION in Hrank. done.
Qed.

(** X22.  An object in mode DETECTION with at most 10 views is, after any
    series of calls, either still in DETECTION with at most 10 views or
    past it with exactly 11: no view is added once the detection has
    ended, so that every calibration is one of 11 views. *)
Theorem calibration_uses_eleven_views frames this this' :
  _mode this = DETECTION → (length (_imagePoints this) ≤ 10)%nat →
  calls frames this = Some this' →
  (_mode this' = DETECTION ∧ (length (_imagePoints this') ≤ 10)%nat)
  ∨ (_mode this' ≠ DETECTION ∧ length (_imagePoints this') = 11%nat).
Proof.
  intros Hmode Hlen.
  apply (calls_ind (λ o,
    (_mode o = DETECTION ∧ (length (_imagePoints o) ≤ 10)%nat)
    ∨ (_mode o ≠ DETECTION ∧ length (_imagePoints o) = 11%nat))); [|auto].
  intros this1 f b this2 _ Hinv Hcall. by apply (views_step _ _ _ _ _ _ _ _ Hcall).
Qed.

(** ** Frames skipped *)

(** X20.  With the property skipFrames at s in every call, s not negative,
    the frame counter after n calls is (c + n) mod (s + 1), c being its
    value before them: of every s + 1 calls one processes its frame and
    the others skip it. *)
Theorem one_frame_in_skipFrames_plus_one_is_processed s frames this this' :
  0 ≤ s → Forall (λ f, skipFrames f = s) frames →
  0 ≤ _frameCounter this ≤ s →
  calls frames this = Some this' →
  _frameCounter this'
  = (_frameCounter this + Z.of_nat (length frames)) `mod` (s + 1).
Proof.
  intros Hs. revert this.
  induction frames as [|f frames IH]; intros this Hframes Hc Hcalls;
    simpl in Hcalls.
  - simplify_eq. simpl. rewrite Z.add_0_r, Z.mod_small; lia.
  - destruct (Forall_cons_1 _ _ _ Hframes) as [Hf Hframes'].
    destruct (processInputData this _ _ _ _ _) as [[b this1]|] eqn:Hcall;
      [|done].
    simpl in Hcalls. rewrite Hf in Hcall.
    apply processInputData_step in Hcall
      as (_ & [(Hskip & Hcount & _)|(Hskip & Hcount & _)]).
    + rewrite (IH this1 Hframes') by (done || lia). rewrite Hcount.
      f_equal. simpl length. lia.
    + rewrite (IH this1 Hframes') by (done || lia). rewrite Hcount.
      assert (_frameCounter this = s) as -> by lia. simpl length.
      replace (s + Z.of_nat (S (length frames)))
        with (0 + Z.of_nat (length frames) + 1 * (s + 1)) by lia.
      by rewrite Z.mod_add by lia.
Qed.

Lemma count_step s this d tt tc tr b this' n :
  0 ≤ s → processInputData this d tt tc tr s = Some (b, this') →
  0 ≤ _frameCounter this ≤ s
  ∧ (s + 1) * Z.of_nat (length (_imagePoints this)) + _frameCounter this ≤ n →
  0 ≤ _frameCounter this' ≤ s
  ∧ (s + 1) * Z.of_nat (length (_imagePoints this')) + _frameCounter this'
    ≤ n + 1.
Proof.
  intros Hs Hcall [Hc Hn].
  apply processInputData_step in Hcall
    as (_ & [(Hskip & Hcount & _ & Hpts)
            |(Hskip & Hcount & [(_ & _ & Hpoints & _)|(_ & Hpts & _)])]).
  - rewrite Hcount, Hpts. lia.
  - rewrite Hcount. destruct Hpoints as [->|[pointBuf ->]]; [lia|].
    rewrite length_app. simpl. lia.
  - rewrite Hcount, Hpts. lia.
Qed.

Lemma count_calls s frames : ∀ this this' n,
  0 ≤ s → Forall (λ f, skipFrames f = s) frames →
  calls frames this = Some this' →
  0 ≤ _frameCounter this ≤ s
  ∧ (s + 1) * Z.of_nat (length (_imagePoints this)) + _frameCounter this ≤ n →
  0 ≤ _frameCounter this' ≤ s
  ∧ (s + 1) * Z.of_nat (length (_imagePoints this')) + _frameCounter this'
    ≤ n + Z.of_nat (length frames).
Proof.
  induction frames as [|f frames IH]; intros this this' n Hs Hframes Hcalls Hinv;
    simpl in Hcalls.
  - simplify_eq. simpl. by rewrite Z.add_0_r.
  - destruct (Forall_cons_1 _ _ _ Hframes) as [Hf Hframes'].
    destruct (processInputData this _ _ _ _ _) as [[b this1]|] eqn:Hcall;
      [|done].
    simpl in Hcalls. rewrite Hf in Hcall.
    pose proof (count_step s _ _ _ _ _ _ _ n Hs Hcall Hinv) as Hinv1.
    pose proof (IH this1 this' (n + 1) Hs Hframes' Hcalls Hinv1) as Hinv'.
    simpl length. lia.
Qed.

(** X23.  An object with no view and a frame counter of 0 that leaves the
    mode DETECTION has been called at least 11 (s + 1) times, s being the
    value of the property skipFrames in these calls. *)
Theorem calibration_starts_after_enough_calls s frames this this' :
  0 ≤ s → Forall (λ f, skipFrames f = s) frames →
  _mode this = DETECTION → _imagePoints this = [] → _frameCounter this = 0 →
  calls frames this = Some this' → _mode this' ≠ DETECTION →
  11 * (s + 1) ≤ Z.of_nat (length frames).
Proof.
  intros Hs Hframes Hmode Hpoints Hcount Hcalls Hmode'.
  destruct (count_calls s frames this this' 0 Hs Hframes Hcalls) as [Hc Hn].
  { rewrite Hpoints, Hcount. simpl. lia. }
  assert (Hviews :
    (_mode this' = DETECTION ∧ (length (_imagePoints this') ≤ 10)%nat)
    ∨ (_mode this' ≠ DETECTION ∧ length (_imagePoints this') = 11%nat)).
  { revert Hcalls.
    apply (calls_ind (λ o,
      (_mode o = DETECTION ∧ (length (_imagePoints o) ≤ 10)%nat)
      ∨ (_mode o ≠ DETECTION ∧ length (_imagePoints o) = 11%nat))).
    - intros this1 f b this2 _ Hinv Hcall.
      by apply (views_step _ _ _ _ _ _ _ _ Hcall).
    - left. rewrite Hpoints. simpl. split; [done|lia]. }
  destruct Hviews as [[? _]|[_ Hlen]]; [done|]. rewrite Hlen in Hn. lia.
Qed.

(** ** Target types *)

(** X25.  In mode DETECTION a call that processes its frame with a target
    type other than 0, 1 and 2 tests the variable [found] of line 126,
    which no case of the switch has given a value: the call has no defined
    result. *)
Theorem unknown_target_type_faults this d tt tc tr s :
  _mode this = DETECTION → ¬ _frameCounter this < s → ¬ 0 ≤ tt ≤ 2 →
  processInputData this d tt tc tr s = None.
Proof.
  intros Hmode Hskip Htt.
  destruct (processInputData this d tt tc tr s) as [[b this']|] eqn:Hcall;
    [|done].
  apply processInputData_step in Hcall
    as (_ & [(? & _)|(_ & _ & [(_ & ? & _)|(? & _)])]); done.
Qed.

(** ** A calibration that fails *)

Lemma failed_attempt this d tt tc tr s b this' :
  processInputData this d tt tc tr s = Some (b, this') →
  ¬ _frameCounter this < s → _mode this' = CALIBRATION →
  calibration_fails (_imagePoints this') (image_width d, image_height d)
    (tc, tr) tt.
Proof.
  unfold processInputData. intros Hcall Hskip Hmode'.
  rewrite bool_decide_false in Hcall by done.
  assert (Hatt : ∀ points msgs mode msgs',
    calibration_attempt points (image_width d, image_height d) (tc, tr) tt msgs
    = Some (mode, msgs') → mode = CALIBRATION →
    calibration_fails points (image_width d, image_height d) (tc, tr) tt).
  { unfold calibration_attempt, calibration_fails.
    intros points msgs mode msgs' Hatt ->.
    destruct (runCalibration _ _ _ _ _ _ _ _) as [[[] c]|]; simplify_eq/=.
    by exists c. }
  destruct (decide (_mode this = DETECTION)) as [Hmode|Hmode].
  - destruct (detection _ _ _ _ _ _) as [[[[out points] mode] msgs]|] eqn:Hdet;
      [|done].
    cbn [mbind option_bind] in Hcall.
    destruct (decide (mode = CALIBRATION)) as [->|Hcal].
    + destruct (calibration_attempt _ _ _ _ _) as [[mode' msgs']|] eqn:Hcal;
        simplify_eq/=.
      by apply (Hatt _ _ _ _ Hcal).
    + by simplify_eq/=.
  - cbn [mbind option_bind] in Hcall.
    destruct (decide (_mode this = CALIBRATION)) as [Hcal|Hcal].
    + destruct (calibration_attempt _ _ _ _ _) as [[mode' msgs']|] eqn:Hcal';
        simplify_eq/=.
      by apply (Hatt _ _ _ _ Hcal').
    + by simplify_eq/=.
Qed.

Lemma repeated_attempt this d tt tc tr s :
  _mode this = CALIBRATION →
  calibration_fails (_imagePoints this) (image_width d, image_height d)
    (tc, tr) tt →
  ∃ this', processInputData this d tt tc tr s = Some (true, this')
           ∧ _mode this' = CALIBRATION
           ∧ _imagePoints this' = _imagePoints this.
Proof.
  intros Hmode [c Hfails]. unfold processInputData.
  case_bool_decide; [by eexists|].
  rewrite Hmode. simpl. unfold calibration_attempt. rewrite Hfails. simpl.
  by eexists.
Qed.

(** X24.  A calibration that fails is tried again on the same views: when
    a call that processes its frame leaves the mode CALIBRATION, all later
    calls with images of the same size and the same target properties
    return and leave the mode CALIBRATION and the views as they are. *)
Theorem failed_calibration_is_repeated this0 d tt tc tr s b this frames :
  processInputData this0 d tt tc tr s = Some (b, this) →
  ¬ _frameCounter this0 < s → _mode this = CALIBRATION →
  Forall (λ f, image_width (data f) = image_width d
               ∧ image_height (data f) = image_height d
               ∧ targetType f = tt ∧ targetCols f = tc ∧ targetRows f = tr)
    frames →
  ∃ this', calls frames this = Some this'
           ∧ _mode this' = CALIBRATION
           ∧ _imagePoints this' = _imagePoints this.
Proof.
  intros Hcall Hskip Hmode Hframes.
  pose proof (failed_attempt _ _ _ _ _ _ _ _ Hcall Hskip Hmode) as Hfails.
  clear Hcall Hskip. revert this Hmode Hfails.
  induction Hframes as [|f frames (Hw & Hh & Htt & Htc & Htr) _ IH];
    intros this Hmode Hfails; simpl.
  - by exists this.
  - rewrite Htt, Htc, Htr.
    destruct (repeated_attempt this (data f) tt tc tr (skipFrames f))
      as (this1 & -> & Hmode1 & Hpoints1); [done|by rewrite Hw, Hh|].
    simpl. rewrite <- Hpoints1 in Hfails |- *. by apply IH.
Qed.

(** ** Reprojection errors *)

Lemma for_each_fails {A St : Type} (body : A → St → option St) i l :
  (∀ s, body i s = None) → i ∈ l → ∀ s, for_each body l s = None.
Proof.
  intros Hfail. induction l as [|a l IH]; intros Hi s.
  - by apply not_elem_of_nil in Hi.
  - simpl. apply elem_of_cons in Hi as [<-|Hi]; [by rewrite Hfail|].
    destruct (body a s); simpl; [by apply IH|done].
Qed.

Lemma length_resize {A : Type} n (x : A) v : length (resize n x v) = n.
Proof. unfold resize. rewrite length_app, length_take, length_replicate. lia. Qed.

Lemma view_errors_run objectPoints imagePoints rvecs_ tvecs_ cm dc l : ∀ s,
  Forall (λ i, (i < length objectPoints)%nat) l →
  (length objectPoints ≤ length imagePoints)%nat →
  (length objectPoints ≤ length rvecs_)%nat →
  (length objectPoints ≤ length tvecs_)%nat →
  length (viewErrors s) = length objectPoints →
  ∃ s', for_each (view_error objectPoints imagePoints rvecs_ tvecs_ cm dc) l s
        = Some s'
        ∧ length (viewErrors s') = length objectPoints.
Proof.
  induction l as [|i l IH]; intros s Hl Hi Hr Ht Hs.
  - by exists s.
  - destruct (Forall_cons_1 _ _ _ Hl) as [Hlt Hl'].
    assert (∃ s1, view_error objectPoints imagePoints rvecs_ tvecs_ cm dc i s
                  = Some s1
                  ∧ length (viewErrors s1) = length objectPoints)
      as (s1 & Hs1 & Hlen1).
    { unfold view_error.
      destruct (lookup_lt_is_Some_2 objectPoints i Hlt) as [o ->].
      destruct (lookup_lt_is_Some_2 rvecs_ i) as [r ->]; [lia|].
      destruct (lookup_lt_is_Some_2 tvecs_ i) as [t' ->]; [lia|].
      destruct (lookup_lt_is_Some_2 imagePoints i) as [p' ->]; [lia|].
      destruct (lookup_lt_is_Some_2 (viewErrors s) i) as [e ->]; [lia|].
      eexists. split; [done|]. simpl. by rewrite length_insert. }
    rewrite for_each_cons, Hs1. by apply IH.
Qed.

(** X26.  Provided the calls of [cv::projectPoints] and [cv::norm] return,
    which the embedding takes every operation of [OpenCV] to do,
    [computeReprojectionErrors] returns exactly when imagePoints, rvecs
    and tvecs have an entry for every entry of objectPoints, and it then
    gives one error for every view. *)
Theorem reprojection_errors_need_every_view objectPoints imagePoints rvecs_
  tvecs_ cm dc errs :
  (is_Some (computeReprojectionErrors objectPoints imagePoints rvecs_ tvecs_
              cm dc errs)
   ↔ (length objectPoints ≤ length imagePoints)%nat
     ∧ (length objectPoints ≤ length rvecs_)%nat
     ∧ (length objectPoints ≤ length tvecs_)%nat)
  ∧ ∀ e errs',
      computeReprojectionErrors objectPoints imagePoints rvecs_ tvecs_ cm dc
        errs = Some (e, errs') →
      length errs' = length objectPoints.
Proof.
  unfold computeReprojectionErrors.
  set (s0 := Errors [] 0 (double_of_int 0)
               (resize (length objectPoints) (float_of_int 0) errs)).
  assert (Hs0 : length (viewErrors s0) = length objectPoints)
    by apply length_resize.
  assert (Hall : Forall (λ i, (i < length objectPoints)%nat)
                   (seq 0 (length objectPoints))).
  { apply Forall_seq. intros i Hi. lia. }
  assert (Hmissing : ∀ i, (i < length objectPoints)%nat →
    (length imagePoints ≤ i ∨ length rvecs_ ≤ i ∨ length tvecs_ ≤ i)%nat →
    for_each (view_error objectPoints imagePoints rvecs_ tvecs_ cm dc)
      (seq 0 (length objectPoints)) s0 = None).
  { intros i Hi Hshort. apply (for_each_fails _ i).
    - intros s. unfold view_error.
      destruct (objectPoints !! i); simpl; [|done].
      destruct (rvecs_ !! i) eqn:Hr; simpl; [|done].
      destruct (tvecs_ !! i) eqn:Ht; simpl; [|done].
      destruct (imagePoints !! i) eqn:Hp; simpl; [|done].
      apply lookup_lt_Some in Hr, Ht, Hp. lia.
    - apply elem_of_seq. lia. }
  split; [split|].
  - intros Hr.
    destruct (decide (length objectPoints ≤ length imagePoints
                      ∧ length objectPoints ≤ length rvecs_
                      ∧ length objectPoints ≤ length tvecs_)%nat)
      as [Hle|Hgt]; [done|].
    set (i := ((length imagePoints `min` length rvecs_)
               `min` length tvecs_)%nat).
    rewrite (Hmissing i) in Hr by lia. by destruct Hr.
  - intros (Hi & Hr & Ht).
    destruct (view_errors_run objectPoints imagePoints rvecs_ tvecs_ cm dc
                _ s0 Hall Hi Hr Ht Hs0) as (s' & -> & _).
    by eexists.
  - intros e errs' Hret.
    destruct (for_each _ _ _) as [s'|] eqn:Hrun; simplify_eq/=.
    destruct (decide (length objectPoints ≤ length imagePoints
                      ∧ length objectPoints ≤ length rvecs_
                      ∧ length objectPoints ≤ length tvecs_)%nat)
      as [(Hi & Hr & Ht)|Hgt].
    + destruct (view_errors_run objectPoints imagePoints rvecs_ tvecs_ cm dc
                  _ s0 Hall Hi Hr Ht Hs0) as (s'' & Hrun' & Hlen).
      congruence.
    + set (i := ((length imagePoints `min` length rvecs_)
                 `min` length tvecs_)%nat).
      by discriminate (Hmissing i ltac:(lia) ltac:(lia)).
Qed.

End CalibrationProperties.
(** * The further properties at concrete inputs *)

Lemma scan_pairs_flags_with_visited_pixels_witness :
  scan_pixel 1 corner_raster corner_kernel 1 0 0
  = if flagged 1 corner_raster corner_kernel (visited corner_raster 1 0 0)
    then Some true
    else if bool_decide (length (visited corner_raster 1 0 0)
                         ≤ length corner_kernel)%nat
         then Some false else None.
Proof.
  apply (scan_pairs_flags_with_visited_pixels 1 corner_raster corner_kernel
           1 0 0).
  unfold raster. simpl. lia.
Defined.

Lemma result_depends_on_source_only_witness :
  plane_after 2%positive
    (dilate 1%positive 2%positive 2 right_kernel S
       (two_planes corner_raster empty_raster))
  = run dilate 2 right_kernel corner_raster.
Proof.
  refine (proj1 (result_depends_on_source_only 1%positive 2%positive 2
                   right_kernel S corner_raster empty_raster
                   (two_planes corner_raster empty_raster) _ _ _ _ _)).
  - reflexivity.
  - reflexivity.
  - unfold raster. simpl. lia.
  - unfold raster. simpl. lia.
  - unfold compatible. simpl. lia.
Defined.

Lemma result_is_binary_witness :
  raster (Plane 3 3 [1; 1; 0; 1; 1; 0; 0; 0; 0])
  ∧ compatible (Plane 3 3 [1; 1; 0; 1; 1; 0; 0; 0; 0])
      (Plane 3 3 [1; 7; 0; 0; 0; 0; 0; 0; 0])
  ∧ binary (Plane 3 3 [1; 1; 0; 1; 1; 0; 0; 0; 0]).
Proof.
  apply (result_is_binary 1 corner_kernel
           (Plane 3 3 [1; 7; 0; 0; 0; 0; 0; 0; 0])).
  - unfold raster. simpl. lia.
  - lia.
  - left. vm_compute. reflexivity.
Defined.

Lemma iterations_compose_witness :
  dilate 1%positive 2%positive (1 + 2) right_kernel S
    (two_planes corner_raster empty_raster)
  = dilate 1%positive 2%positive 1 right_kernel S
      (two_planes corner_raster empty_raster)
    ≫= dilate 2%positive 2%positive 2 right_kernel S.
Proof.
  refine (proj1 (iterations_compose 1%positive 2%positive 1 2 right_kernel S
                   corner_raster empty_raster
                   (two_planes corner_raster empty_raster) _ _ _ _ _ _ _)).
  - lia.
  - lia.
  - reflexivity.
  - reflexivity.
  - unfold raster. simpl. lia.
  - unfold raster. simpl. lia.
  - unfold compatible. simpl. lia.
Defined.

Lemma duality_for_all_iterations_witness :
  run erode 3 right_kernel corner_raster
  = negate <$> run dilate 3 right_kernel (negate corner_raster).
Proof.
  refine (proj1 (duality_for_all_iterations 3 right_kernel corner_raster _)).
  unfold raster. simpl. lia.
Defined.

Lemma operations_are_increasing_witness :
  ∃ A B,
    run dilate 2 right_kernel speck_raster = Some A
    ∧ run dilate 2 right_kernel block_raster = Some B
    ∧ included A B.
Proof.
  do 2 eexists. split; [vm_compute; reflexivity|].
  split; [vm_compute; reflexivity|].
  refine (proj1 (operations_are_increasing 2 right_kernel speck_raster
                   block_raster _ _ _) _ _ _ _).
  - unfold raster. simpl. lia.
  - unfold raster. simpl. lia.
  - split; [done|]. intros x y Hx Hy. simpl in Hx, Hy.
    assert (Hxs : x = 0 ∨ x = 1 ∨ x = 2 ∨ x = 3 ∨ x = 4) by lia.
    assert (Hys : y = 0 ∨ y = 1 ∨ y = 2 ∨ y = 3 ∨ y = 4) by lia.
    destruct Hxs as [->|[->|[->|[->| ->]]]],
      Hys as [->|[->|[->|[->| ->]]]]; vm_compute; split; congruence.
  - vm_compute. reflexivity.
  - vm_compute. reflexivity.
Defined.

Lemma dilate_union_erode_intersection_witness :
  ∃ A B,
    run dilate 2 right_kernel corner_raster = Some A
    ∧ run dilate 2 right_kernel (Plane 3 3 [0; 0; 0; 0; 1; 0; 0; 0; 0])
      = Some B
    ∧ run dilate 2 right_kernel
        (plane_union corner_raster (Plane 3 3 [0; 0; 0; 0; 1; 0; 0; 0; 0]))
      = Some (plane_union A B).
Proof.
  do 2 eexists. split; [vm_compute; reflexivity|].
  split; [vm_compute; reflexivity|].
  refine (proj1 (dilate_union_erode_intersection 2 right_kernel corner_raster
                   (Plane 3 3 [0; 0; 0; 0; 1; 0; 0; 0; 0]) _ _ _ _ _) _ _ _ _).
  - unfold raster. simpl. lia.
  - unfold raster. simpl. lia.
  - unfold compatible. simpl. lia.
  - unfold binary. simpl. repeat constructor; lia.
  - unfold binary. simpl. repeat constructor; lia.
  - vm_compute. reflexivity.
  - vm_compute. reflexivity.
Defined.

Lemma interior_pixels_follow_kernel_layout_witness :
  ∃ D E,
    run dilate 1 right_kernel speck_raster = Some D
    ∧ run erode 1 right_kernel speck_raster = Some E
    ∧ (covers 1 right_kernel (Z.of_nat 1) speck_raster 1 2
       → p D 1 2 = Some 1)
    ∧ (¬ covers 1 right_kernel (Z.of_nat 1) speck_raster 1 2
       → p D 1 2 = Some 0)
    ∧ (covers 0 right_kernel (Z.of_nat 1) speck_raster 1 2
       → p E 1 2 = Some 0)
    ∧ (¬ covers 0 right_kernel (Z.of_nat 1) speck_raster 1 2
       → p E 1 2 = Some 1).
Proof.
  apply (interior_pixels_follow_kernel_layout right_kernel 1 speck_raster 1 2).
  - unfold raster. simpl. lia.
  - reflexivity.
  - simpl. lia.
  - simpl. lia.
  - simpl. lia.
  - simpl. lia.
Defined.

Lemma default_kernel_keeps_interior_witness :
  ∃ o,
    processInputData background_pixels None 1%positive
      (IPLMorphologyBinary._kernel IPLMorphologyBinary.init) 3 ERODE
      {[1%positive := speck_raster]}
    = Some o
    ∧ ∃ Y, planes o !! result o = Some Y ∧ p Y 2 2 = p speck_raster 2 2.
Proof.
  eexists. split; [vm_compute; reflexivity|].
  apply (default_kernel_keeps_interior background_pixels None 1%positive 3
           ERODE {[1%positive := speck_raster]} speck_raster).
  - intros w h. apply length_replicate.
  - discriminate.
  - reflexivity.
  - unfold raster. simpl. lia.
  - unfold DILATE, ERODE, CLOSE. lia.
  - vm_compute. reflexivity.
  - lia.
  - simpl. lia.
  - lia.
  - simpl. lia.
  - right. reflexivity.
Defined.

Lemma destroy_restores_store_witness :
  ∃ this' h',
    IPLMorphologyBinary.calls background_pixels
      [IPLMorphologyBinary.Request 1%positive [1; 1; 1; 1; 1; 1; 1; 1; 1] 1 0;
       IPLMorphologyBinary.Request 1%positive [0; 0; 0; 0; 1; 0; 0; 0; 0] 2 3]
      IPLMorphologyBinary.init {[1%positive := corner_raster]}
    = Some (this', h')
    ∧ IPLMorphologyBinary.destroy this' h'
      = Some {[1%positive := corner_raster]}.
Proof.
  do 2 eexists. split; [vm_compute; reflexivity|].
  apply (destroy_restores_store background_pixels
           (λ w h, length_replicate (Z.to_nat (w * h)) 0)
           [IPLMorphologyBinary.Request 1%positive
              [1; 1; 1; 1; 1; 1; 1; 1; 1] 1 0;
            IPLMorphologyBinary.Request 1%positive
              [0; 0; 0; 0; 1; 0; 0; 0; 0] 2 3]
           {[1%positive := corner_raster]}).
  - repeat constructor; exists corner_raster;
      (split; [reflexivity|unfold raster; simpl; lia]).
  - vm_compute. reflexivity.
Defined.

Lemma only_the_last_call_counts_witness :
  IPLMorphologyBinary.calls background_pixels
    ([IPLMorphologyBinary.Request 1%positive [1; 1; 1; 1; 1; 1; 1; 1; 1] 1 0]
     ++ [IPLMorphologyBinary.Request 1%positive
           [0; 0; 0; 0; 1; 0; 0; 0; 0] 2 3])
    IPLMorphologyBinary.init {[1%positive := corner_raster]}
  = IPLMorphologyBinary.calls background_pixels
      [IPLMorphologyBinary.Request 1%positive [0; 0; 0; 0; 1; 0; 0; 0; 0] 2 3]
      IPLMorphologyBinary.init {[1%positive := corner_raster]}.
Proof.
  apply (only_the_last_call_counts background_pixels
           (λ w h, length_replicate (Z.to_nat (w * h)) 0)).
  - repeat constructor; exists corner_raster;
      (split; [reflexivity|unfold raster; simpl; lia]).
  - eexists. vm_compute. reflexivity.
Defined.

Lemma second_destroy_releases_again_witness :
  ∃ this' h' h'',
    IPLMorphologyBinary.calls background_pixels
      [IPLMorphologyBinary.Request 1%positive [1; 1; 1; 1; 1; 1; 1; 1; 1] 1 0]
      IPLMorphologyBinary.init {[1%positive := corner_raster]}
    = Some (this', h')
    ∧ IPLMorphologyBinary.destroy this' h' = Some h''
    ∧ IPLMorphologyBinary.destroy this' h'' = None.
Proof.
  do 3 eexists. split; [vm_compute; reflexivity|].
  split; [vm_compute; reflexivity|].
  eapply (second_destroy_releases_again background_pixels
           (λ w h, length_replicate (Z.to_nat (w * h)) 0)
           [IPLMorphologyBinary.Request 1%positive
              [1; 1; 1; 1; 1; 1; 1; 1; 1] 1 0]
           {[1%positive := corner_raster]}).
  - repeat constructor; exists corner_raster;
      (split; [reflexivity|unfold raster; simpl; lia]).
  - discriminate.
  - vm_compute. reflexivity.
  - vm_compute. reflexivity.
Defined.

Lemma inactive_kernel_erases_witness :
  run dilate 2 (replicate 9 false) corner_raster
  = Some (constant_plane (width corner_raster) (height corner_raster) 0).
Proof.
  refine (proj1 (inactive_kernel_erases (replicate 9 false) 2 corner_raster
                   _ _ _ _)).
  - unfold raster. simpl. lia.
  - unfold kernel_fits. vm_compute. discriminate.
  - repeat constructor.
  - lia.
Defined.

Lemma short_kernel_runs_off_its_end_witness :
  run dilate 1 [true; true; true; true] empty_raster = None
  ∧ run close 1 [true; true; true; true] empty_raster = None.
Proof.
  refine (proj1 (short_kernel_runs_off_its_end [true; true; true; true] 1
                   empty_raster 1 1 _ _ _ _ _ _ _) _).
  - unfold raster. simpl. lia.
  - unfold kernel_fits. vm_compute. intros Hfits. by apply Hfits.
  - lia.
  - vm_compute. discriminate.
  - vm_compute. reflexivity.
  - vm_compute. discriminate.
  - vm_compute. reflexivity.
  - intros x' y' Hnear. unfold near in Hnear. simpl in Hnear.
    assert (Hxs : x' = 0 ∨ x' = 1 ∨ x' = 2) by lia.
    assert (Hys : y' = 0 ∨ y' = 1 ∨ y' = 2) by lia.
    destruct Hxs as [->|[->| ->]], Hys as [->|[->| ->]]; vm_compute;
      discriminate.
Defined.

Lemma empty_kernel_faults_witness :
  processInputData background_pixels None 1%positive [] 1 DILATE
    {[1%positive := corner_raster]}
  = None.
Proof.
  apply (empty_kernel_faults background_pixels None 1%positive 1 DILATE
           {[1%positive := corner_raster]} corner_raster).
  - intros w h. apply length_replicate.
  - discriminate.
  - reflexivity.
  - unfold raster. simpl. lia.
  - simpl. lia.
  - simpl. lia.
  - lia.
  - unfold DILATE, CLOSE. lia.
Defined.

Lemma full_kernel_ordering_witness :
  ∃ D E O C,
    run dilate 2 (full_kernel 1) speck_raster = Some D
    ∧ run erode 2 (full_kernel 1) speck_raster = Some E
    ∧ run open 2 (full_kernel 1) speck_raster = Some O
    ∧ run close 2 (full_kernel 1) speck_raster = Some C
    ∧ included E speck_raster ∧ included speck_raster D
    ∧ included O speck_raster ∧ included speck_raster C.
Proof.
  apply (full_kernel_ordering 1 2 speck_raster).
  - unfold raster. simpl. lia.
  - unfold binary. simpl. repeat constructor; lia.
Defined.

Lemma only_the_sentinel_counts_witness :
  run dilate 2 right_kernel (Plane 1 2 [1; 5])
  = run dilate 2 right_kernel (Plane 1 2 [1; 0])
  ∧ run close 2 right_kernel (Plane 1 2 [1; 5])
    = run close 2 right_kernel (Plane 1 2 [1; 0]).
Proof.
  refine (proj1 (only_the_sentinel_counts 2 right_kernel (Plane 1 2 [1; 5])
                   (Plane 1 2 [1; 0]) _ _ _) _).
  - unfold raster. simpl. lia.
  - unfold raster. simpl. lia.
  - lia.
  - split; [done|]. intros x y Hx Hy. simpl in Hx, Hy.
    assert (x = 0) as -> by lia.
    assert (Hys : y = 0 ∨ y = 1) by lia.
    destruct Hys as [->| ->]; vm_compute; split; congruence.
Defined.

Lemma source_holds_previous_generation_witness :
  plane_after 1%positive
    (applyMorphology 1 0 1%positive 2%positive 3 (full_kernel 1) S
       (two_planes corner_raster empty_raster))
  = Y ← generations 1 0 (full_kernel 1) (Z.to_nat (3 - 1)) corner_raster;
    _ ← generation 1 0 (full_kernel 1) Y;
    Some Y.
Proof.
  refine (proj1 (source_holds_previous_generation 1 0 1%positive 2%positive 3
                   (full_kernel 1) S corner_raster empty_raster
                   (two_planes corner_raster empty_raster) _ _ _ _ _ _) _).
  - reflexivity.
  - reflexivity.
  - discriminate.
  - unfold raster. simpl. lia.
  - unfold raster. simpl. lia.
  - unfold compatible. simpl. lia.
  - lia.
Defined.

Section CalibrationRuns.
Import IPLCameraCalibration.

Lemma corners_lie_row_by_row_witness :
  length (calcChessboardCorners (cv:=sample_OpenCV) (4, 7) 1
            ASYMMETRIC_CIRCLES_GRID)
  = (Z.to_nat 7 * Z.to_nat 4)%nat
  ∧ ∀ i j, 0 ≤ i < 7 → 0 ≤ j < 4 →
      calcChessboardCorners (cv:=sample_OpenCV) (4, 7) 1
        ASYMMETRIC_CIRCLES_GRID !! Z.to_nat (i * 4 + j)
      = Some ((2 * j + i `mod` 2) * 1, i * 1, 0).
Proof.
  apply (corners_lie_row_by_row (cv:=sample_OpenCV) (4, 7) 1
           ASYMMETRIC_CIRCLES_GRID).
  right. right. reflexivity.
Defined.

Lemma one_frame_in_skipFrames_plus_one_is_processed_witness :
  ∃ this',
    calls (replicate 5 (chessboard_frame 5 5 1)) fresh_object = Some this'
    ∧ _frameCounter this'
      = (_frameCounter fresh_object
         + Z.of_nat (length (replicate 5 (chessboard_frame 5 5 1))))
        `mod` (1 + 1).
Proof.
  assert (is_Some (calls (replicate 5 (chessboard_frame 5 5 1)) fresh_object))
    as [this' Hcalls] by (apply (bool_decide_unpack _); by vm_compute).
  exists this'. split; [exact Hcalls|].
  apply (one_frame_in_skipFrames_plus_one_is_processed 1
           (replicate 5 (chessboard_frame 5 5 1)) fresh_object).
  - lia.
  - repeat constructor.
  - simpl. lia.
  - exact Hcalls.
Defined.

Lemma mode_never_goes_back_witness :
  ∃ this',
    calls (replicate 12 (chessboard_frame 5 5 0)) fresh_object = Some this'
    ∧ mode_rank (_mode fresh_object) ≤ mode_rank (_mode this').
Proof.
  assert (is_Some (calls (replicate 12 (chessboard_frame 5 5 0)) fresh_object))
    as [this' Hcalls] by (apply (bool_decide_unpack _); by vm_compute).
  exists this'. split; [exact Hcalls|].
  apply (mode_never_goes_back (replicate 12 (chessboard_frame 5 5 0))
           fresh_object).
  exact Hcalls.
Defined.

Lemma calibration_uses_eleven_views_witness :
  ∃ this',
    calls (replicate 14 (chessboard_frame 5 5 0)) fresh_object = Some this'
    ∧ ((_mode this' = DETECTION ∧ (length (_imagePoints this') ≤ 10)%nat)
       ∨ (_mode this' ≠ DETECTION ∧ length (_imagePoints this') = 11%nat)).
Proof.
  assert (is_Some (calls (replicate 14 (chessboard_frame 5 5 0)) fresh_object))
    as [this' Hcalls] by (apply (bool_decide_unpack _); by vm_compute).
  exists this'. split; [exact Hcalls|].
  apply (calibration_uses_eleven_views
           (replicate 14 (chessboard_frame 5 5 0)) fresh_object).
  - reflexivity.
  - simpl. lia.
  - exact Hcalls.
Defined.

Lemma calibration_starts_after_enough_calls_witness :
  11 * (1 + 1) ≤ Z.of_nat (length (replicate 22 (chessboard_frame 5 5 1))).
Proof.
  assert (is_Some (calls (replicate 22 (chessboard_frame 5 5 1)) fresh_object))
    as [this' Hcalls] by (apply (bool_decide_unpack _); by vm_compute).
  assert (Hmode : _mode <$> calls (replicate 22 (chessboard_frame 5 5 1))
                              fresh_object
                  = Some CALIBRATED) by (vm_compute; reflexivity).
  rewrite Hcalls in Hmode. injection Hmode as Hmode.
  apply (calibration_starts_after_enough_calls 1
           (replicate 22 (chessboard_frame 5 5 1)) fresh_object this').
  - lia.
  - repeat constructor.
  - reflexivity.
  - reflexivity.
  - reflexivity.
  - exact Hcalls.
  - rewrite Hmode. discriminate.
Defined.

Lemma failed_calibration_is_repeated_witness :
  ∃ b this,
    processInputData
      (Object (cv:=sample_OpenCV) None None DETECTION 0
         (replicate 10 [(0, 0)]) [] [])
      (5, 0) 0 4 7 0
    = Some (b, this)
    ∧ ∃ this',
        calls [chessboard_frame 5 0 3; chessboard_frame 5 0 0] this
        = Some this'
        ∧ _mode this' = CALIBRATION
        ∧ _imagePoints this' = _imagePoints this.
Proof.
  assert (is_Some (processInputData
                     (Object (cv:=sample_OpenCV) None None DETECTION 0
                        (replicate 10 [(0, 0)]) [] [])
                     (5, 0) 0 4 7 0))
    as [[b this] Hcall] by (apply (bool_decide_unpack _); by vm_compute).
  assert (Hmode : (λ r, _mode r.2)
                    <$> processInputData
                          (Object (cv:=sample_OpenCV) None None DETECTION 0
                             (replicate 10 [(0, 0)]) [] [])
                          (5, 0) 0 4 7 0
                  = Some CALIBRATION) by (vm_compute; reflexivity).
  rewrite Hcall in Hmode. injection Hmode as Hmode.
  exists b, this. split; [exact Hcall|].
  apply (failed_calibration_is_repeated
           (Object (cv:=sample_OpenCV) None None DETECTION 0
              (replicate 10 [(0, 0)]) [] [])
           (5, 0) 0 4 7 0 b this).
  - exact Hcall.
  - simpl. lia.
  - exact Hmode.
  - repeat constructor.
Defined.

Lemma unknown_target_type_faults_witness :
  processInputData fresh_object (5, 5) 3 4 7 0 = None.
Proof.
  apply (unknown_target_type_faults fresh_object (5, 5) 3 4 7 0).
  - reflexivity.
  - simpl. lia.
  - lia.
Defined.

Lemma reprojection_errors_need_every_view_witness :
  is_Some (computeReprojectionErrors (cv:=sample_OpenCV)
             [[(0, 0, 0)]; [(1, 0, 0)]] [[(0, 0)]; [(1, 0)]]
             [(3, 1); (3, 1)] [(3, 1); (3, 1)] (3, 3) (8, 1) [])
  ∧ ¬ is_Some (computeReprojectionErrors (cv:=sample_OpenCV)
                 [[(0, 0, 0)]; [(1, 0, 0)]] [[(0, 0)]]
                 [(3, 1); (3, 1)] [(3, 1); (3, 1)] (3, 3) (8, 1) []).
Proof.
  split.
  - apply (proj1 (reprojection_errors_need_every_view (cv:=sample_OpenCV)
                    [[(0, 0, 0)]; [(1, 0, 0)]] [[(0, 0)]; [(1, 0)]]
                    [(3, 1); (3, 1)] [(3, 1); (3, 1)] (3, 3) (8, 1) [])).
    simpl. lia.
  - intros Hreturns.
    apply (proj1 (reprojection_errors_need_every_view (cv:=sample_OpenCV)
                    [[(0, 0, 0)]; [(1, 0, 0)]] [[(0, 0)]]
                    [(3, 1); (3, 1)] [(3, 1); (3, 1)] (3, 3) (8, 1) []))
      in Hreturns.
    simpl in Hreturns. lia.
Defined.

End CalibrationRuns.
